(** * The compact blueprint interpreter of [server/src/session.ts]

    A shallow embedding of the blueprint expansion code (the block-type
    normalizer, the integer expression evaluator, the scoped step interpreter
    and the compact/legacy dispatcher, from [parseBlocksFromResponse] to
    [setSupportedBlockCatalog]) together with the properties its
    specification states about it.

    Modelling conventions.
    - A JavaScript string is a [string]; a character stands for the UTF-16
      code unit with the same number (0..255).
    - A number is an IEEE 754 double.  The numbers the interpreter computes
      are integer-valued doubles or one of the three non-finite values
      ([Num]); the arithmetic rounds to the nearest double, ties to even
      ([Double]).  The two zeros are one value: the program never divides by
      a zero, and it prints and compares both alike, so that it cannot tell
      them apart.  A number of
      the input document is a [JsNumber]: the rational value of its literal,
      which [JSON.parse] rounds to a double, or a non-finite value.
    - An object is the list of its own properties, each key once; a scope
      ([Record<string, ScopeValue>]) is the finite map of its own properties,
      and a lookup that finds no own property continues in
      [Object.prototype] ([inheritedMember]).  The definition table
      ([Map<string, ...>]) is a finite map.
    - A [throw] is the [Err] outcome; the mutable [out] array and the
      [ExecBudget] are threaded explicitly and survive a throw.
    - A loop that the program may never leave is run for a bounded number of
      turns; [ModelFuelExhausted] reports that the bound was reached.  The
      bounds of the tokenizer, the parser and the recursion of
      [executeSteps] are never reached; that of a [for] loop is reached
      only by a loop that does not end, and the expansion is then
      [Unfinished].
    - [console.warn] diagnostics (and the memo of types already warned
      about) produce no value and are left out; so are the limits of the
      host (stack depth, string length, memory). *)

From Stdlib Require Import ZArith QArith List String Ascii Lia Bool DecimalString.
From stdpp Require Import base gmap strings list fin_maps.

Local Open Scope string_scope.
Local Open Scope list_scope.
Local Open Scope Z_scope.

(** ** Outcomes *)

Inductive Result (E A : Type) : Type :=
| Ok (value : A)
| Err (error : E).
Arguments Ok {E A} value.
Arguments Err {E A} error.

Definition bindR {E A B} (r : Result E A) (k : A -> Result E B) : Result E B :=
  match r with
  | Ok a => k a
  | Err e => Err e
  end.

Notation "'let*' x ':=' r 'in' k" := (bindR r (fun x => k))
  (at level 10, x pattern, r at level 100, k at level 200).


(** Every [throw new Error(...)] of the interpreter, one constructor per
    message, and the two [TypeError]s of the language that its statements can
    raise.  [ModelFuelExhausted] is not an error of the program: it is what a
    bounded loop of the model returns when its bound is reached. *)
Inductive Error : Type :=
(* tokenizeExpression / evaluateIntegerExpression / applyIntOp *)
| InvalidCharacter (ch : ascii)
| EmptyExpression
| UnexpectedEndOfExpression
| UnexpectedToken
| MissingClosingParenthesis
| TrailingTokens
| UnknownVariable (name : string)
| NonNumericVariable (name : string)
| DivisionByZero (field : string)
(* evalIntExpr / evalCallArgValue *)
| MustBeNumberOrExpression (field : string)
| ExpressionIsEmpty (field : string)
| UnsupportedExpression (expr field : string) (cause : Error)
| MustBeNumberOrString (field : string)
| ArgCannotBeEmpty (field : string)
(* executeSteps / executeForStep / executeCallStep *)
| ExceededMaxCallDepth
| ExceededMaxExecutedSteps
| StepMustBeObject
| UnsupportedCompactOp (op : string)
| ForMissingVar
| ForStepCannotBeZero
| ForMissingSteps
| ExceededMaxCalls
| CallMissingName
| UndefinedFunction (name : string)
| FunctionHasInvalidSteps (name : string)
| MissingArg (key name : string)
(* expandCompactProgram / normalizeLegacyBlocks / parseBlocksFromResponse *)
| DefinitionMustBeObject
| DefinitionMissingName
| DefinitionMissingSteps (name : string)
| CompactMissingTopLevelSteps
| LegacyBlockMustBeObject (idx : nat)
| ResponseMustBeObject
| ResponseMissingStepsDefsOrBlocks
(* the language *)
| CannotConvertObjectToPrimitive
| CannotAssignToProperty (key : string)
| ModelFuelExhausted.

(** ** Numbers *)

(** Rounding to the nearest double. *)
Module Double.

(** [floor (log2 (n / d))] for positive [n] and [d]. *)
Definition floorLog2 (n d : Z) : Z :=
  let k := Z.log2 n - Z.log2 d in
  if (if 0 <=? k then d * 2 ^ k <=? n else d <=? n * 2 ^ (- k)) then k else k - 1.

(** The integer nearest to [n / d], the even one of two nearest. *)
Definition roundHalfEven (n d : Z) : Z :=
  let q := n / d in
  let r := n mod d in
  if 2 * r <? d then q
  else if d <? 2 * r then q + 1
  else if Z.even q then q else q + 1.

(** [Math.trunc] of the double nearest to [n / d], for [0 <= n] and [0 < d];
    [None] when that double is [Infinity].  The quotient is scaled by a power
    of two so that its 53 leading bits (fewer for a subnormal) are the
    integer part, which is rounded and scaled back. *)
Definition truncRoundPos (n d : Z) : option Z :=
  if n =? 0 then Some 0
  else
    let e := Z.max (floorLog2 n d - 52) (-1074) in
    if 0 <=? e then
      let v := roundHalfEven n (d * 2 ^ e) * 2 ^ e in
      if 2 ^ 1024 <=? v then None else Some v
    else Some (roundHalfEven (n * 2 ^ (- e)) d / 2 ^ (- e)).

End Double.

(** A number of the interpreter: an integer-valued double or a non-finite
    value. *)
Inductive Num : Type :=
| Int (z : Z)
| PosInf
| NegInf
| NaN.

Module JsNum.

(** [Math.trunc(x)] for the double [x] nearest to [n / d], where [0 < d]. *)
Definition truncOfRatio (n d : Z) : Num :=
  if n <? 0 then
    match Double.truncRoundPos (- n) d with
    | Some v => Int (- v)
    | None => NegInf
    end
  else
    match Double.truncRoundPos n d with
    | Some v => Int v
    | None => PosInf
    end.

(** The double nearest to an integer. *)
Definition round (z : Z) : Num := truncOfRatio z 1.

(** [-a]. *)
Definition neg (a : Num) : Num :=
  match a with
  | Int z => Int (- z)
  | PosInf => NegInf
  | NegInf => PosInf
  | NaN => NaN
  end.

(** [a + b]. *)
Definition add (a b : Num) : Num :=
  match a, b with
  | Int x, Int y => round (x + y)
  | NaN, _ | _, NaN => NaN
  | PosInf, NegInf | NegInf, PosInf => NaN
  | PosInf, _ | _, PosInf => PosInf
  | NegInf, _ | _, NegInf => NegInf
  end.

(** [a - b]. *)
Definition sub (a b : Num) : Num := add a (neg b).

Definition infinityOfSign (s : Z) : Num :=
  if s =? 0 then NaN else if 0 <? s then PosInf else NegInf.

Definition sign (a : Num) : Z :=
  match a with
  | Int z => Z.sgn z
  | PosInf => 1
  | NegInf => -1
  | NaN => 0
  end.

(** [a * b]. *)
Definition mul (a b : Num) : Num :=
  match a, b with
  | Int x, Int y => round (x * y)
  | NaN, _ | _, NaN => NaN
  | _, _ => infinityOfSign (sign a * sign b)
  end.

(** [Math.trunc(a / b)].  A zero divisor stands for [+0]; [applyIntOp]
    never divides by a zero. *)
Definition truncDivide (a b : Num) : Num :=
  match a, b with
  | NaN, _ | _, NaN => NaN
  | Int x, Int y =>
      if y =? 0 then infinityOfSign (Z.sgn x)
      else truncOfRatio (x * Z.sgn y) (Z.abs y)
  | Int _, _ => Int 0
  | _, Int y => infinityOfSign (sign a * (if y =? 0 then 1 else Z.sgn y))
  | _, _ => NaN
  end.

(** [a <= b] and [a < b]: false when an operand is [NaN]. *)
Definition leb (a b : Num) : bool :=
  match a, b with
  | NaN, _ | _, NaN => false
  | Int x, Int y => x <=? y
  | NegInf, _ | _, PosInf => true
  | _, _ => false
  end.

Definition ltb (a b : Num) : bool :=
  match a, b with
  | NaN, _ | _, NaN => false
  | Int x, Int y => x <? y
  | PosInf, _ | _, NegInf => false
  | _, _ => true
  end.

(** The largest magnitude up to which every integer is a double. *)
Definition MAX_EXACT : Z := 2 ^ 53.

(** An integer within the range in which the doubles are exact. *)
Definition exact (z : Z) : Prop := Z.abs z <= MAX_EXACT.

End JsNum.

(** ** Strings *)

Module JsString.

Definition code (c : ascii) : N := N_of_ascii c.

Definition inRange (lo hi : N) (c : ascii) : bool :=
  ((lo <=? code c) && (code c <=? hi))%N.

(** [ch >= "0" && ch <= "9"] and the class [\d]. *)
Definition isDigit (c : ascii) : bool := inRange 48 57 c.

(** The class [[A-Za-z_]]. *)
Definition isIdentStart (c : ascii) : bool :=
  inRange 65 90 c || inRange 97 122 c || (code c =? 95)%N.

(** The class [[A-Za-z0-9_]]. *)
Definition isIdentPart (c : ascii) : bool := isIdentStart c || isDigit c.

(** The class [\s] (also what [trim] strips): TAB, LF, VT, FF, CR, SP and
    NBSP are its members below 256. *)
Definition isWhitespace (c : ascii) : bool :=
  inRange 9 13 c || (code c =? 32)%N || (code c =? 160)%N.

Fixpoint forallb (p : ascii -> bool) (s : string) : bool :=
  match s with
  | EmptyString => true
  | String c r => p c && forallb p r
  end.

Fixpoint dropWhile (p : ascii -> bool) (s : string) : string :=
  match s with
  | EmptyString => EmptyString
  | String c r => if p c then dropWhile p r else s
  end.

Fixpoint takeWhile (p : ascii -> bool) (s : string) : string :=
  match s with
  | EmptyString => EmptyString
  | String c r => if p c then String c (takeWhile p r) else EmptyString
  end.

(** [s.trimEnd()]. *)
Fixpoint trimEnd (s : string) : string :=
  match s with
  | EmptyString => EmptyString
  | String c r =>
      match trimEnd r with
      | EmptyString => if isWhitespace c then EmptyString else String c EmptyString
      | r' => String c r'
      end
  end.

(** [s.trim()]. *)
Definition trim (s : string) : string := trimEnd (dropWhile isWhitespace s).

(** The characters [toLowerCase] changes: A-Z, and the accented capital
    letters of the range 192..222 (215, the multiplication sign, is none). *)
Definition isUpper (c : ascii) : bool :=
  inRange 65 90 c || (inRange 192 222 c && negb (code c =? 215)%N).

Definition lowerChar (c : ascii) : ascii :=
  if isUpper c then ascii_of_N (code c + 32) else c.

(** [s.toLowerCase()]. *)
Fixpoint toLowerCase (s : string) : string :=
  match s with
  | EmptyString => EmptyString
  | String c r => String (lowerChar c) (toLowerCase r)
  end.

(** [s.replace(/\s+/g, "_")]: every maximal run of whitespace becomes one
    underscore. *)
Fixpoint replaceWhitespaceRuns (s : string) : string :=
  match s with
  | EmptyString => EmptyString
  | String c r =>
      if isWhitespace c
      then match r with
           | String c' _ =>
               if isWhitespace c' then replaceWhitespaceRuns r
               else String "_" (replaceWhitespaceRuns r)
           | EmptyString => String "_" EmptyString
           end
      else String c (replaceWhitespaceRuns r)
  end.

(** [s.replace(/-/g, "_")]. *)
Fixpoint replaceHyphens (s : string) : string :=
  match s with
  | EmptyString => EmptyString
  | String c r =>
      String (if (code c =? 45)%N then "_"%char else c) (replaceHyphens r)
  end.

(** [s.startsWith(p)]. *)
Definition startsWith (p s : string) : bool := String.prefix p s.

(** [/^[A-Za-z_][A-Za-z0-9_]*$/.test(s)]. *)
Definition isIdentifier (s : string) : bool :=
  match s with
  | EmptyString => false
  | String c r => isIdentStart c && forallb isIdentPart r
  end.

Definition isDigits (s : string) : bool :=
  match s with
  | EmptyString => false
  | _ => forallb isDigit s
  end.

(** [/^-?\d+$/.test(s)]. *)
Definition isSignedDigits (s : string) : bool :=
  match s with
  | String "-" r => isDigits r
  | _ => isDigits s
  end.

Definition digitValue (c : ascii) : Z := Z.of_N (code c) - 48.

Fixpoint parseDigitsFrom (acc : Z) (s : string) : Z :=
  match s with
  | EmptyString => acc
  | String c r => parseDigitsFrom (10 * acc + digitValue c) r
  end.

(** The integer that a string of the form [-?\d+] denotes. *)
Definition integerOfDigits (s : string) : Z :=
  match s with
  | String "-" r => - parseDigitsFrom 0 r
  | _ => parseDigitsFrom 0 s
  end.

(** [Number.parseInt(s, 10)] on a string of the form [-?\d+]: the double
    nearest to the integer denoted. *)
Definition parseInt (s : string) : Num := JsNum.round (integerOfDigits s).

(** [items.join(sep)]. *)
Fixpoint join (sep : string) (items : list string) : string :=
  match items with
  | [] => ""
  | [s] => s
  | s :: rest => (s ++ sep ++ join sep rest)%string
  end.

End JsString.

(** ** Expression tokens *)

Inductive Operator : Type := OpAdd | OpSub | OpMul | OpDiv.

Inductive ExprToken : Type :=
| TNumber (value : Num)
| TIdent (value : string)
| TOp (value : Operator)
| TLParen
| TRParen.

Definition operatorOfChar (c : ascii) : option Operator :=
  if (JsString.code c =? 43)%N then Some OpAdd
  else if (JsString.code c =? 45)%N then Some OpSub
  else if (JsString.code c =? 42)%N then Some OpMul
  else if (JsString.code c =? 47)%N then Some OpDiv
  else None.

(** The [while (i < expr.length)] loop of [tokenizeExpression]; the string is
    what is left from index [i] on.  Every turn consumes a character, so
    [String.length expr + 1] turns are always enough. *)
Fixpoint tokenizeFrom (fuel : nat) (expr : string) (tokens : list ExprToken)
  : Result Error (list ExprToken) :=
  match fuel with
  | O => Err ModelFuelExhausted
  | S fuel' =>
      match expr with
      | EmptyString =>
          match tokens with
          | [] => Err EmptyExpression
          | _ => Ok tokens
          end
      | String ch rest =>
          if JsString.isWhitespace ch then tokenizeFrom fuel' rest tokens
          else if JsString.isDigit ch then
            let digits := String ch (JsString.takeWhile JsString.isDigit rest) in
            tokenizeFrom fuel' (JsString.dropWhile JsString.isDigit rest)
              (tokens ++ [TNumber (JsString.parseInt digits)])
          else if JsString.isIdentStart ch then
            let name := String ch (JsString.takeWhile JsString.isIdentPart rest) in
            tokenizeFrom fuel' (JsString.dropWhile JsString.isIdentPart rest)
              (tokens ++ [TIdent name])
          else
            match operatorOfChar ch with
            | Some op => tokenizeFrom fuel' rest (tokens ++ [TOp op])
            | None =>
                if (JsString.code ch =? 40)%N
                then tokenizeFrom fuel' rest (tokens ++ [TLParen])
                else if (JsString.code ch =? 41)%N
                then tokenizeFrom fuel' rest (tokens ++ [TRParen])
                else Err (InvalidCharacter ch)
            end
      end
  end.

Definition tokenizeExpression (expr : string) : Result Error (list ExprToken) :=
  tokenizeFrom (S (String.length expr)) expr [].

(** ** Documents *)

(** A JavaScript number: a finite value or one of the non-finite ones. *)
Inductive JsNumber : Type :=
| Finite (q : Q)
| PosInfinity
| NegInfinity
| NotANumber.

Definition jsNumberOfNum (n : Num) : JsNumber :=
  match n with
  | Int z => Finite (inject_Z z)
  | PosInf => PosInfinity
  | NegInf => NegInfinity
  | NaN => NotANumber
  end.

(** Rounding toward zero, of a rational. *)
Definition mathTrunc (q : Q) : Z := Z.quot (Qnum q) (Zpos (Qden q)).

(** [Number.isFinite(raw) ? Math.trunc(raw) : undefined] for a number of the
    document: the literal is first rounded to a double, which is infinite
    when the literal is too large. *)
Definition truncFinite (raw : JsNumber) : option Z :=
  match raw with
  | Finite q =>
      match JsNum.truncOfRatio (Qnum q) (Zpos (Qden q)) with
      | Int z => Some z
      | _ => None
      end
  | _ => None
  end.

(** A value as [JSON.parse] returns it. *)
#[warnings="-register-all"]
Inductive Json : Type :=
| JNull
| JBool (b : bool)
| JNum (n : JsNumber)
| JStr (s : string)
| JArr (items : list Json)
| JObj (props : list (string * Json)).

(** [obj[key]] on the own properties; [None] is [undefined]. *)
Fixpoint getProp (key : string) (props : list (string * Json)) : option Json :=
  match props with
  | [] => None
  | (k, v) :: rest => if String.eqb k key then Some v else getProp key rest
  end.

(** [value ?? fallback]. *)
Definition nullish (value : option Json) (fallback : Json) : Json :=
  match value with
  | None | Some JNull => fallback
  | Some v => v
  end.

(** ** The properties every object inherits *)

(** The members of [Object.prototype]: eleven functions and the accessor
    [__proto__], which yields [Object.prototype] itself. *)
Inductive ProtoMember : Type :=
| PConstructor
| PDefineGetter
| PDefineSetter
| PHasOwnProperty
| PLookupGetter
| PLookupSetter
| PIsPrototypeOf
| PPropertyIsEnumerable
| PToString
| PValueOf
| PProto
| PToLocaleString.

Definition protoMemberName (m : ProtoMember) : string :=
  match m with
  | PConstructor => "constructor"
  | PDefineGetter => "__defineGetter__"
  | PDefineSetter => "__defineSetter__"
  | PHasOwnProperty => "hasOwnProperty"
  | PLookupGetter => "__lookupGetter__"
  | PLookupSetter => "__lookupSetter__"
  | PIsPrototypeOf => "isPrototypeOf"
  | PPropertyIsEnumerable => "propertyIsEnumerable"
  | PToString => "toString"
  | PValueOf => "valueOf"
  | PProto => "__proto__"
  | PToLocaleString => "toLocaleString"
  end.

Definition protoMembers : list ProtoMember :=
  [ PConstructor; PDefineGetter; PDefineSetter; PHasOwnProperty; PLookupGetter;
    PLookupSetter; PIsPrototypeOf; PPropertyIsEnumerable; PToString; PValueOf;
    PProto; PToLocaleString ].

(** The member of [Object.prototype] that a property name denotes. *)
Definition inheritedMember (name : string) : option ProtoMember :=
  List.find (fun m => String.eqb (protoMemberName m) name) protoMembers.

(** [String(value)] for an inherited value: the source text of a native
    function ([constructor] is the function [Object]), and
    ["[object Object]"] for [Object.prototype]. *)
Definition protoMemberText (m : ProtoMember) : string :=
  match m with
  | PProto => "[object Object]"
  | PConstructor => "function Object() { [native code] }"
  | _ => "function " ++ protoMemberName m ++ "() { [native code] }"
  end.

(** ** Scopes *)

(** What a scope can hold, and what the evaluator can return: a number, a
    string, or a value inherited from [Object.prototype]. *)
Inductive ScopeValue : Type :=
| SNum (value : Num)
| SStr (value : string)
| SObj (value : ProtoMember).

(** The integer [z] as a value. *)
Definition int (z : Z) : ScopeValue := SNum (Int z).

(** The own properties of a scope object. *)
Definition Scope : Type := gmap string ScopeValue.

(** [scope[name]]: the own property, else the inherited one; [None] is
    [undefined]. *)
Definition scopeGet (scope : Scope) (name : string) : option ScopeValue :=
  match scope !! name with
  | Some v => Some v
  | None => option_map SObj (inheritedMember name)
  end.

Definition isAdditive (op : Operator) : bool :=
  match op with OpAdd | OpSub => true | _ => false end.

Definition isMultiplicative (op : Operator) : bool :=
  match op with OpMul | OpDiv => true | _ => false end.

(** [ToNumber(v)] for an operand of [-], [*] and [/].  An operand is what
    [parseFactor] returns: a number, an inherited value, or a string that
    [+] has built from the text of an inherited value (a string of the scope
    is converted or rejected by [parseFactor]); the last two are no numeric
    literals. *)
Definition toNumber (v : ScopeValue) : Num :=
  match v with
  | SNum n => n
  | _ => NaN
  end.

Section Evaluator.

(** [String(n)] for a number [n]: the host's number formatting. *)
Variable numberToString : JsNumber -> string.

(** [String(v)]. *)
Definition textOfValue (v : ScopeValue) : string :=
  match v with
  | SNum n => numberToString (jsNumberOfNum n)
  | SStr s => s
  | SObj m => protoMemberText m
  end.

(** [left + right]: the sum of two numbers, else the concatenation of the
    two texts. *)
Definition jsAdd (left right : ScopeValue) : ScopeValue :=
  match left, right with
  | SNum a, SNum b => SNum (JsNum.add a b)
  | _, _ => SStr (textOfValue left ++ textOfValue right)
  end.

(** [right === 0]. *)
Definition isZero (v : ScopeValue) : bool :=
  match v with
  | SNum (Int z) => z =? 0
  | _ => false
  end.

(** [applyIntOp]: the operator is one of the four of the token type, so the
    final [throw] of the source (unsupported operator) has no input. *)
Definition applyIntOp (left : ScopeValue) (op : Operator) (right : ScopeValue)
    (field : string) : Result Error ScopeValue :=
  match op with
  | OpAdd => Ok (jsAdd left right)
  | OpSub => Ok (SNum (JsNum.sub (toNumber left) (toNumber right)))
  | OpMul => Ok (SNum (JsNum.mul (toNumber left) (toNumber right)))
  | OpDiv =>
      if isZero right then Err (DivisionByZero field)
      else Ok (SNum (JsNum.truncDivide (toNumber left) (toNumber right)))
  end.

(** The [ident] case of [parseFactor]. *)
Definition lookupVariable (scope : Scope) (name : string)
  : Result Error ScopeValue :=
  match scopeGet scope name with
  | None => Err (UnknownVariable name)
  | Some (SStr value) =>
      let maybeInt := JsString.trim value in
      if JsString.isSignedDigits maybeInt
      then Ok (SNum (JsString.parseInt maybeInt))
      else Err (NonNumericVariable name)
  | Some value => Ok value
  end.

Section Parser.

Variable scope : Scope.
Variable field : string.

(** The three mutually recursive closures of [evaluateIntegerExpression].
    The shared cursor [index] is modelled by the list of tokens from [index]
    on, which every function returns next to its value.  The [while] loops are
    [parseExpressionLoop] and [parseTermLoop], entered with the value so far. *)
Fixpoint parseExpression (fuel : nat) (tokens : list ExprToken)
  : Result Error (ScopeValue * list ExprToken) :=
  match fuel with
  | O => Err ModelFuelExhausted
  | S fuel' =>
      let* (value, rest) := parseTerm fuel' tokens in
      parseExpressionLoop fuel' value rest
  end
with parseExpressionLoop (fuel : nat) (value : ScopeValue) (tokens : list ExprToken)
  : Result Error (ScopeValue * list ExprToken) :=
  match fuel with
  | O => Err ModelFuelExhausted
  | S fuel' =>
      match tokens with
      | TOp op :: rest =>
          if isAdditive op then
            let* (rhs, rest') := parseTerm fuel' rest in
            let* value' := applyIntOp value op rhs field in
            parseExpressionLoop fuel' value' rest'
          else Ok (value, tokens)
      | _ => Ok (value, tokens)
      end
  end
with parseTerm (fuel : nat) (tokens : list ExprToken)
  : Result Error (ScopeValue * list ExprToken) :=
  match fuel with
  | O => Err ModelFuelExhausted
  | S fuel' =>
      let* (value, rest) := parseFactor fuel' tokens in
      parseTermLoop fuel' value rest
  end
with parseTermLoop (fuel : nat) (value : ScopeValue) (tokens : list ExprToken)
  : Result Error (ScopeValue * list ExprToken) :=
  match fuel with
  | O => Err ModelFuelExhausted
  | S fuel' =>
      match tokens with
      | TOp op :: rest =>
          if isMultiplicative op then
            let* (rhs, rest') := parseFactor fuel' rest in
            let* value' := applyIntOp value op rhs field in
            parseTermLoop fuel' value' rest'
          else Ok (value, tokens)
      | _ => Ok (value, tokens)
      end
  end
with parseFactor (fuel : nat) (tokens : list ExprToken)
  : Result Error (ScopeValue * list ExprToken) :=
  match fuel with
  | O => Err ModelFuelExhausted
  | S fuel' =>
      match tokens with
      | [] => Err UnexpectedEndOfExpression
      | TOp OpAdd :: rest => parseFactor fuel' rest
      | TOp OpSub :: rest =>
          let* (rhs, rest') := parseFactor fuel' rest in
          Ok (SNum (JsNum.neg (toNumber rhs)), rest')
      | TNumber value :: rest => Ok (SNum value, rest)
      | TIdent name :: rest =>
          let* value := lookupVariable scope name in
          Ok (value, rest)
      | TLParen :: rest =>
          let* (inner, rest') := parseExpression fuel' rest in
          match rest' with
          | TRParen :: rest'' => Ok (inner, rest'')
          | _ => Err MissingClosingParenthesis
          end
      | _ => Err UnexpectedToken
      end
  end.

(** Fuel that always suffices for a token list (see [parse_fuel_enough]). *)
Definition parseFuel (tokens : list ExprToken) : nat :=
  3 * List.length tokens + 3.

End Parser.

Definition evaluateIntegerExpression (expr : string) (scope : Scope) (field : string)
  : Result Error ScopeValue :=
  let* tokens := tokenizeExpression expr in
  let* (result, rest) := parseExpression scope field (parseFuel tokens) tokens in
  match rest with
  | [] => Ok result
  | _ => Err TrailingTokens
  end.

End Evaluator.

Module Block.
Record t : Type :=
  make { x : ScopeValue; y : ScopeValue; z : ScopeValue; blockType : string }.
End Block.

Record ExecBudget : Type := { executedSteps : Z; calls : Z }.

(** The mutable objects every step of an expansion shares. *)
Record ExecState : Type := { out : list Block.t; budget : ExecBudget }.

(** How a [void] function ends. *)
Inductive Completion : Type :=
| Normal
| Thrown (e : Error).

Definition MAX_BLOCKS : Z := 10000.
Definition MAX_EXECUTED_STEPS : Z := 50000.
Definition MAX_CALL_DEPTH : Z := 24.
Definition MAX_CALLS : Z := 500.
Definition DEFAULT_BLOCK_TYPE : string := "minecraft:stone".
Definition DEFAULT_ALLOWED_BLOCK_TYPES : list string :=
  [ "minecraft:stone"; "minecraft:cobblestone"; "minecraft:stone_bricks";
    "minecraft:bricks"; "minecraft:oak_planks"; "minecraft:oak_log";
    "minecraft:oak_leaves"; "minecraft:glass"; "minecraft:glass_pane";
    "minecraft:oak_stairs"; "minecraft:oak_slab"; "minecraft:grass_block";
    "minecraft:dirt"; "minecraft:sandstone"; "minecraft:smooth_stone";
    "minecraft:lantern"; "minecraft:torch" ].

(** [out.length >= MAX_BLOCKS]. *)
Definition outIsFull (st : ExecState) : bool :=
  MAX_BLOCKS <=? Z.of_nat (List.length (out st)).

(** [blocks.slice(0, MAX_BLOCKS)]. *)
Definition sliceToMax (blocks : list Block.t) : list Block.t :=
  firstn (Z.to_nat MAX_BLOCKS) blocks.

Definition decimal (n : nat) : string := NilZero.string_of_uint (Nat.to_uint n).

(** An error of the program proper: not the model's own, and no wrapper
    around it. *)
Definition genuine (e : Error) : bool :=
  match e with
  | ModelFuelExhausted | UnsupportedExpression _ _ ModelFuelExhausted => false
  | _ => true
  end.

(** ** The own properties of a document object, in enumeration order *)

(** The array index that a property key denotes, if any: a canonical decimal
    numeral below [2^32 - 1]. *)
Definition arrayIndexOf (key : string) : option Z :=
  if JsString.isDigits key
     && (String.eqb key "0" || negb (JsString.startsWith "0" key))
  then
    let n := JsString.parseDigitsFrom 0 key in
    if n <=? 4294967294 then Some n else None
  else None.

Fixpoint insertIndexed (entry : Z * (string * Json))
    (sorted : list (Z * (string * Json))) : list (Z * (string * Json)) :=
  match sorted with
  | [] => [entry]
  | h :: t => if fst entry <=? fst h then entry :: sorted
              else h :: insertIndexed entry t
  end.

(** The properties whose key has not occurred before. *)
Fixpoint firstOccurrences (seen : list string) (props : list (string * Json))
  : list (string * Json) :=
  match props with
  | [] => []
  | (k, v) :: rest =>
      if existsb (String.eqb k) seen then firstOccurrences seen rest
      else (k, v) :: firstOccurrences (k :: seen) rest
  end.

(** [Object.entries(obj)]: the array indices in ascending order, then the
    other keys in the order of their creation. *)
Definition objectEntries (props : list (string * Json)) : list (string * Json) :=
  let unique := firstOccurrences [] props in
  let indexed :=
    List.fold_right
      (fun entry sorted =>
         match arrayIndexOf (fst entry) with
         | Some i => insertIndexed (i, entry) sorted
         | None => sorted
         end) [] unique in
  List.map snd indexed
  ++ List.filter (fun entry => match arrayIndexOf (fst entry) with
                               | Some _ => false
                               | None => true
                               end) unique.

Section Interpreter.

(** [String(n)] for a number [n]: the host's number formatting. *)
Variable numberToString : JsNumber -> string.

(** The module-level [supportedBlockTypes] set, as the list of its members in
    insertion order.  It is only replaced between two expansions. *)
Variable supportedBlockTypes : list string.

(** [String(value)] for a value of the document.  An array is joined, and
    its [null] elements give the empty string; an object gives
    ["[object Object]"] through the inherited [toString], unless an own
    property [toString] hides it: that one is no function, nor is what
    [valueOf] returns a primitive, and the conversion throws a
    [TypeError]. *)
Fixpoint jsString (value : Json) : Result Error string :=
  match value with
  | JNull => Ok "null"
  | JBool b => Ok (if b then "true" else "false")
  | JNum n => Ok (numberToString n)
  | JStr s => Ok s
  | JArr items =>
      let elements :=
        fix elements (items : list Json) : Result Error (list string) :=
          match items with
          | [] => Ok []
          | item :: rest =>
              let* s := match item with
                        | JNull => Ok ""
                        | _ => jsString item
                        end in
              let* others := elements rest in
              Ok (s :: others)
          end in
      let* pieces := elements items in
      Ok (JsString.join "," pieces)
  | JObj props =>
      match getProp "toString" props with
      | Some _ => Err CannotConvertObjectToPrimitive
      | None => Ok "[object Object]"
      end
  end.

(** [String(value ?? fallback)]. *)
Definition stringOr (value : option Json) (fallback : string) : Result Error string :=
  jsString (nullish value (JStr fallback)).

(** [supportedBlockTypes.has(id)]. *)
Definition catalogHas (id : string) : bool :=
  existsb (String.eqb id) supportedBlockTypes.

Definition pickFallbackBlockType : string :=
  if catalogHas DEFAULT_BLOCK_TYPE then DEFAULT_BLOCK_TYPE
  else match supportedBlockTypes with
       | first :: _ => first
       | [] => DEFAULT_BLOCK_TYPE
       end.

(** What [resolveScopedValue] returns: its argument, or a value of the
    scope. *)
Inductive Resolved : Type :=
| Unresolved (raw : option Json)
| Scoped (value : ScopeValue).

Definition resolveScopedValue (raw : option Json) (scope : Scope) : Resolved :=
  match raw with
  | Some (JStr s) =>
      let key := JsString.trim s in
      if JsString.isIdentifier key then
        match scopeGet scope key with
        | None => Unresolved raw
        | Some scoped => Scoped scoped
        end
      else Unresolved raw
  | _ => Unresolved raw
  end.

(** [String(resolved ?? DEFAULT_BLOCK_TYPE)]. *)
Definition stringOfResolved (resolved : Resolved) : Result Error string :=
  match resolved with
  | Unresolved raw => stringOr raw DEFAULT_BLOCK_TYPE
  | Scoped value => Ok (textOfValue numberToString value)
  end.

(** What [normalizeBlockType] does to the text of the resolved value before
    it looks it up in the catalog. *)
Definition canonicalOfText (text : string) : string :=
  let blockType := JsString.toLowerCase (JsString.trim text) in
  let blockType := if String.eqb blockType "" then DEFAULT_BLOCK_TYPE else blockType in
  let blockType := JsString.replaceHyphens (JsString.replaceWhitespaceRuns blockType) in
  if JsString.startsWith "minecraft:" blockType then blockType
  else ("minecraft:" ++ blockType)%string.

(** The identifier [normalizeBlockType] looks up in the catalog. *)
Definition canonicalBlockType (raw : option Json) (scope : Scope)
  : Result Error string :=
  let* text := stringOfResolved (resolveScopedValue raw scope) in
  Ok (canonicalOfText text).

Definition normalizeBlockType (raw : option Json) (scope : Scope)
  : Result Error string :=
  let* blockType := canonicalBlockType raw scope in
  Ok (if negb (catalogHas blockType) then pickFallbackBlockType else blockType).

Definition evalCallArgValue (raw : option Json) (scope : Scope) (field : string)
  : Result Error ScopeValue :=
  match raw with
  | Some (JNum n) =>
      match truncFinite n with
      | Some z => Ok (int z)
      | None => Err (MustBeNumberOrString field)
      end
  | Some (JStr s) =>
      let text := JsString.trim s in
      if String.eqb text "" then Err (ArgCannotBeEmpty field)
      else
        match (if JsString.isIdentifier text then scopeGet scope text else None) with
        | Some bound => Ok bound
        | None =>
            match evaluateIntegerExpression numberToString text scope field with
            | Ok value => Ok value
            | Err _ => Ok (SStr text)
            end
        end
  | _ => Err (MustBeNumberOrString field)
  end.

Definition evalIntExpr (raw : option Json) (scope : Scope) (field : string)
  : Result Error ScopeValue :=
  match raw with
  | Some (JNum n) =>
      match truncFinite n with
      | Some z => Ok (int z)
      | None => Err (MustBeNumberOrExpression field)
      end
  | Some (JStr s) =>
      let expr := JsString.trim s in
      if String.eqb expr "" then Err (ExpressionIsEmpty field)
      else
        match evaluateIntegerExpression numberToString expr scope field with
        | Ok value => Ok value
        | Err cause => Err (UnsupportedExpression expr field cause)
        end
  | _ => Err (MustBeNumberOrExpression field)
  end.

Definition normalizeCompactBlock (step : list (string * Json)) (scope : Scope)
  : Result Error Block.t :=
  let* x := evalIntExpr (getProp "x" step) scope "place.x" in
  let* y := evalIntExpr (getProp "y" step) scope "place.y" in
  let* z := evalIntExpr (getProp "z" step) scope "place.z" in
  let* blockType := normalizeBlockType (getProp "blockType" step) scope in
  Ok (Block.make x y z blockType).

(** [rawBlocks.map((raw, idx) => ...)], from index [idx] on. *)
Fixpoint normalizeLegacyBlocksFrom (idx : nat) (rawBlocks : list Json)
  : Result Error (list Block.t) :=
  match rawBlocks with
  | [] => Ok []
  | raw :: rest =>
      match raw with
      | JObj props =>
          let field := fun (c : string) =>
            ("blocks[" ++ decimal idx ++ "]." ++ c)%string in
          let* x := evalIntExpr (getProp "x" props) ∅ (field "x") in
          let* y := evalIntExpr (getProp "y" props) ∅ (field "y") in
          let* z := evalIntExpr (getProp "z" props) ∅ (field "z") in
          let* blockType := normalizeBlockType (getProp "blockType" props) ∅ in
          let* blocks := normalizeLegacyBlocksFrom (S idx) rest in
          Ok (Block.make x y z blockType :: blocks)
      | _ => Err (LegacyBlockMustBeObject idx)
      end
  end.

Definition normalizeLegacyBlocks (rawBlocks : list Json) : Result Error (list Block.t) :=
  normalizeLegacyBlocksFrom 0 rawBlocks.

(** *** The step interpreter *)

Definition throw (st : ExecState) (e : Error) : ExecState * Completion :=
  (st, Thrown e).

Definition pushBlock (st : ExecState) (b : Block.t) : ExecState :=
  {| out := out st ++ [b]; budget := budget st |}.

Definition countStep (st : ExecState) : ExecState :=
  {| out := out st;
     budget := {| executedSteps := executedSteps (budget st) + 1;
                  calls := calls (budget st) |} |}.

Definition countCall (st : ExecState) : ExecState :=
  {| out := out st;
     budget := {| executedSteps := executedSteps (budget st);
                  calls := calls (budget st) + 1 |} |}.

Definition Defs : Type := gmap string (list (string * Json)).

(** [a <= b] and [a >= b] for two values the evaluator has returned: the
    order of the numbers (false with a [NaN], and when only one operand is a
    number, as the other converts to [NaN]), else the order of the texts by
    code units. *)
Definition jsLessEq (a b : ScopeValue) : bool :=
  match a, b with
  | SNum x, SNum y => JsNum.leb x y
  | SNum _, _ | _, SNum _ => false
  | _, _ => negb (String.ltb (textOfValue numberToString b)
                             (textOfValue numberToString a))
  end.

Definition jsGreaterEq (a b : ScopeValue) : bool :=
  match a, b with
  | SNum x, SNum y => JsNum.leb y x
  | SNum _, _ | _, SNum _ => false
  | _, _ => negb (String.ltb (textOfValue numberToString a)
                             (textOfValue numberToString b))
  end.

(** [stride > 0]. *)
Definition isPositive (v : ScopeValue) : bool :=
  match v with
  | SNum n => JsNum.ltb (Int 0) n
  | _ => false
  end.

(** The object [args] of [executeCallStep]: its own properties and its
    prototype, which is [Object.prototype] ([None]) until an assignment to
    [__proto__] installs an inherited function. *)
Record ArgsObject : Type :=
  { argsOwn : Scope; argsProto : option ProtoMember }.

Definition emptyArgs : ArgsObject := {| argsOwn := ∅; argsProto := None |}.

(** A property that [args] inherits and cannot assign to: the read-only
    [length] and [name] of a function ([prototype] too, of the function
    [Object]) and the accessors [arguments] and [caller], whose setter
    throws. *)
Definition inheritsReadOnly (proto : option ProtoMember) (key : string) : bool :=
  match proto with
  | None => false
  | Some m =>
      String.eqb key "length" || String.eqb key "name"
      || String.eqb key "arguments" || String.eqb key "caller"
      || match m with
         | PConstructor => String.eqb key "prototype"
         | _ => false
         end
  end.

(** [args[key] = value] (in strict code).  The key [__proto__] reaches the
    inherited setter, which creates no property and replaces the prototype
    when the value is an object. *)
Definition assignArg (key : string) (value : ScopeValue) (args : ArgsObject)
  : Result Error ArgsObject :=
  if String.eqb key "__proto__" then
    Ok match value with
       | SObj PProto => {| argsOwn := argsOwn args; argsProto := None |}
       | SObj m => {| argsOwn := argsOwn args; argsProto := Some m |}
       | _ => args
       end
  else if match argsOwn args !! key with
          | Some _ => false
          | None => inheritsReadOnly (argsProto args) key
          end
  then Err (CannotAssignToProperty key)
  else Ok {| argsOwn := <[key := value]> (argsOwn args);
             argsProto := argsProto args |}.

Section Steps.

(** The recursive call [executeSteps(steps, scope, defs, out, budget, depth)]
    that [executeForStep] and [executeCallStep] make. *)
Variable executeStepsRec :
  list Json -> Scope -> Defs -> ExecState -> Z -> ExecState * Completion.

(** One of the two [for (let i = from; ...; i += stride)] loops of
    [executeForStep], entered at [i]; [inRange] is its test ([i <= to] or
    [i >= to]).  [turns] bounds the number of times the test is evaluated. *)
Fixpoint forLoop (turns : nat) (inRange : ScopeValue -> bool) (stride : ScopeValue)
    (body : list Json) (varName : string) (scope : Scope) (defs : Defs)
    (callDepth : Z) (i : ScopeValue) (st : ExecState) : ExecState * Completion :=
  match turns with
  | O => throw st ModelFuelExhausted
  | S turns' =>
      if inRange i then
        match executeStepsRec body (<[varName := i]> scope) defs st
                (callDepth + 1) with
        | (st', Normal) =>
            if outIsFull st' then (st', Normal)
            else forLoop turns' inRange stride body varName scope defs
                   callDepth (jsAdd numberToString i stride) st'
        | thrown => thrown
        end
      else (st, Normal)
  end.

(** The turns the model grants a loop.  A loop whose body has a step counts
    an executed step in every turn that does not end it, so that it ends
    within [MAX_EXECUTED_STEPS + 1] turns.  A loop without steps whose
    counter and bound are integers ends within [|to - from| + 1] turns, or
    its counter stops advancing and it never ends; with a bound or counter
    that is infinite or [NaN] the test is the same from the second turn on;
    and when both are texts the counter grows by at least one code unit in
    every turn, so that the test is the same once it is longer than the
    bound. *)
Definition forTurns (from to : ScopeValue) : nat :=
  match from, to with
  | SNum (Int a), SNum (Int b) =>
      S (S (Z.to_nat (Z.max (Z.abs (b - a)) MAX_EXECUTED_STEPS)))
  | SNum _, _ | _, SNum _ => S (S (Z.to_nat MAX_EXECUTED_STEPS))
  | _, _ =>
      S (S (Nat.max (String.length (textOfValue numberToString to))
                    (Z.to_nat MAX_EXECUTED_STEPS)))
  end.

Definition executeForStep (step : list (string * Json)) (scope : Scope)
    (defs : Defs) (st : ExecState) (callDepth : Z) : ExecState * Completion :=
  match stringOr (getProp "var" step) "" with
  | Err e => throw st e
  | Ok text =>
  let varName := JsString.trim text in
  if String.eqb varName "" then throw st ForMissingVar
  else
    match evalIntExpr (getProp "from" step) scope "for.from" with
    | Err e => throw st e
    | Ok from =>
    match evalIntExpr (getProp "to" step) scope "for.to" with
    | Err e => throw st e
    | Ok to =>
    match (match getProp "step" step with
           | None => Ok (int 1)
           | raw => evalIntExpr raw scope "for.step"
           end) with
    | Err e => throw st e
    | Ok stride =>
        if isZero stride then throw st ForStepCannotBeZero
        else
          match getProp "steps" step with
          | Some (JArr body) =>
              if isPositive stride then
                forLoop (forTurns from to) (fun i => jsLessEq i to) stride body
                  varName scope defs callDepth from st
              else
                forLoop (forTurns from to) (fun i => jsGreaterEq i to) stride body
                  varName scope defs callDepth from st
          | _ => throw st ForMissingSteps
          end
    end end end end.

(** The loop over [def.params] of [executeCallStep].  [key in rawArgs] also
    holds of a key that [rawArgs] inherits; [rawArgs[key]] is then a function
    or an object, which [evalCallArgValue] rejects. *)
Fixpoint bindParams (params : list Json) (rawArgs : list (string * Json))
    (scope : Scope) (name : string) (args : ArgsObject) : Result Error ArgsObject :=
  match params with
  | [] => Ok args
  | param :: rest =>
      let* text := stringOr (Some param) "" in
      let key := JsString.trim text in
      if String.eqb key "" then bindParams rest rawArgs scope name args
      else
        let field := ("call." ++ name ++ ".args." ++ key)%string in
        match getProp key rawArgs with
        | None =>
            match inheritedMember key with
            | None => Err (MissingArg key name)
            | Some _ => Err (MustBeNumberOrString field)
            end
        | Some raw =>
            let* value := evalCallArgValue (Some raw) scope field in
            let* args' := assignArg key value args in
            bindParams rest rawArgs scope name args'
        end
  end.

(** The loop over [Object.entries(rawArgs)] of [executeCallStep]. *)
Fixpoint bindEntries (entries : list (string * Json)) (scope : Scope)
    (name : string) (args : ArgsObject) : Result Error ArgsObject :=
  match entries with
  | [] => Ok args
  | (key, value) :: rest =>
      let* value' :=
        evalCallArgValue (Some value) scope
          ("call." ++ name ++ ".args." ++ key)%string in
      let* args' := assignArg key value' args in
      bindEntries rest scope name args'
  end.

Definition executeCallStep (step : list (string * Json)) (scope : Scope)
    (defs : Defs) (st : ExecState) (callDepth : Z) : ExecState * Completion :=
  let st := countCall st in
  if MAX_CALLS <? calls (budget st) then throw st ExceededMaxCalls
  else
    match stringOr (getProp "name" step) "" with
    | Err e => throw st e
    | Ok text =>
    let name := JsString.trim text in
    if String.eqb name "" then throw st CallMissingName
    else
      match defs !! name with
      | None => throw st (UndefinedFunction name)
      | Some def =>
          match getProp "steps" def with
          | Some (JArr defSteps) =>
              let rawArgs :=
                match getProp "args" step with
                | Some (JObj props) => props
                | _ => []
                end in
              match (match getProp "params" def with
                     | Some (JArr params) =>
                         bindParams params rawArgs scope name emptyArgs
                     | _ => bindEntries (objectEntries rawArgs) scope name emptyArgs
                     end) with
              | Err e => throw st e
              | Ok args =>
                  executeStepsRec defSteps (argsOwn args ∪ scope) defs st
                    (callDepth + 1)
              end
          | _ => throw st (FunctionHasInvalidSteps name)
          end
      end
    end.

(** The body of the loop of [executeSteps], after the step has been
    counted. *)
Definition executeStep (rawStep : Json) (scope : Scope) (defs : Defs)
    (st : ExecState) (callDepth : Z) : ExecState * Completion :=
  match rawStep with
  | JObj step =>
      match stringOr (getProp "op" step) "" with
      | Err e => throw st e
      | Ok text =>
          let op := JsString.toLowerCase text in
          if String.eqb op "place" || String.eqb op "block" then
            match normalizeCompactBlock step scope with
            | Ok block => (pushBlock st block, Normal)
            | Err e => throw st e
            end
          else if String.eqb op "for" then
            executeForStep step scope defs st callDepth
          else if String.eqb op "call" then
            executeCallStep step scope defs st callDepth
          else throw st (UnsupportedCompactOp op)
      end
  | _ => throw st StepMustBeObject
  end.

(** The [for (const rawStep of steps)] loop of [executeSteps]. *)
Fixpoint stepsLoop (steps : list Json) (scope : Scope) (defs : Defs)
    (st : ExecState) (callDepth : Z) : ExecState * Completion :=
  match steps with
  | [] => (st, Normal)
  | rawStep :: rest =>
      if outIsFull st then (st, Normal)
      else
        let st := countStep st in
        if MAX_EXECUTED_STEPS <? executedSteps (budget st)
        then throw st ExceededMaxExecutedSteps
        else
          match executeStep rawStep scope defs st callDepth with
          | (st', Normal) => stepsLoop rest scope defs st' callDepth
          | thrown => thrown
          end
  end.

End Steps.

(** [executeSteps]; [fuel] bounds the nesting of recursive calls, which the
    call-depth check bounds by [MAX_CALL_DEPTH + 2]. *)
Fixpoint executeSteps (fuel : nat) (steps : list Json) (scope : Scope)
    (defs : Defs) (st : ExecState) (callDepth : Z) : ExecState * Completion :=
  match fuel with
  | O => throw st ModelFuelExhausted
  | S fuel' =>
      if MAX_CALL_DEPTH <? callDepth then throw st ExceededMaxCallDepth
      else stepsLoop (executeSteps fuel') steps scope defs st callDepth
  end.

Definition executeFuel : nat := Z.to_nat (MAX_CALL_DEPTH + 2).

(** The loop over [program.defs] of [expandCompactProgram]. *)
Fixpoint collectDefs (rawDefs : list Json) (defs : Defs) : Result Error Defs :=
  match rawDefs with
  | [] => Ok defs
  | JObj rawDef :: rest =>
      let* text := stringOr (getProp "name" rawDef) "" in
      let name := JsString.trim text in
      if String.eqb name "" then Err DefinitionMissingName
      else
        match getProp "steps" rawDef with
        | Some (JArr _) => collectDefs rest (<[name := rawDef]> defs)
        | _ => Err (DefinitionMissingSteps name)
        end
  | _ :: _ => Err DefinitionMustBeObject
  end.

Definition emptyState : ExecState :=
  {| out := []; budget := {| executedSteps := 0; calls := 0 |} |}.

(** What a call of [expandCompactProgram] does: it returns blocks, it throws,
    or (a loop does not end) it does not return. *)
Inductive Expansion : Type :=
| Expanded (blocks : list Block.t)
| Failed (err : Error)
| Unfinished.

Definition expandCompactProgram (program : list (string * Json)) : Expansion :=
  match (match getProp "defs" program with
         | Some (JArr rawDefs) => collectDefs rawDefs ∅
         | _ => Ok ∅
         end) with
  | Err e => Failed e
  | Ok defs =>
      match getProp "steps" program with
      | Some (JArr steps) =>
          match executeSteps executeFuel steps ∅ defs emptyState 0 with
          | (st, Normal) => Expanded (out st)
          | (_, Thrown e) => if genuine e then Failed e else Unfinished
          end
      | _ => Failed CompactMissingTopLevelSteps
      end
  end.

Definition isArrayProp (key : string) (props : list (string * Json)) : bool :=
  match getProp key props with
  | Some (JArr _) => true
  | _ => false
  end.

(** [parseBlocksFromResponse].  The [catch] receives what the expansion
    throws; when the expansion does not return, neither does the parse, which
    the model reports as [ModelFuelExhausted]. *)
Definition parseBlocksFromResponse (raw : Json) : Result Error (list Block.t) :=
  match raw with
  | JObj doc =>
      let hasCompactProgram := isArrayProp "steps" doc || isArrayProp "defs" doc in
      if hasCompactProgram then
        match expandCompactProgram doc with
        | Expanded blocks => Ok (sliceToMax blocks)
        | Failed err =>
            match getProp "blocks" doc with
            | Some (JArr rawBlocks) =>
                let* blocks := normalizeLegacyBlocks rawBlocks in
                Ok (sliceToMax blocks)
            | _ => Err err
            end
        | Unfinished => Err ModelFuelExhausted
        end
      else
        match getProp "blocks" doc with
        | Some (JArr rawBlocks) =>
            let* blocks := normalizeLegacyBlocks rawBlocks in
            Ok (sliceToMax blocks)
        | _ => Err ResponseMissingStepsDefsOrBlocks
        end
  | _ => Err ResponseMustBeObject
  end.

End Interpreter.

(** ** The grammar of the specification

    [expr := term (("+"|"-") term)*], [term := factor (("*"|"/") factor)*],
    [factor := ("+"|"-")? factor | number | identifier | "(" expr ")"],
    as derivation trees: the repetitions associate to the left. *)

Inductive AddOp : Type := Plus | Minus.
Inductive MulOp : Type := Times | Over.

Inductive GExpr : Type :=
| E_term (t : GTerm)
| E_add (l : GExpr) (op : AddOp) (r : GTerm)
with GTerm : Type :=
| T_factor (f : GFactor)
| T_mul (l : GTerm) (op : MulOp) (r : GFactor)
with GFactor : Type :=
| F_number (n : Num)
| F_ident (name : string)
| F_signed (sign : AddOp) (f : GFactor)
| F_paren (e : GExpr).

Definition addOperator (op : AddOp) : Operator :=
  match op with Plus => OpAdd | Minus => OpSub end.

Definition mulOperator (op : MulOp) : Operator :=
  match op with Times => OpMul | Over => OpDiv end.

(** The sentence (token sequence) a derivation tree derives. *)
Fixpoint flattenExpr (e : GExpr) : list ExprToken :=
  match e with
  | E_term t => flattenTerm t
  | E_add l op r => flattenExpr l ++ TOp (addOperator op) :: flattenTerm r
  end
with flattenTerm (t : GTerm) : list ExprToken :=
  match t with
  | T_factor f => flattenFactor f
  | T_mul l op r => flattenTerm l ++ TOp (mulOperator op) :: flattenFactor r
  end
with flattenFactor (f : GFactor) : list ExprToken :=
  match f with
  | F_number n => [TNumber n]
  | F_ident name => [TIdent name]
  | F_signed sign f' => TOp (addOperator sign) :: flattenFactor f'
  | F_paren e => TLParen :: flattenExpr e ++ [TRParen]
  end.

Section GrammarValue.

Variable numberToString : JsNumber -> string.
Variable scope : Scope.
Variable field : string.

(** The value of a derivation tree under the arithmetic of the program,
    operands left to right. *)
Fixpoint valueExpr (e : GExpr) : Result Error ScopeValue :=
  match e with
  | E_term t => valueTerm t
  | E_add l op r =>
      let* a := valueExpr l in
      let* b := valueTerm r in
      applyIntOp numberToString a (addOperator op) b field
  end
with valueTerm (t : GTerm) : Result Error ScopeValue :=
  match t with
  | T_factor f => valueFactor f
  | T_mul l op r =>
      let* a := valueTerm l in
      let* b := valueFactor r in
      applyIntOp numberToString a (mulOperator op) b field
  end
with valueFactor (f : GFactor) : Result Error ScopeValue :=
  match f with
  | F_number n => Ok (SNum n)
  | F_ident name => lookupVariable scope name
  | F_signed Plus f' => valueFactor f'
  | F_signed Minus f' =>
      let* v := valueFactor f' in Ok (SNum (JsNum.neg (toNumber v)))
  | F_paren e => valueExpr e
  end.

End GrammarValue.

(** *** Integer arithmetic, in the specification's words *)





Section IntegerValue.

Variable scope : Scope.


End IntegerValue.

Scheme GExpr_mut := Induction for GExpr Sort Prop
  with GTerm_mut := Induction for GTerm Sort Prop
  with GFactor_mut := Induction for GFactor Sort Prop.
Combined Scheme grammar_mutind from GExpr_mut, GTerm_mut, GFactor_mut.

(** The next token does not continue a term (resp. an expression). *)
Definition endsTerm (rest : list ExprToken) : bool :=
  match rest with
  | TOp op :: _ => negb (isMultiplicative op)
  | _ => true
  end.

Definition endsExpr (rest : list ExprToken) : bool :=
  match rest with
  | TOp _ :: _ => false
  | _ => true
  end.

Definition withRest {A} (r : Result Error ScopeValue) (rest : A)
  : Result Error (ScopeValue * A) :=
  let* v := r in Ok (v, rest).








Definition scopeXZ : Scope := <["x" := int 5]> (<["z" := int 1]> ∅).

(** ** Well-formed legacy entries *)

Section LegacyShape.

Variable numberToString : JsNumber -> string.
Variable supportedBlockTypes : list string.




End LegacyShape.


(** A text that holds the character [[], as the text of every inherited
    value does: such a text is no number. *)
Definition holdsBracket (s : string) : bool :=
  negb (JsString.forallb (fun c => negb (Ascii.eqb c "[")) s).

(** A value as the evaluator returns it: its strings are built from the
    text of an inherited value. *)
Definition evaluatorValue (v : ScopeValue) : Prop :=
  match v with
  | SStr s => holdsBracket s = true
  | _ => True
  end.

(** A value whose conversion to a string throws: an object with an own
    property [toString], or an array that holds such a value. *)
Fixpoint hidesToString (value : Json) : bool :=
  match value with
  | JObj props => existsb (fun prop => String.eqb (fst prop) "toString") props
  | JArr items => existsb hidesToString items
  | _ => false
  end.

(** A character that a canonical block type may hold: no whitespace, no
    hyphen, no capital letter. *)
Definition isCanonicalChar (c : ascii) : bool :=
  negb (JsString.isWhitespace c) && negb (JsString.code c =? 45)%N
  && negb (JsString.isUpper c).

(** An identifier in canonical form: it starts with [minecraft:] and holds no
    whitespace, hyphen or capital letter. *)
Definition isCanonicalId (id : string) : bool :=
  JsString.startsWith "minecraft:" id && JsString.forallb isCanonicalChar id.

(** ** Replacing the catalog *)

(** [normalized.add(id)] on a set kept in insertion order. *)
Definition setAdd (id : string) (set : list string) : list string :=
  if existsb (String.eqb id) set then set else set ++ [id].

Fixpoint insertInOrder (id : string) (sorted : list string) : list string :=
  match sorted with
  | [] => [id]
  | h :: t => if String.leb id h then id :: sorted else h :: insertInOrder id t
  end.

(** [ids.sort()]: by UTF-16 code units. *)
Definition sortStrings (ids : list string) : list string :=
  fold_right insertInOrder [] ids.

(** The loop of [normalizeBlockCatalog]. *)
Fixpoint normalizeCatalogIds (blockIds : list string) (normalized : list string)
  : list string :=
  match blockIds with
  | [] => normalized
  | rawId :: rest =>
      let id := JsString.toLowerCase (JsString.trim rawId) in
      if String.eqb id "" then normalizeCatalogIds rest normalized
      else
        let id := JsString.replaceHyphens (JsString.replaceWhitespaceRuns id) in
        let id := if JsString.startsWith "minecraft:" id then id
                  else ("minecraft:" ++ id)%string in
        normalizeCatalogIds rest (setAdd id normalized)
  end.

Definition normalizeBlockCatalog (blockIds : list string) : list string :=
  sortStrings (normalizeCatalogIds blockIds []).

(** [setSupportedBlockCatalog]: the new value of [supportedBlockTypes], given
    its current one. *)
Definition setSupportedBlockCatalog (blockIds current : list string) : list string :=
  match normalizeBlockCatalog blockIds with
  | [] => current
  | normalized => normalized
  end.

(** ** Example documents *)

(** A number formatter for closed examples: the decimal digits of the
    truncation of a finite number (exact on the integers the examples use). *)
Definition decimalNumberToString (n : JsNumber) : string :=
  match n with
  | Finite q =>
      let v := mathTrunc q in
      if v <? 0 then ("-" ++ decimal (Z.to_nat (- v)))%string
      else decimal (Z.to_nat v)
  | PosInfinity => "Infinity"
  | NegInfinity => "-Infinity"
  | NotANumber => "NaN"
  end.

Definition num (n : Z) : Json := JNum (Finite (inject_Z n)).

Definition placeStep (x y z blockType : Json) : Json :=
  JObj [("op", JStr "place"); ("x", x); ("y", y); ("z", z); ("blockType", blockType)].

Definition forStep (var : string) (from to : Json) (steps : list Json) : Json :=
  JObj [("op", JStr "for"); ("var", JStr var); ("from", from); ("to", to);
        ("steps", JArr steps)].

Definition legacyEntry (x y z blockType : Json) : Json :=
  JObj [("x", x); ("y", y); ("z", z); ("blockType", blockType)].

(** [{"blocks":[{"x":1,"y":"2+3","z":0,"blockType":"Oak Planks"},
                {"x":"-4/3","y":0,"z":2,"blockType":"unobtainium"}]}] *)
Definition legacyDocument : list (string * Json) :=
  [("blocks", JArr [legacyEntry (num 1) (JStr "2+3") (num 0) (JStr "Oak Planks");
                    legacyEntry (JStr "-4/3") (num 0) (num 2) (JStr "unobtainium")])].





(** A document whose compact program throws (unknown variable [q]) and that
    also carries a legacy [blocks] array. *)
Definition mixedDocument : list (string * Json) :=
  [("steps", JArr [placeStep (JStr "q") (num 0) (num 0) (JStr "minecraft:dirt")]);
   ("blocks", JArr [legacyEntry (num 7) (num 8) (num 9) (JStr "minecraft:dirt")])].

(** [levels] nested [for] steps, each with the single iteration [i = 0],
    around [inner]. *)
Fixpoint nestedFor (levels : nat) (inner : Json) : Json :=
  match levels with
  | O => inner
  | S levels' => forStep "i" (num 0) (num 0) [nestedFor levels' inner]
  end.

Definition stoneAtOrigin : Json :=
  placeStep (num 0) (num 0) (num 0) (JStr "minecraft:stone").

Definition deepDocument (levels : nat) : list (string * Json) :=
  [("steps", JArr [nestedFor levels stoneAtOrigin])].

(** [{"defs":[{"name":"f","steps":[{"op":"call","name":"f"}]}],
      "steps":[{"op":"call","name":"f"}]}] *)
Definition recursiveDocument : list (string * Json) :=
  [("defs", JArr [JObj [("name", JStr "f");
                        ("steps", JArr [JObj [("op", JStr "call"); ("name", JStr "f")]])]]);
   ("steps", JArr [JObj [("op", JStr "call"); ("name", JStr "f")]])].

(** [{"steps":[{"op":"for","var":"i","from":0,"to":4,
               "steps":[{"op":"place","x":"i","y":0,"z":0,"blockType":"minecraft:stone"}]}]}] *)
Definition loopDocument (from to : Z) : list (string * Json) :=
  [("steps", JArr [forStep "i" (num from) (num to)
                     [placeStep (JStr "i") (num 0) (num 0) (JStr "minecraft:stone")]])].

(** The block at the integer coordinates [x], [y], [z]. *)
Definition blockAt (x y z : Z) (blockType : string) : Block.t :=
  Block.make (int x) (int y) (int z) blockType.

(** ** The iteration of a [for] step, in the specification's words *)

(** The values [from, from + stride, from + 2 stride, ...] up to [to]
    (ascending, [<= to]) for a positive stride, down to [to] (descending,
    [>= to]) for a negative one. *)
Definition iterationCount (from to stride : Z) : nat :=
  if 0 <? stride then Z.to_nat ((to - from) / stride + 1)
  else if stride <? 0 then Z.to_nat ((from - to) / (- stride) + 1)
  else O.

Definition iterationValues (from to stride : Z) : list Z :=
  List.map (fun k => from + Z.of_nat k * stride)
    (List.seq 0 (iterationCount from to stride)).

(** Bounds and stride of a loop whose counter stays within the exact range
    up to the first value past [to]. *)
Definition exactLoop (from to stride : Z) : Prop :=
  Z.abs from <= JsNum.MAX_EXACT /\ Z.abs to + Z.abs stride <= JsNum.MAX_EXACT.

Section Iterations.

Variable executeStepsRec :
  list Json -> Scope -> Defs -> ExecState -> Z -> ExecState * Completion.

(** The body is run once for each value, in order, in the scope of the
    [for] step extended with the loop variable, one level deeper; the run
    ends early when an iteration throws or leaves the output full. *)
Fixpoint runIterations (values : list Z) (body : list Json) (varName : string)
    (scope : Scope) (defs : Defs) (callDepth : Z) (st : ExecState)
  : ExecState * Completion :=
  match values with
  | [] => (st, Normal)
  | i :: rest =>
      match executeStepsRec body (<[varName := int i]> scope) defs st
              (callDepth + 1) with
      | (st', Normal) =>
          if outIsFull st' then (st', Normal)
          else runIterations rest body varName scope defs callDepth st'
      | thrown => thrown
      end
  end.

End Iterations.

(** The errors of the three execution ceilings. *)
Definition isCeilingError (e : Error) : bool :=
  match e with
  | ExceededMaxCallDepth | ExceededMaxExecutedSteps | ExceededMaxCalls => true
  | _ => false
  end.

(** The test [op === "call"] of [executeSteps], reached after the tests for
    [place], [block] and [for]. *)
Definition isCallStep (numberToString : JsNumber -> string) (rawStep : Json) : bool :=
  match rawStep with
  | JObj step =>
      match stringOr numberToString (getProp "op" step) "" with
      | Ok text => String.eqb (JsString.toLowerCase text) "call"
      | Err _ => false
      end
  | _ => false
  end.

(** ** The budget invariant *)

(** What a run from state [st] with outcome [r] does to the two counters:
    neither decreases; a counter that was within its ceiling ends at most at
    the ceiling unless the run threw that ceiling's error, in which case it
    ends exactly one above it. *)
Definition BudgetInv (st : ExecState) (r : ExecState * Completion) : Prop :=
  let before := budget st in
  let after := budget (fst r) in
  executedSteps before <= executedSteps after
  /\ calls before <= calls after
  /\ (executedSteps before <= MAX_EXECUTED_STEPS ->
      (snd r = Thrown ExceededMaxExecutedSteps ->
       executedSteps after = MAX_EXECUTED_STEPS + 1)
      /\ (snd r <> Thrown ExceededMaxExecutedSteps ->
          executedSteps after <= MAX_EXECUTED_STEPS))
  /\ (calls before <= MAX_CALLS ->
      (snd r = Thrown ExceededMaxCalls -> calls after = MAX_CALLS + 1)
      /\ (snd r <> Thrown ExceededMaxCalls -> calls after <= MAX_CALLS)).

Definition callStep (name : string) : Json :=
  JObj [("op", JStr "call"); ("name", JStr name)].

(** [{"op":"for","var":var,"from":from,"to":to,"step":stride,"steps":steps}] *)
Definition forStepBy (var : string) (from to stride : Json) (steps : list Json) : Json :=
  JObj [("op", JStr "for"); ("var", JStr var); ("from", from); ("to", to);
        ("step", stride); ("steps", JArr steps)].

Definition placeAtX (x : Json) : Json :=
  placeStep x (num 0) (num 0) (JStr "minecraft:stone").

Definition stoneAt (x : Z) : Block.t := blockAt x 0 0 "minecraft:stone".

(** An empty loop: [for (j = 1; j <= 0; ...)]. *)
Definition emptyFor : Json := forStep "j" (num 1) (num 0) [].

(** A loop of [n] iterations, each executing one step that places nothing. *)
Definition stepsDocument (n : Z) : list (string * Json) :=
  [("steps", JArr [forStep "i" (num 1) (num n) [emptyFor]])].

(** A loop of [n] iterations, each calling the empty definition [f]. *)
Definition callsDocument (n : Z) : list (string * Json) :=
  [("defs", JArr [JObj [("name", JStr "f"); ("steps", JArr [])]]);
   ("steps", JArr [forStep "i" (num 1) (num n) [callStep "f"]])].

(** The program [for i from 1 to 3 { place x: "i"; call f }; place x: 9],
    where [f] places two blocks. *)
Definition countedSteps : list Json :=
  [forStep "i" (num 1) (num 3) [placeAtX (JStr "i"); callStep "f"];
   placeAtX (num 9)].

Definition countedDefs : Defs :=
  <["f" := [("name", JStr "f");
            ("steps", JArr [placeAtX (num 7); placeAtX (num 8)])]]> ∅.

(** The run of the program [for i from 1 to 10000 { place x: "i" }; call f],
    without definitions. *)
Definition fullOutputRun : ExecState * Completion :=
  executeSteps decimalNumberToString DEFAULT_ALLOWED_BLOCK_TYPES executeFuel
    [forStep "i" (num 1) (num 10000) [placeAtX (JStr "i")]; callStep "f"]
    ∅ ∅ emptyState 0.

(** ** Statements about the parser

    The properties of the five parsing functions that are proved together,
    by induction on the fuel or on the derivation tree. *)

(** The model ran out of fuel. *)
Definition exhausted {A} (r : Result Error A) : Prop := r = Err ModelFuelExhausted.

(** A parsing function, seen as a function of its fuel, yields [r]: from some
    amount of fuel on, [r] is its result. *)
Definition Yields {A} (p : nat -> Result Error A) (r : Result Error A) : Prop :=
  ~ exhausted r /\ exists fuel0, forall fuel, (fuel0 <= fuel)%nat -> p fuel = r.

Section ParserStatements.

Variable numberToString : JsNumber -> string.
Variable scope : Scope.
Variable field : string.


(** Soundness: what is parsed is a sentence, with its value. *)
Definition SoundExpr (fuel : nat) : Prop :=
  forall ts v rest,
    parseExpression numberToString scope field fuel ts = Ok (v, rest) ->
    exists e, ts = flattenExpr e ++ rest /\ valueExpr numberToString scope field e = Ok v.

Definition SoundExprLoop (fuel : nat) : Prop :=
  forall acc ts v rest,
    parseExpressionLoop numberToString scope field fuel acc ts = Ok (v, rest) ->
    forall e0, valueExpr numberToString scope field e0 = Ok acc ->
    exists e, flattenExpr e0 ++ ts = flattenExpr e ++ rest
              /\ valueExpr numberToString scope field e = Ok v.

Definition SoundTerm (fuel : nat) : Prop :=
  forall ts v rest,
    parseTerm numberToString scope field fuel ts = Ok (v, rest) ->
    exists t, ts = flattenTerm t ++ rest /\ valueTerm numberToString scope field t = Ok v.

Definition SoundTermLoop (fuel : nat) : Prop :=
  forall acc ts v rest,
    parseTermLoop numberToString scope field fuel acc ts = Ok (v, rest) ->
    forall t0, valueTerm numberToString scope field t0 = Ok acc ->
    exists t, flattenTerm t0 ++ ts = flattenTerm t ++ rest
              /\ valueTerm numberToString scope field t = Ok v.

Definition SoundFactor (fuel : nat) : Prop :=
  forall ts v rest,
    parseFactor numberToString scope field fuel ts = Ok (v, rest) ->
    exists f, ts = flattenFactor f ++ rest /\ valueFactor numberToString scope field f = Ok v.

(** Parsing consumes tokens. *)
Definition ShorterAll (fuel : nat) : Prop :=
  (forall ts v rest, parseExpression numberToString scope field fuel ts = Ok (v, rest) ->
                     (List.length rest < List.length ts)%nat)
  /\ (forall acc ts v rest, parseExpressionLoop numberToString scope field fuel acc ts = Ok (v, rest) ->
                     (List.length rest <= List.length ts)%nat)
  /\ (forall ts v rest, parseTerm numberToString scope field fuel ts = Ok (v, rest) ->
                     (List.length rest < List.length ts)%nat)
  /\ (forall acc ts v rest, parseTermLoop numberToString scope field fuel acc ts = Ok (v, rest) ->
                     (List.length rest <= List.length ts)%nat)
  /\ (forall ts v rest, parseFactor numberToString scope field fuel ts = Ok (v, rest) ->
                     (List.length rest < List.length ts)%nat).

(** Fuel proportional to the number of tokens is enough. *)
Definition EnoughAll (fuel : nat) : Prop :=
  (forall ts, (3 * List.length ts + 3 <= fuel)%nat ->
              ~ exhausted (parseExpression numberToString scope field fuel ts))
  /\ (forall acc ts, (3 * List.length ts + 2 <= fuel)%nat ->
              ~ exhausted (parseExpressionLoop numberToString scope field fuel acc ts))
  /\ (forall ts, (3 * List.length ts + 2 <= fuel)%nat ->
              ~ exhausted (parseTerm numberToString scope field fuel ts))
  /\ (forall acc ts, (3 * List.length ts + 1 <= fuel)%nat ->
              ~ exhausted (parseTermLoop numberToString scope field fuel acc ts))
  /\ (forall ts, (3 * List.length ts + 1 <= fuel)%nat ->
              ~ exhausted (parseFactor numberToString scope field fuel ts)).

(** One more unit of fuel does not change a result. *)
Definition MonoAll (fuel : nat) : Prop :=
  (forall ts, ~ exhausted (parseExpression numberToString scope field fuel ts) ->
     parseExpression numberToString scope field (S fuel) ts = parseExpression numberToString scope field fuel ts)
  /\ (forall acc ts, ~ exhausted (parseExpressionLoop numberToString scope field fuel acc ts) ->
     parseExpressionLoop numberToString scope field (S fuel) acc ts = parseExpressionLoop numberToString scope field fuel acc ts)
  /\ (forall ts, ~ exhausted (parseTerm numberToString scope field fuel ts) ->
     parseTerm numberToString scope field (S fuel) ts = parseTerm numberToString scope field fuel ts)
  /\ (forall acc ts, ~ exhausted (parseTermLoop numberToString scope field fuel acc ts) ->
     parseTermLoop numberToString scope field (S fuel) acc ts = parseTermLoop numberToString scope field fuel acc ts)
  /\ (forall ts, ~ exhausted (parseFactor numberToString scope field fuel ts) ->
     parseFactor numberToString scope field (S fuel) ts = parseFactor numberToString scope field fuel ts).

(** Completeness: a sentence is parsed, to the value of its tree. *)
Definition CompleteExpr (e : GExpr) : Prop :=
  forall rest res,
    endsTerm rest = true ->
    match valueExpr numberToString scope field e with
    | Ok v => Yields (fun fuel => parseExpressionLoop numberToString scope field fuel v rest) res
    | Err err => res = Err err
    end ->
    Yields (fun fuel => parseExpression numberToString scope field fuel (flattenExpr e ++ rest)) res.

Definition CompleteTerm (t : GTerm) : Prop :=
  forall rest res,
    match valueTerm numberToString scope field t with
    | Ok v => Yields (fun fuel => parseTermLoop numberToString scope field fuel v rest) res
    | Err err => res = Err err
    end ->
    Yields (fun fuel => parseTerm numberToString scope field fuel (flattenTerm t ++ rest)) res.

Definition CompleteFactor (f : GFactor) : Prop :=
  forall rest,
    Yields (fun fuel => parseFactor numberToString scope field fuel (flattenFactor f ++ rest))
           (withRest (valueFactor numberToString scope field f) rest).

End ParserStatements.

From Stdlib Require DecimalNat Sorted.

(** ** Further statements about the evaluator *)

(** Two scopes agree on the variables a token list names. *)
Definition scopesAgreeOn (scope1 scope2 : Scope) (tokens : list ExprToken) : Prop :=
  forall name, In (TIdent name) tokens -> scope1 !! name = scope2 !! name.

(** ** Programs of [place] steps *)

Section PlacePrograms.

Variable numberToString : JsNumber -> string.
Variable supportedBlockTypes : list string.

(** The test [op === "place" || op === "block"] of [executeSteps]. *)
Definition isPlaceStep (step : list (string * Json)) : bool :=
  match stringOr numberToString (getProp "op" step) "" with
  | Ok text =>
      let op := JsString.toLowerCase text in
      String.eqb op "place" || String.eqb op "block"
  | Err _ => false
  end.

(** [step] is a [place] step that yields [block] in [scope]. *)
Definition placesBlock (scope : Scope) (step : Json) (block : Block.t) : Prop :=
  exists props,
    step = JObj props /\ isPlaceStep props = true
    /\ normalizeCompactBlock numberToString supportedBlockTypes props scope = Ok block.

End PlacePrograms.

(** The [place] step with the fields of a legacy entry. *)
Definition placeOfLegacyEntry (raw : Json) : Json :=
  match raw with
  | JObj props => JObj (("op", JStr "place") :: props)
  | other => other
  end.

(** ** The definition table *)

Section DefinitionTable.

Variable numberToString : JsNumber -> string.

(** [String(rawDef.name ?? "").trim()]. *)
Definition definitionName (rawDef : list (string * Json)) : Result Error string :=
  let* text := stringOr numberToString (getProp "name" rawDef) "" in
  Ok (JsString.trim text).

(** The last entry of [program.defs] whose name is [name]. *)
Fixpoint lastDefinition (name : string) (rawDefs : list Json)
  : option (list (string * Json)) :=
  match rawDefs with
  | [] => None
  | rawDef :: rest =>
      match lastDefinition name rest with
      | Some def => Some def
      | None =>
          match rawDef with
          | JObj props =>
              match definitionName props with
              | Ok found => if String.eqb found name then Some props else None
              | Err _ => None
              end
          | _ => None
          end
      end
  end.

End DefinitionTable.

(** ** The catalog *)

(** What one iteration of the loop of [normalizeBlockCatalog] adds to the
    set: nothing for a blank identifier. *)
Definition catalogIdOf (rawId : string) : option string :=
  let id := JsString.toLowerCase (JsString.trim rawId) in
  if String.eqb id "" then None
  else
    let id := JsString.replaceHyphens (JsString.replaceWhitespaceRuns id) in
    Some (if JsString.startsWith "minecraft:" id then id
          else ("minecraft:" ++ id)%string).

(** [selectPaletteForPrompt], given the value of [getPromptBlockTypeLimit()]
    and the current catalog (its members in insertion order). *)
Definition selectPaletteForPrompt (promptBlockTypeLimit : Z)
    (supportedBlockTypes : list string) : list string :=
  let preferred :=
    List.filter (catalogHas supportedBlockTypes) DEFAULT_ALLOWED_BLOCK_TYPES in
  let extra :=
    List.filter (fun id => negb (existsb (String.eqb id) preferred))
      supportedBlockTypes in
  let palette := preferred ++ extra in
  if promptBlockTypeLimit <=? 0 then palette
  else firstn (Z.to_nat promptBlockTypeLimit) palette.

(** * The session manager of [server/src/session.ts]

    [SessionManager] keeps one [PlayerSession] per player name.  A [Map] that
    is iterated ([manualBlocks]) is the list of its entries in insertion
    order, without repeated keys; the [sessions] map, whose order is never
    observed, is a finite map.  Every [Date.now()] is an argument: a method
    that reads the clock twice takes two readings.  Coordinates and
    timestamps are integers. *)

(** The decimal text of an integer, as a template literal writes it. *)
Definition integerToString (n : Z) : string :=
  if n <? 0 then ("-" ++ decimal (Z.to_nat (- n)))%string else decimal (Z.to_nat n).

Module JsMap.

Section Entries.

Context {V : Type}.

(** [map.get(key)]. *)
Fixpoint get (key : string) (entries : list (string * V)) : option V :=
  match entries with
  | [] => None
  | (k, v) :: rest => if String.eqb k key then Some v else get key rest
  end.

(** [map.set(key, value)]: a key that is present keeps its place. *)
Fixpoint set (key : string) (value : V) (entries : list (string * V))
  : list (string * V) :=
  match entries with
  | [] => [(key, value)]
  | (k, v) :: rest =>
      if String.eqb k key then (k, value) :: rest
      else (k, v) :: set key value rest
  end.

(** [map.delete(key)]. *)
Fixpoint delete (key : string) (entries : list (string * V)) : list (string * V) :=
  match entries with
  | [] => []
  | (k, v) :: rest =>
      if String.eqb k key then rest else (k, v) :: delete key rest
  end.

(** [map.size]. *)
Definition size (entries : list (string * V)) : Z := Z.of_nat (List.length entries).

(** No key occurs twice. *)
Definition wellFormed (entries : list (string * V)) : Prop :=
  List.NoDup (List.map fst entries).

End Entries.

End JsMap.

Module Session.

Inductive ManualAction : Type := Place | Break.

Record ManualBlockEntry : Type :=
  { action : ManualAction; blockType : string; timestamp : Z }.

Record PlayerPosition : Type := { x : Z; y : Z; z : Z; dimension : Z }.

Record BuildRecord : Type :=
  { prompt : string; blockCount : Z; buildTimestamp : Z }.

Section Manager.

(** The chat handle of the model API, which the manager only stores. *)
Variable Chat : Type.

Record PlayerSession : Type :=
  { chat : Chat;
    systemPrompt : string;
    origin : PlayerPosition;
    builds : list BuildRecord;
    manualBlocks : list (string * ManualBlockEntry);
    lastActivity : Z }.

Definition Sessions : Type := gmap string PlayerSession.

Definition DEFAULT_SESSION_TIMEOUT : Z := 30 * 60 * 1000.
Definition DEFAULT_MANUAL_BLOCK_LIMIT : Z := 200.

(** The two fields the constructor sets. *)
Variable sessionTimeout : Z.
Variable manualBlockLimit : Z.

(** [Date.now() - session.lastActivity > this.sessionTimeout]. *)
Definition expired (now : Z) (session : PlayerSession) : bool :=
  sessionTimeout <? now - lastActivity session.

Definition touch (now : Z) (session : PlayerSession) : PlayerSession :=
  {| chat := chat session; systemPrompt := systemPrompt session;
     origin := origin session; builds := builds session;
     manualBlocks := manualBlocks session; lastActivity := now |}.

(** [createSession]: the new state and the session returned. *)
Definition createSession (now : Z) (playerName : string) (position : PlayerPosition)
    (handle : Chat) (prompt : string) (sessions : Sessions)
  : Sessions * PlayerSession :=
  let session :=
    {| chat := handle; systemPrompt := prompt; origin := position; builds := [];
       manualBlocks := []; lastActivity := now |} in
  (<[playerName := session]> (base.delete playerName sessions), session).

(** [getSession]; [now] is read for the expiry test, [now'] for the new
    [lastActivity]. *)
Definition getSession (now now' : Z) (playerName : string) (sessions : Sessions)
  : Sessions * option PlayerSession :=
  match sessions !! playerName with
  | None => (sessions, None)
  | Some session =>
      if expired now session then (base.delete playerName sessions, None)
      else
        let session' := touch now' session in
        (<[playerName := session']> sessions, Some session')
  end.

Definition resetSession (playerName : string) (sessions : Sessions) : Sessions :=
  base.delete playerName sessions.

Definition clearAll (sessions : Sessions) : Sessions := ∅.

(** [cleanExpired]: every session that is expired at [now] is deleted. *)
Definition cleanExpired (now : Z) (sessions : Sessions) : Sessions :=
  filter (fun entry => expired now (snd entry) = false) sessions.

(** The loop of [recordManualBlock] that looks for the oldest entry:
    [best] is [oldestKey] with [oldestTs], or [None] while they are [null]
    and [Infinity]. *)
Fixpoint oldestEntry (entries : list (string * ManualBlockEntry))
    (best : option (string * Z)) : option (string * Z) :=
  match entries with
  | [] => best
  | (k, v) :: rest =>
      oldestEntry rest
        (match best with
         | None => Some (k, timestamp v)
         | Some (_, oldestTs) =>
             if timestamp v <? oldestTs then Some (k, timestamp v) else best
         end)
  end.

(** The eviction of [recordManualBlock]. *)
Definition evictOldest (entries : list (string * ManualBlockEntry))
  : list (string * ManualBlockEntry) :=
  if manualBlockLimit <? JsMap.size entries then
    match oldestEntry entries None with
    | Some (oldestKey, _) =>
        if String.eqb oldestKey "" then entries else JsMap.delete oldestKey entries
    | None => entries
    end
  else entries.

(** The key of a manual edit: its position relative to the origin. *)
Definition manualBlockKey (position : PlayerPosition) (worldX worldY worldZ : Z)
  : string :=
  (integerToString (worldX - x position) ++ ","
   ++ integerToString (worldY - y position) ++ ","
   ++ integerToString (worldZ - z position))%string.

(** [recordManualBlock]; [now] is read for the entry's timestamp, [now'] for
    the new [lastActivity]. *)
Definition recordManualBlock (now now' : Z) (playerName : string)
    (worldX worldY worldZ : Z) (act : ManualAction) (type : string)
    (sessions : Sessions) : Sessions * bool :=
  match sessions !! playerName with
  | None => (sessions, false)
  | Some session =>
      let key := manualBlockKey (origin session) worldX worldY worldZ in
      let entries :=
        JsMap.set key {| action := act; blockType := type; timestamp := now |}
          (manualBlocks session) in
      let session' :=
        {| chat := chat session; systemPrompt := systemPrompt session;
           origin := origin session; builds := builds session;
           manualBlocks := evictOldest entries; lastActivity := now' |} in
      (<[playerName := session']> sessions, true)
  end.

End Manager.

End Session.

Section SessionInvariant.

Variable manualBlockLimit : Z.

(** What holds of the manual edits of every session: no key twice, no empty
    key, and at most [manualBlockLimit] entries (none when the limit is
    negative). *)
Definition editsWithinLimit (entries : list (string * Session.ManualBlockEntry))
  : Prop :=
  JsMap.wellFormed entries
  /\ (forall k v, In (k, v) entries -> k <> "")
  /\ JsMap.size entries <= Z.max manualBlockLimit 0.

End SessionInvariant.

(** A session at [(0, 64, 0)] without builds or manual edits. *)
Definition exampleSession : Session.PlayerSession unit :=
  {| Session.chat := tt; Session.systemPrompt := "prompt";
     Session.origin := {| Session.x := 0; Session.y := 64; Session.z := 0;
                          Session.dimension := 0 |};
     Session.builds := []; Session.manualBlocks := []; Session.lastActivity := 0 |}.

(** * The command sender of [server/src/ws-handler.ts]

    [sendBuildCommand] and [sendChatResponse] cut their payload into chunks
    and send one [/scriptevent] command per chunk.  What is modelled is the
    sequence of payload objects, before [JSON.stringify]; the pauses between
    two commands ([sleep]) are left out.  Chunk sizes and length limits are
    integers. *)

(** [list.slice(start, end)], with negative indices counted from the end. *)
Definition jsSlice {A} (start finish : Z) (l : list A) : list A :=
  let len := Z.of_nat (List.length l) in
  let from := if start <? 0 then Z.max (len + start) 0 else Z.min start len in
  let to := if finish <? 0 then Z.max (len + finish) 0 else Z.min finish len in
  firstn (Z.to_nat (to - from)) (skipn (Z.to_nat from) l).

(** [text.slice(start, end)] on the code units of a string. *)
Definition jsSliceString (start finish : Z) (text : string) : string :=
  string_of_list_ascii (jsSlice start finish (list_ascii_of_string text)).

(** The loop [for (let i = 0; i < l.length; i += size) ... l.slice(i, i + size)]
    that both functions run, entered at [i]: the values of [i] with the
    slices taken.  It does not end when [size] is not positive; the result
    is [None] when [fuel] turns do not reach the end. *)
Fixpoint chunkLoop {A} (fuel : nat) (size : Z) (l : list A) (i : Z)
  : option (list (Z * list A)) :=
  match fuel with
  | O => None
  | S fuel' =>
      if i <? Z.of_nat (List.length l) then
        match chunkLoop fuel' size l (i + size) with
        | Some rest => Some ((i, jsSlice i (i + size) l) :: rest)
        | None => None
        end
      else Some []
  end.



Module Sender.



Inductive ResponseType : Type := ChatResponse | BuildResponse.

Record ChatPayload : Type :=
  { playerName : string;
    message : string;
    type : ResponseType;
    chatChunk : option Z;
    chatTotalChunks : option Z;
    blockCount : option Z }.

Definition CHUNK_RAW_LIMIT : Z := 600.

(** The text [sendChatResponse] sends: the message, cut at
    [maxResponseLen] code units and marked when it is longer. *)
Definition responseText (maxResponseLen : Z) (text : string) : string :=
  if maxResponseLen <? Z.of_nat (String.length text)
  then (jsSliceString 0 maxResponseLen text ++ "...")%string
  else text.

(** The payloads [sendChatResponse] sends, in order; [maxResponseLen] is the
    value of [Number(process.env.CHAT_MAX_RESPONSE_LENGTH) || 1500]. *)
Definition sendChatResponse (maxResponseLen : Z) (player text : string)
    (kind : ResponseType) (count : option Z) : option (list ChatPayload) :=
  let text := responseText maxResponseLen text in
  if Z.of_nat (String.length text) <=? CHUNK_RAW_LIMIT then
    Some [{| playerName := player; message := text; type := kind;
             chatChunk := None; chatTotalChunks := None; blockCount := count |}]
  else
    match chunkLoop (S (String.length text)) CHUNK_RAW_LIMIT
            (list_ascii_of_string text) 0 with
    | Some chunks =>
        Some (List.map
                (fun c => {| playerName := player;
                             message := string_of_list_ascii (snd (snd c));
                             type := kind;
                             chatChunk := Some (Z.of_nat (fst c));
                             chatTotalChunks := Some (Z.of_nat (List.length chunks));
                             blockCount := count |})
                (List.combine (List.seq 0 (List.length chunks)) chunks))
    | None => None
    end.

End Sender.

(** * The behaviour pack's side of the chat channel

    The handler of [ai:chat_response] script events puts the chunks of a
    response together again and hands the whole response to
    [handleChatResponse].  A payload arrives as it was sent (through
    [JSON.stringify] and [JSON.parse]); an array is the list of its elements,
    a hole being the empty string, which [filter] and [join] treat alike. *)

Module Receiver.

(** An entry of [chatResponseBuffer]. *)
Record ResponseBuffer : Type :=
  { chunks : list string;
    total : Z;
    type : Sender.ResponseType;
    blockCount : option Z }.

(** The fields [handleChatResponse] reads from its argument. *)
Record Response : Type :=
  { playerName : string;
    message : string;
    responseType : Sender.ResponseType;
    responseBlockCount : option Z }.

(** [array[index] = value]: an index past the end extends the array, a
    negative one leaves its elements alone. *)
Definition assignAt (index : Z) (value : string) (array : list string) : list string :=
  if index <? 0 then array
  else
    let i := Z.to_nat index in
    if (i <? List.length array)%nat
    then firstn i array ++ value :: skipn (S i) array
    else array ++ repeat "" (i - List.length array) ++ [value].

(** One [ai:chat_response] event: the new [chatResponseBuffer] and the call
    of [handleChatResponse], if there is one. *)
Definition receiveChatResponse (payload : Sender.ChatPayload)
    (buffers : gmap string ResponseBuffer)
  : gmap string ResponseBuffer * option Response :=
  let totalChunks := default 1 (Sender.chatTotalChunks payload) in
  let chunkIdx := default 0 (Sender.chatChunk payload) in
  if totalChunks <=? 1 then
    (buffers,
     Some {| playerName := Sender.playerName payload;
             message := Sender.message payload;
             responseType := Sender.type payload;
             responseBlockCount := Sender.blockCount payload |})
  else
    let key := Sender.playerName payload in
    let fresh :=
      {| chunks := repeat "" (Z.to_nat totalChunks); total := totalChunks;
         type := Sender.type payload; blockCount := Sender.blockCount payload |} in
    let buf :=
      match buffers !! key with
      | Some existing => if chunkIdx =? 0 then fresh else existing
      | None => fresh
      end in
    let filled := assignAt chunkIdx (Sender.message payload) (chunks buf) in
    let received :=
      List.length (List.filter (fun c => negb (String.eqb c "")) filled) in
    if total buf <=? Z.of_nat received then
      (base.delete key buffers,
       Some {| playerName := Sender.playerName payload;
               message := JsString.join "" filled;
               responseType := type buf;
               responseBlockCount := blockCount buf |})
    else
      (<[key := {| chunks := filled; total := total buf; type := type buf;
                   blockCount := blockCount buf |}]> buffers, None).

(** The events of a sequence of payloads, in order: the final buffer and
    the calls of [handleChatResponse]. *)
Fixpoint receiveAll (payloads : list Sender.ChatPayload)
    (buffers : gmap string ResponseBuffer)
  : gmap string ResponseBuffer * list Response :=
  match payloads with
  | [] => (buffers, [])
  | payload :: rest =>
      let (buffers', delivered) := receiveChatResponse payload buffers in
      let (final, later) := receiveAll rest buffers' in
      (final, match delivered with
              | Some response => response :: later
              | None => later
              end)
  end.

End Receiver.

(** The last [n] elements of a list. *)
Definition lastn {A} (n : nat) (l : list A) : list A :=
  skipn (List.length l - n) l.

(** * The behaviour pack's buffer of manual edits

    The pack records the blocks players place and break in
    [manualEditBuffer] and hands a player's edits over on [ai:get_edits]. *)

Module EditBuffer.

Record ManualEdit : Type :=
  { player : string; action : string; x : Z; y : Z; z : Z; blockType : string }.

Definition MAX_EDIT_BUFFER : Z := 200.

(** [pushEdit]: [shift] drops the oldest edit of a full buffer. *)
Definition pushEdit (edit : ManualEdit) (buffer : list ManualEdit) : list ManualEdit :=
  (if MAX_EDIT_BUFFER <=? Z.of_nat (List.length buffer) then List.tl buffer
   else buffer) ++ [edit].

(** [array.splice(index, 1)]. *)
Definition removeAt {A} (index : nat) (array : list A) : list A :=
  firstn index array ++ skipn (S index) array.

(** The loop [for (let i = buffer.length - 1; i >= 0; i--)] of the
    [ai:get_edits] handler, with [count] indices still to visit: the buffer
    and the edits collected so far. *)
Fixpoint collectLoop (count : nat) (playerName : string)
    (buffer edits : list ManualEdit) : list ManualEdit * list ManualEdit :=
  match count with
  | O => (buffer, edits)
  | S i =>
      match nth_error buffer i with
      | Some edit =>
          if String.eqb (player edit) playerName
          then collectLoop i playerName (removeAt i buffer) (edits ++ [edit])
          else collectLoop i playerName buffer edits
      | None => collectLoop i playerName buffer edits
      end
  end.

(** The [ai:get_edits] handler: the buffer afterwards and the edits that are
    sent to the player ([edits.reverse()]). *)
Definition takeEdits (playerName : string) (buffer : list ManualEdit)
  : list ManualEdit * list ManualEdit :=
  let (buffer', edits) := collectLoop (List.length buffer) playerName buffer [] in
  (buffer', List.rev edits).

End EditBuffer.

(** * The behaviour pack's chat history

    [chatHistories] maps a player's name to the messages shown in the menu. *)

Module ChatHistory.

Inductive Role : Type := user | ai.

Record ChatMessage : Type := { role : Role; text : string }.

Definition Histories : Type := gmap string (list ChatMessage).

Definition MAX_CHAT_DISPLAY : Z := 8.

Definition getChatHistory (playerName : string) (chatHistories : Histories)
  : list ChatMessage :=
  default [] (chatHistories !! playerName).

(** [while (history.length > MAX_CHAT_DISPLAY * 2) history.shift()]. *)
Fixpoint shiftWhileLong (history : list ChatMessage) : list ChatMessage :=
  match history with
  | [] => []
  | _ :: rest =>
      if MAX_CHAT_DISPLAY * 2 <? Z.of_nat (List.length history)
      then shiftWhileLong rest
      else history
  end.

Definition addChatMessage (playerName : string) (r : Role) (t : string)
    (chatHistories : Histories) : Histories :=
  let history :=
    match chatHistories !! playerName with
    | Some history => history
    | None => []
    end in
  <[playerName := shiftWhileLong (history ++ [{| role := r; text := t |}])]>
    chatHistories.

(** The section sign of the colour codes is the code unit 167. *)
Definition formatMessage (msg : ChatMessage) : string :=
  match role msg with
  | user => String "167"%char ("1> You: " ++ text msg)
  | ai => String "167"%char ("2< AI: " ++ text msg)
  end%string.

Definition formatChatHistory (playerName : string) (chatHistories : Histories)
  : string :=
  let history := getChatHistory playerName chatHistories in
  if Z.of_nat (List.length history) =? 0 then
    "No conversation yet. Send a message to start!"
  else
    let recent :=
      jsSlice (- MAX_CHAT_DISPLAY) (Z.of_nat (List.length history)) history in
    JsString.join (String "010"%char "") (List.map formatMessage recent).

(** A log of calls of [addChatMessage], and the histories it builds from
    the empty map. *)
Definition replay (log : list (string * ChatMessage)) : Histories :=
  fold_left (fun h entry => addChatMessage (fst entry) (role (snd entry))
                              (text (snd entry)) h) log ∅.

Definition messagesOf (playerName : string) (log : list (string * ChatMessage))
  : list ChatMessage :=
  List.map snd (List.filter (fun entry => String.eqb (fst entry) playerName) log).

End ChatHistory.
(** * Properties *)

(** ** Numbers: the doubles are exact on small integers *)

Lemma floorLog2_lower (n d : Z) :
  0 < n -> 0 < d ->
  (0 <= Double.floorLog2 n d -> d * 2 ^ Double.floorLog2 n d <= n)
  /\ (Double.floorLog2 n d < 0 -> d <= n * 2 ^ (- Double.floorLog2 n d)).
Proof.
  intros Hn Hd. unfold Double.floorLog2.
  destruct (Z.log2_spec n Hn) as [Ha1 Ha2].
  destruct (Z.log2_spec d Hd) as [Hb1 Hb2].
  pose proof (Z.log2_nonneg n) as Ha0. pose proof (Z.log2_nonneg d) as Hb0.
  rewrite Z.pow_succ_r in Ha2, Hb2 by assumption.
  set (a := Z.log2 n) in *. set (b := Z.log2 d) in *. clearbody a b.
  destruct (0 <=? a - b) eqn:Hk.
  - apply Z.leb_le in Hk.
    destruct (d * 2 ^ (a - b) <=? n) eqn:Ht.
    + apply Z.leb_le in Ht. split; [intros _; exact Ht|lia].
    + split; intros Hk1.
      * assert (Hp : 2 ^ a = 2 * 2 ^ b * 2 ^ (a - b - 1)).
        { rewrite <- Z.pow_succ_r, <- Z.pow_add_r by lia. f_equal. lia. }
        assert (0 < 2 ^ (a - b - 1)) by (apply Z.pow_pos_nonneg; lia).
        apply Z.le_trans with (2 ^ a); [|lia]. rewrite Hp.
        apply Z.mul_le_mono_nonneg_r; lia.
      * assert (a = b) by lia. subst b.
        replace (- (a - a - 1)) with 1 by lia. change (2 ^ 1) with 2. lia.
  - apply Z.leb_gt in Hk.
    destruct (d <=? n * 2 ^ (- (a - b))) eqn:Ht.
    + apply Z.leb_le in Ht. split; [lia|intros _; exact Ht].
    + split; [lia|]. intros _.
      assert (Hp : 2 ^ a * 2 ^ (- (a - b - 1)) = 2 * 2 ^ b).
      { rewrite <- Z.pow_succ_r, <- Z.pow_add_r by lia. f_equal. lia. }
      assert (0 < 2 ^ (- (a - b - 1))) by (apply Z.pow_pos_nonneg; lia).
      apply Z.le_trans with (2 * 2 ^ b); [lia|]. rewrite <- Hp.
      apply Z.mul_le_mono_nonneg_r; lia.
Qed.

Lemma roundHalfEven_cases (n d : Z) :
  0 < d ->
  Double.roundHalfEven n d = n / d
  \/ (Double.roundHalfEven n d = n / d + 1
      /\ (d < 2 * (n mod d) \/ (d = 2 * (n mod d) /\ Z.even (n / d) = false))).
Proof.
  intros Hd. unfold Double.roundHalfEven.
  destruct (2 * (n mod d) <? d) eqn:H1; [now left|].
  apply Z.ltb_ge in H1.
  destruct (d <? 2 * (n mod d)) eqn:H2.
  - apply Z.ltb_lt in H2. right. split; [reflexivity|now left].
  - apply Z.ltb_ge in H2. destruct (Z.even (n / d)) eqn:He; [now left|].
    right. split; [reflexivity|right; split; [lia|reflexivity]].
Qed.

(** Rounding a quotient that has been scaled by [P] and dividing by [P]
    again gives the integer part of the quotient, unless the scaled quotient
    lies half a unit below a multiple of [P]. *)
Lemma scaled_round_trunc (n d P : Z) :
  0 <= n -> 0 < d -> 0 < P -> d <= 2 * P ->
  ~ (d = 2 * P /\ n mod d = d - 1) ->
  Double.roundHalfEven (n * P) d / P = n / d.
Proof.
  intros Hn Hd HP HdP Hex.
  pose proof (Z.div_mod n d ltac:(lia)) as Hnd.
  pose proof (Z.mod_pos_bound n d Hd) as Hr.
  pose proof (Z.div_mod (n * P) d ltac:(lia)) as HN.
  pose proof (Z.mod_pos_bound (n * P) d Hd) as HR.
  pose proof (roundHalfEven_cases (n * P) d Hd) as Hc.
  set (m := Double.roundHalfEven (n * P) d) in *.
  set (t := n / d) in *. set (r := n mod d) in *.
  set (Q := n * P / d) in *. set (R := (n * P) mod d) in *.
  clearbody m t r Q R.
  assert (HQ1 : t * P <= Q) by nia.
  assert (HQ2 : Q <= t * P + P - 1) by nia.
  symmetry. apply Z.div_unique_pos with (r := m - t * P); [|lia].
  destruct Hc as [-> | [-> Hup]]; [lia|].
  split; [lia|].
  destruct (Z.eq_dec Q (t * P + P - 1)) as [HQe|]; [|lia].
  exfalso.
  assert (Hrp : r * P = (P - 1) * d + R) by nia.
  destruct Hup as [Hup | [Hup Hodd]].
  - nia.
  - apply Hex. split; nia.
Qed.

(** The quotient of two integers of the exact range, rounded to a double and
    truncated, is their integer quotient. *)
Lemma truncRoundPos_exact (n d : Z) :
  0 <= n <= 2 ^ 53 -> 0 < d <= 2 ^ 53 ->
  Double.truncRoundPos n d = Some (n / d).
Proof.
  intros Hn Hd. unfold Double.truncRoundPos.
  destruct (n =? 0) eqn:Hz.
  { apply Z.eqb_eq in Hz. subst n. now rewrite Z.div_0_l by lia. }
  apply Z.eqb_neq in Hz.
  destruct (floorLog2_lower n d ltac:(lia) ltac:(lia)) as [Hlow1 Hlow2].
  set (k := Double.floorLog2 n d) in *. clearbody k.
  destruct (0 <=? Z.max (k - 52) (-1074)) eqn:He.
  - apply Z.leb_le in He.
    assert (Hk : 52 <= k) by lia.
    replace (Z.max (k - 52) (-1074)) with (k - 52) by lia.
    specialize (Hlow1 ltac:(lia)).
    assert (Hpow : 2 ^ k = 2 ^ 52 * 2 ^ (k - 52))
      by (rewrite <- Z.pow_add_r by lia; f_equal; lia).
    assert (Hpos : 0 < 2 ^ (k - 52)) by (apply Z.pow_pos_nonneg; lia).
    set (E := 2 ^ (k - 52)) in *. clearbody E.
    assert (HD : d * E = 1 \/ d * E = 2).
    { change (2 ^ 53) with (2 * 2 ^ 52) in Hn. nia. }
    assert (Hexact : n mod (d * E) = 0).
    { destruct HD as [-> | HD]; [apply Z.mod_1_r|].
      rewrite HD. assert (n = 2 ^ 53) by (change (2 ^ 53) with (2 * 2 ^ 52) in *; nia).
      subst n. reflexivity. }
    assert (Hround : Double.roundHalfEven n (d * E) = n / (d * E)).
    { unfold Double.roundHalfEven. rewrite Hexact, Z.mul_0_r.
      destruct (0 <? d * E) eqn:H0; [reflexivity|apply Z.ltb_ge in H0; lia]. }
    rewrite Hround.
    assert (Hval : n / (d * E) * E = n / d).
    { rewrite <- Z.div_div by lia.
      assert (Hdiv : (n / d) mod E = 0).
      { destruct HD as [HD | HD].
        - assert (E = 1) by nia. subst E. apply Z.mod_1_r.
        - assert (n = 2 ^ 53) by (change (2 ^ 53) with (2 * 2 ^ 52) in *; nia).
          assert (HE : (d = 1 /\ E = 2) \/ (d = 2 /\ E = 1)) by nia.
          destruct HE as [[-> ->] | [-> ->]]; subst n; reflexivity. }
      pose proof (Z.div_mod (n / d) E ltac:(lia)). lia. }
    rewrite Hval.
    assert (n / d <= n) by (apply Z.div_le_upper_bound; nia).
    destruct (2 ^ 1024 <=? n / d) eqn:Hov; [|reflexivity].
    apply Z.leb_le in Hov.
    assert (2 ^ 53 < 2 ^ 1024) by (apply Z.pow_lt_mono_r; lia). lia.
  - apply Z.leb_gt in He.
    set (s := - Z.max (k - 52) (-1074)) in *.
    assert (Hs : 0 < s) by lia.
    f_equal. apply scaled_round_trunc; [lia|lia| | |].
    + apply Z.pow_pos_nonneg; lia.
    + rewrite <- Z.pow_succ_r by lia.
      destruct (Z.max_spec (k - 52) (-1074)) as [[_ Hm] | [_ Hm]].
      * assert (s = 1074) by lia.
        apply Z.le_trans with (2 ^ 53); [lia|apply Z.pow_le_mono_r; lia].
      * assert (Hsk : s = 52 - k) by lia. rewrite Hsk.
        destruct (Z_lt_le_dec k 0) as [Hneg | Hnn].
        -- specialize (Hlow2 Hneg).
           replace (Z.succ (52 - k)) with (53 + - k) by lia.
           rewrite Z.pow_add_r by lia.
           assert (0 < 2 ^ (- k)) by (apply Z.pow_pos_nonneg; lia). nia.
        -- specialize (Hlow1 Hnn).
           assert (Hp : 2 ^ 53 = 2 ^ Z.succ (52 - k) * 2 ^ k)
             by (rewrite <- Z.pow_add_r by lia; f_equal; lia).
           assert (0 < 2 ^ k) by (apply Z.pow_pos_nonneg; lia).
           assert (0 < 2 ^ Z.succ (52 - k)) by (apply Z.pow_pos_nonneg; lia).
           nia.
    + intros [Hd2 Hmod].
      rewrite <- Z.pow_succ_r in Hd2 by lia.
      destruct (Z.max_spec (k - 52) (-1074)) as [[_ Hm] | [_ Hm]].
      * assert (s = 1074) by lia.
        assert (2 ^ 53 < 2 ^ Z.succ s) by (apply Z.pow_lt_mono_r; lia). lia.
      * assert (Hsk : s = 52 - k) by lia. rewrite Hsk in Hd2.
        destruct (Z_lt_le_dec k 0) as [Hneg | Hnn].
        -- specialize (Hlow2 Hneg).
           replace (Z.succ (52 - k)) with (53 + - k) in Hd2 by lia.
           rewrite Z.pow_add_r in Hd2 by lia.
           assert (0 < 2 ^ (- k)) by (apply Z.pow_pos_nonneg; lia).
           assert (1 < 2 ^ (- k)).
           { apply Z.le_lt_trans with (2 ^ 0); [reflexivity|].
             apply Z.pow_lt_mono_r; lia. }
           assert (0 < 2 ^ 53) by reflexivity. nia.
        -- specialize (Hlow1 Hnn).
           assert (Hp : 2 ^ 53 = 2 ^ Z.succ (52 - k) * 2 ^ k)
             by (rewrite <- Z.pow_add_r by lia; f_equal; lia).
           assert (n = d * 2 ^ k) by nia.
           assert (n mod d = 0)
             by (subst n; rewrite Z.mul_comm; apply Z.mod_mul; lia).
           assert (1 < d).
           { rewrite Hd2. apply Z.le_lt_trans with (2 ^ 0); [reflexivity|].
             apply Z.pow_lt_mono_r; lia. }
           lia.
Qed.

Lemma truncOfRatio_exact (n d : Z) :
  JsNum.exact n -> 0 < d <= JsNum.MAX_EXACT ->
  JsNum.truncOfRatio n d = Int (Z.quot n d).
Proof.
  unfold JsNum.exact, JsNum.MAX_EXACT, JsNum.truncOfRatio. intros Hn Hd.
  destruct (n <? 0) eqn:Hneg.
  - apply Z.ltb_lt in Hneg.
    rewrite truncRoundPos_exact by lia. f_equal.
    rewrite <- (Z.opp_involutive n) at 2. rewrite Z.quot_opp_l by lia.
    rewrite Z.quot_div_nonneg by lia. reflexivity.
  - apply Z.ltb_ge in Hneg.
    rewrite truncRoundPos_exact by lia. f_equal.
    now rewrite Z.quot_div_nonneg by lia.
Qed.

Lemma round_exact (z : Z) : JsNum.exact z -> JsNum.round z = Int z.
Proof.
  intros Hz. unfold JsNum.round. rewrite truncOfRatio_exact.
  - now rewrite Z.quot_1_r.
  - exact Hz.
  - unfold JsNum.MAX_EXACT. split; [lia|]. now apply Z.pow_le_mono_r with (b := 0).
Qed.



Lemma add_exact (a b : Z) :
  JsNum.exact (a + b) -> JsNum.add (Int a) (Int b) = Int (a + b).
Proof. intros H. unfold JsNum.add. now apply round_exact. Qed.



(** Truncation is odd: the sign of the dividend passes through. *)
Lemma truncOfRatio_opp (n d : Z) :
  JsNum.truncOfRatio (- n) d = JsNum.neg (JsNum.truncOfRatio n d).
Proof.
  unfold JsNum.truncOfRatio.
  destruct (Z.lt_trichotomy n 0) as [Hn | [-> | Hn]].
  - replace (- n <? 0) with false by (symmetry; apply Z.ltb_ge; lia).
    replace (n <? 0) with true by (symmetry; apply Z.ltb_lt; lia).
    destruct (Double.truncRoundPos (- n) d); cbn [JsNum.neg]; [|reflexivity].
    now rewrite Z.opp_involutive.
  - reflexivity.
  - replace (- n <? 0) with true by (symmetry; apply Z.ltb_lt; lia).
    replace (n <? 0) with false by (symmetry; apply Z.ltb_ge; lia).
    rewrite Z.opp_involutive.
    now destruct (Double.truncRoundPos n d).
Qed.

(** ** The block-type normalizer *)

(** Induction on a document value, with the elements of an array at hand. *)
Lemma Json_nested_ind (P : Json -> Prop) :
  P JNull -> (forall b, P (JBool b)) -> (forall n, P (JNum n)) ->
  (forall s, P (JStr s)) ->
  (forall items, Forall P items -> P (JArr items)) ->
  (forall props, P (JObj props)) ->
  forall value, P value.
Proof.
  intros Hnull Hbool Hnum Hstr Harr Hobj.
  fix IH 1. intros [|b|n|s|items|props].
  - exact Hnull.
  - apply Hbool.
  - apply Hnum.
  - apply Hstr.
  - apply Harr. induction items as [|item rest IHrest]; constructor.
    + apply IH.
    + exact IHrest.
  - apply Hobj.
Qed.

Lemma getProp_existsb (key : string) (props : list (string * Json)) :
  existsb (fun prop => String.eqb (fst prop) key) props
  = match getProp key props with Some _ => true | None => false end.
Proof.
  induction props as [|[k v] rest IH]; [reflexivity|].
  cbn [existsb getProp fst]. now destruct (String.eqb k key).
Qed.

Section NormalizerFacts.

Variable numberToString : JsNumber -> string.
Variable supportedBlockTypes : list string.

(** [String(value)] throws exactly for a value that hides [toString], and
    then the [TypeError] of the conversion. *)
Lemma jsString_outcome (value : Json) :
  match jsString numberToString value with
  | Ok _ => hidesToString value = false
  | Err e => hidesToString value = true /\ e = CannotConvertObjectToPrimitive
  end.
Proof.
  induction value as [|b|n|s|items IH|props] using Json_nested_ind;
    try reflexivity.
  - cbn [jsString hidesToString].
    match goal with
    | |- context [bindR (?f items) _] => set (elements := f)
    end.
    assert (Hel : match elements items with
                  | Ok _ => existsb hidesToString items = false
                  | Err e => existsb hidesToString items = true
                             /\ e = CannotConvertObjectToPrimitive
                  end).
    { induction IH as [|item rest Hitem _ IHrest]; [reflexivity|].
      cbn [existsb]. change (elements (item :: rest))
        with (let* s := match item with
                        | JNull => Ok ""
                        | _ => jsString numberToString item
                        end in
              let* others := elements rest in Ok (s :: others)).
      destruct item as [|b|n|s|items'|props']; cbn [bindR hidesToString orb] in *;
        try (destruct (elements rest); cbn [bindR]; exact IHrest).
      - destruct (jsString numberToString (JArr items')) as [s|e]; cbn [bindR].
        + rewrite Hitem. destruct (elements rest); cbn [bindR orb]; exact IHrest.
        + destruct Hitem as [-> ->]. now split.
      - destruct (jsString numberToString (JObj props')) as [s|e]; cbn [bindR].
        + rewrite Hitem. destruct (elements rest); cbn [bindR orb]; exact IHrest.
        + destruct Hitem as [-> ->]. now split. }
    destruct (elements items); cbn [bindR]; exact Hel.
  - cbn [jsString hidesToString]. rewrite getProp_existsb.
    destruct (getProp "toString" props); [now split|reflexivity].
Qed.


Lemma jsString_error (value : Json) (e : Error) :
  jsString numberToString value = Err e -> e = CannotConvertObjectToPrimitive.
Proof.
  intros H. pose proof (jsString_outcome value) as Ho. rewrite H in Ho. apply Ho.
Qed.

Lemma catalogHas_In (id : string) :
  catalogHas supportedBlockTypes id = true <-> In id supportedBlockTypes.
Proof.
  unfold catalogHas. rewrite existsb_exists. split.
  - intros (y & Hy & Heq). apply String.eqb_eq in Heq. now subst.
  - intros H. exists id. split; [exact H | apply String.eqb_refl].
Qed.


Lemma forallb_append (p : ascii -> bool) (a b : string) :
  JsString.forallb p (a ++ b)%string = JsString.forallb p a && JsString.forallb p b.
Proof. induction a as [|c a IH]; simpl; [reflexivity|]. now rewrite IH, andb_assoc. Qed.

Lemma lowerChar_canonical (c : ascii) :
  JsString.isUpper (JsString.lowerChar c) = false.
Proof. destruct c as [[] [] [] [] [] [] [] []]; reflexivity. Qed.

Lemma toLowerCase_no_upper (s : string) :
  JsString.forallb (fun c => negb (JsString.isUpper c)) (JsString.toLowerCase s) = true.
Proof.
  induction s as [|c r IH]; simpl; [reflexivity|].
  now rewrite lowerChar_canonical, IH.
Qed.

Lemma replaceWhitespaceRuns_canonical (s : string) :
  JsString.forallb (fun c => negb (JsString.isUpper c)) s = true ->
  JsString.forallb (fun c => negb (JsString.isWhitespace c) && negb (JsString.isUpper c))
    (JsString.replaceWhitespaceRuns s) = true.
Proof.
  induction s as [|c r IH]; [reflexivity|].
  intros H. simpl in H. apply andb_true_iff in H as [Hc Hr]. specialize (IH Hr).
  simpl. destruct (JsString.isWhitespace c) eqn:Hws.
  - destruct r as [|c' r']; [reflexivity|].
    destruct (JsString.isWhitespace c'); [exact IH|]. simpl in *. exact IH.
  - simpl. now rewrite Hws, Hc, IH.
Qed.

Lemma replaceHyphens_canonical (s : string) :
  JsString.forallb (fun c => negb (JsString.isWhitespace c) && negb (JsString.isUpper c)) s
  = true ->
  JsString.forallb isCanonicalChar (JsString.replaceHyphens s) = true.
Proof.
  induction s as [|c r IH]; [reflexivity|].
  intros H. simpl in H. apply andb_true_iff in H as [Hc Hr]. simpl.
  rewrite (IH Hr), andb_true_r. unfold isCanonicalChar.
  destruct (JsString.code c =? 45)%N eqn:Hh; [reflexivity|].
  rewrite Hh. apply andb_true_iff in Hc as [-> ->]. reflexivity.
Qed.

Lemma trimEnd_forallb (p : ascii -> bool) (s : string) :
  JsString.forallb p s = true -> JsString.forallb p (JsString.trimEnd s) = true.
Proof.
  induction s as [|c r IH]; [reflexivity|].
  simpl. intros H. apply andb_true_iff in H as [Hc Hr]. specialize (IH Hr).
  destruct (JsString.trimEnd r) as [|c' r'].
  - destruct (JsString.isWhitespace c); simpl; [reflexivity|now rewrite Hc].
  - simpl in *. now rewrite Hc, IH.
Qed.

Lemma dropWhile_forallb (p q : ascii -> bool) (s : string) :
  JsString.forallb p s = true -> JsString.forallb p (JsString.dropWhile q s) = true.
Proof.
  induction s as [|c r IH]; [reflexivity|].
  simpl. intros H. destruct (q c); [|exact H].
  apply andb_true_iff in H as [_ Hr]. now apply IH.
Qed.

Lemma startsWith_prefixed (s : string) :
  JsString.startsWith "minecraft:" ("minecraft:" ++ s)%string = true.
Proof. destruct s; reflexivity. Qed.

(** The identifier looked up in the catalog is in canonical form: it starts
    with [minecraft:] and holds no whitespace, hyphen or capital letter. *)
Lemma canonicalOfText_shape (text : string) :
  isCanonicalId (canonicalOfText text) = true.
Proof.
  unfold canonicalOfText, isCanonicalId.
  set (lowered := JsString.toLowerCase _).
  set (nonEmpty := if String.eqb lowered "" then DEFAULT_BLOCK_TYPE else lowered).
  assert (Hlow : JsString.forallb (fun c => negb (JsString.isUpper c)) nonEmpty = true).
  { unfold nonEmpty. destruct (String.eqb lowered ""); [reflexivity|].
    apply toLowerCase_no_upper. }
  pose proof (replaceHyphens_canonical _ (replaceWhitespaceRuns_canonical _ Hlow)) as Hc.
  destruct (JsString.startsWith "minecraft:"
              (JsString.replaceHyphens (JsString.replaceWhitespaceRuns nonEmpty)))
    eqn:Hp.
  - now rewrite Hp, Hc.
  - now rewrite startsWith_prefixed, forallb_append, Hc.
Qed.

Lemma canonicalBlockType_shape (raw : option Json) (scope : Scope) (id : string) :
  canonicalBlockType numberToString raw scope = Ok id -> isCanonicalId id = true.
Proof.
  unfold canonicalBlockType.
  destruct (stringOfResolved numberToString _) as [text|]; [|discriminate].
  cbn [bindR]. intros [= <-]. apply canonicalOfText_shape.
Qed.


(** The text that [normalizeBlockType] canonicalizes. *)
Lemma normalizeBlockType_text (raw : option Json) (scope : Scope) :
  normalizeBlockType numberToString supportedBlockTypes raw scope
  = let* text := stringOfResolved numberToString (resolveScopedValue raw scope) in
    Ok (if catalogHas supportedBlockTypes (canonicalOfText text)
        then canonicalOfText text
        else pickFallbackBlockType supportedBlockTypes).
Proof.
  unfold normalizeBlockType, canonicalBlockType.
  destruct (stringOfResolved numberToString _) as [text|]; [|reflexivity].
  cbn [bindR]. now destruct (catalogHas _ _).
Qed.


Lemma normalizeBlockType_error (raw : option Json) (scope : Scope) (e : Error) :
  normalizeBlockType numberToString supportedBlockTypes raw scope = Err e ->
  e = CannotConvertObjectToPrimitive.
Proof.
  rewrite normalizeBlockType_text.
  destruct (resolveScopedValue raw scope) as [raw'|v]; [|discriminate].
  unfold stringOfResolved, stringOr.
  destruct (jsString numberToString _) eqn:Hs; [discriminate|].
  cbn [bindR]. intros [= <-]. eapply jsString_error, Hs.
Qed.

End NormalizerFacts.

(** ** The expression evaluator and the grammar *)

Section ParserFacts.

Variable numberToString : JsNumber -> string.
Variable scope : Scope.
Variable field : string.

Lemma isAdditive_inv (op : Operator) :
  isAdditive op = true -> exists a, op = addOperator a.
Proof. destruct op; try discriminate; intros _; [now exists Plus | now exists Minus]. Qed.

Lemma isMultiplicative_inv (op : Operator) :
  isMultiplicative op = true -> exists m, op = mulOperator m.
Proof. destruct op; try discriminate; intros _; [now exists Times | now exists Over]. Qed.

Ltac bind_inv H :=
  match type of H with
  | bindR ?r _ = Ok _ =>
      let E := fresh "E" in
      destruct r as [[? ?]|?] eqn:E; simpl in H; [|discriminate H]
  end.

Lemma parse_sound_all (fuel : nat) :
  SoundExpr numberToString scope field fuel /\ SoundExprLoop numberToString scope field fuel /\ SoundTerm numberToString scope field fuel
  /\ SoundTermLoop numberToString scope field fuel /\ SoundFactor numberToString scope field fuel.
Proof.
  induction fuel as [|fuel (IHE & IHEL & IHT & IHTL & IHF)].
  { repeat split; red; intros; discriminate. }
  repeat split; red.
  - (* parseExpression *)
    intros ts v rest H. simpl in H. bind_inv H.
    destruct (IHT _ _ _ E) as (t & -> & Ht).
    destruct (IHEL _ _ _ _ H (E_term t) Ht) as (e & He & Hv).
    exists e. simpl in He. now split.
  - (* parseExpressionLoop *)
    intros acc ts v rest H e0 He0. simpl in H.
    destruct ts as [|[n|x|op| |] ts'];
      try (injection H as <- <-; exists e0; now split).
    destruct (isAdditive op) eqn:Hop;
      [|injection H as <- <-; exists e0; now split].
    apply isAdditive_inv in Hop as (a & ->).
    bind_inv H.
    destruct (applyIntOp numberToString acc (addOperator a) s field)
      as [value'|] eqn:Hm; [|discriminate H].
    simpl in H.
    destruct (IHT _ _ _ E) as (t & -> & Ht).
    assert (Hv : valueExpr numberToString scope field (E_add e0 a t) = Ok value').
    { simpl. rewrite He0. simpl. rewrite Ht. simpl. exact Hm. }
    destruct (IHEL _ _ _ _ H _ Hv) as (e & He & Hve).
    exists e. split; [|exact Hve]. rewrite <- He. simpl.
    now rewrite <- app_assoc.
  - (* parseTerm *)
    intros ts v rest H. simpl in H. bind_inv H.
    destruct (IHF _ _ _ E) as (f & -> & Hf).
    destruct (IHTL _ _ _ _ H (T_factor f) Hf) as (t & Ht & Hv).
    exists t. simpl in Ht. now split.
  - (* parseTermLoop *)
    intros acc ts v rest H t0 Ht0. simpl in H.
    destruct ts as [|[n|x|op| |] ts'];
      try (injection H as <- <-; exists t0; now split).
    destruct (isMultiplicative op) eqn:Hop;
      [|injection H as <- <-; exists t0; now split].
    apply isMultiplicative_inv in Hop as (m & ->).
    bind_inv H.
    destruct (applyIntOp numberToString acc (mulOperator m) s field)
      as [value'|] eqn:Hm; [|discriminate H].
    simpl in H.
    destruct (IHF _ _ _ E) as (f & -> & Hf).
    assert (Hv : valueTerm numberToString scope field (T_mul t0 m f) = Ok value').
    { simpl. rewrite Ht0. simpl. rewrite Hf. simpl. exact Hm. }
    destruct (IHTL _ _ _ _ H _ Hv) as (t & Ht & Hvt).
    exists t. split; [|exact Hvt]. rewrite <- Ht. simpl.
    now rewrite <- app_assoc.
  - (* parseFactor *)
    intros ts v rest H. simpl in H.
    destruct ts as [|[n|x|op| |] ts']; try discriminate H.
    + injection H as <- <-. now exists (F_number n).
    + destruct (lookupVariable scope x) as [value|] eqn:Hx; [|discriminate H].
      injection H as <- <-. now exists (F_ident x).
    + destruct op; try discriminate H.
      * destruct (IHF _ _ _ H) as (f & -> & Hf).
        now exists (F_signed Plus f).
      * bind_inv H. injection H as <- <-.
        destruct (IHF _ _ _ E) as (f & -> & Hf).
        exists (F_signed Minus f). split; [reflexivity|].
        simpl. now rewrite Hf.
    + bind_inv H. destruct l as [|[| | | |] rest'']; try discriminate H.
      injection H as <- <-.
      destruct (IHE _ _ _ E) as (e & -> & He).
      exists (F_paren e). split; [|exact He].
      simpl. now rewrite <- app_assoc.
Qed.

(** *** Fuel: more fuel never changes a result, and [parseFuel] is enough *)

Lemma lookupVariable_not_exhausted (name : string) :
  ~ exhausted (lookupVariable scope name).
Proof.
  unfold exhausted, lookupVariable.
  destruct (scopeGet scope name) as [[n|s|m]|]; try discriminate.
  destruct (JsString.isSignedDigits _); discriminate.
Qed.

Lemma applyIntOp_not_exhausted (a b : ScopeValue) (op : Operator) :
  ~ exhausted (applyIntOp numberToString a op b field).
Proof.
  unfold exhausted. destruct op; simpl; try discriminate.
  destruct (isZero b); discriminate.
Qed.

Lemma parse_shorter (fuel : nat) : ShorterAll numberToString scope field fuel.
Proof.
  induction fuel as [|fuel (IHE & IHEL & IHT & IHTL & IHF)].
  { repeat split; intros; discriminate. }
  repeat split.
  - intros ts v rest H. simpl in H. bind_inv H.
    apply IHT in E. apply IHEL in H. lia.
  - intros acc ts v rest H. simpl in H.
    destruct ts as [|[n|x|op| |] ts']; try (injection H as <- <-; simpl; lia).
    destruct (isAdditive op); [|injection H as <- <-; simpl; lia].
    bind_inv H. destruct (applyIntOp numberToString acc op s field); [|discriminate H].
    simpl in H. apply IHT in E. apply IHEL in H. simpl. lia.
  - intros ts v rest H. simpl in H. bind_inv H.
    apply IHF in E. apply IHTL in H. lia.
  - intros acc ts v rest H. simpl in H.
    destruct ts as [|[n|x|op| |] ts']; try (injection H as <- <-; simpl; lia).
    destruct (isMultiplicative op); [|injection H as <- <-; simpl; lia].
    bind_inv H. destruct (applyIntOp numberToString acc op s field); [|discriminate H].
    simpl in H. apply IHF in E. apply IHTL in H. simpl. lia.
  - intros ts v rest H. simpl in H.
    destruct ts as [|[n|x|op| |] ts']; try discriminate H.
    + injection H as <- <-. simpl. lia.
    + destruct (lookupVariable scope x); [|discriminate H].
      injection H as <- <-. simpl. lia.
    + destruct op; try discriminate H.
      * apply IHF in H. simpl. lia.
      * bind_inv H. injection H as <- <-. apply IHF in E. simpl. lia.
    + bind_inv H. destruct l as [|[| | | |] rest'']; try discriminate H.
      injection H as <- <-. apply IHE in E. simpl in *. lia.
Qed.

Lemma parse_fuel_enough_all (fuel : nat) : EnoughAll numberToString scope field fuel.
Proof.
  induction fuel as [|fuel (IHE & IHEL & IHT & IHTL & IHF)].
  { repeat split; intros; lia. }
  destruct (parse_shorter fuel) as (SE & SEL & ST & STL & SF).
  unfold exhausted in *. repeat split.
  - intros ts Hf. simpl.
    destruct (parseTerm numberToString scope field fuel ts) as [[v rest]|e] eqn:E; simpl.
    + apply ST in E. apply IHEL. lia.
    + intros Hc; injection Hc as ->; revert E; apply IHT; lia.
  - intros acc ts Hf. simpl.
    destruct ts as [|[n|x|op| |] ts']; try discriminate.
    destruct (isAdditive op); [|discriminate]. simpl in Hf.
    destruct (parseTerm numberToString scope field fuel ts') as [[v rest]|e] eqn:E; simpl.
    + destruct (applyIntOp numberToString acc op v field) as [v'|e] eqn:Ha; simpl.
      * apply ST in E. apply IHEL. lia.
      * intros Hc; injection Hc as ->; revert Ha; apply applyIntOp_not_exhausted.
    + intros Hc; injection Hc as ->; revert E; apply IHT; lia.
  - intros ts Hf. simpl.
    destruct (parseFactor numberToString scope field fuel ts) as [[v rest]|e] eqn:E; simpl.
    + apply SF in E. apply IHTL. lia.
    + intros Hc; injection Hc as ->; revert E; apply IHF; lia.
  - intros acc ts Hf. simpl.
    destruct ts as [|[n|x|op| |] ts']; try discriminate.
    destruct (isMultiplicative op); [|discriminate]. simpl in Hf.
    destruct (parseFactor numberToString scope field fuel ts') as [[v rest]|e] eqn:E; simpl.
    + destruct (applyIntOp numberToString acc op v field) as [v'|e] eqn:Ha; simpl.
      * apply SF in E. apply IHTL. lia.
      * intros Hc; injection Hc as ->; revert Ha; apply applyIntOp_not_exhausted.
    + intros Hc; injection Hc as ->; revert E; apply IHF; lia.
  - intros ts Hf. simpl.
    destruct ts as [|[n|x|op| |] ts']; try discriminate; simpl in Hf.
    + destruct (lookupVariable scope x) as [v|e] eqn:E; simpl; [discriminate|].
      intros Hc; injection Hc as ->; revert E; apply lookupVariable_not_exhausted.
    + destruct op; try discriminate.
      * apply IHF. lia.
      * destruct (parseFactor numberToString scope field fuel ts') as [[v rest]|e] eqn:E; simpl;
          [discriminate|].
        intros Hc; injection Hc as ->; revert E; apply IHF; lia.
    + destruct (parseExpression numberToString scope field fuel ts') as [[v rest]|e] eqn:E; simpl.
      * destruct rest as [|[| | | |] rest'']; discriminate.
      * intros Hc; injection Hc as ->; revert E; apply IHE; lia.
Qed.

Lemma parse_fuel_enough (tokens : list ExprToken) :
  ~ exhausted (parseExpression numberToString scope field (parseFuel tokens) tokens).
Proof. apply parse_fuel_enough_all. unfold parseFuel. lia. Qed.

Lemma parseExpression_S fuel ts :
  parseExpression numberToString scope field (S fuel) ts
  = (let* (value, rest) := parseTerm numberToString scope field fuel ts in
     parseExpressionLoop numberToString scope field fuel value rest).
Proof. reflexivity. Qed.

Lemma parseTerm_S fuel ts :
  parseTerm numberToString scope field (S fuel) ts
  = (let* (value, rest) := parseFactor numberToString scope field fuel ts in
     parseTermLoop numberToString scope field fuel value rest).
Proof. reflexivity. Qed.

Lemma parseExpressionLoop_S fuel acc ts :
  parseExpressionLoop numberToString scope field (S fuel) acc ts
  = match ts with
    | TOp op :: rest =>
        if isAdditive op then
          let* (rhs, rest') := parseTerm numberToString scope field fuel rest in
          let* value' := applyIntOp numberToString acc op rhs field in
          parseExpressionLoop numberToString scope field fuel value' rest'
        else Ok (acc, ts)
    | _ => Ok (acc, ts)
    end.
Proof. reflexivity. Qed.

Lemma parseTermLoop_S fuel acc ts :
  parseTermLoop numberToString scope field (S fuel) acc ts
  = match ts with
    | TOp op :: rest =>
        if isMultiplicative op then
          let* (rhs, rest') := parseFactor numberToString scope field fuel rest in
          let* value' := applyIntOp numberToString acc op rhs field in
          parseTermLoop numberToString scope field fuel value' rest'
        else Ok (acc, ts)
    | _ => Ok (acc, ts)
    end.
Proof. reflexivity. Qed.

Lemma parseFactor_S fuel ts :
  parseFactor numberToString scope field (S fuel) ts
  = match ts with
    | [] => Err UnexpectedEndOfExpression
    | TOp OpAdd :: rest => parseFactor numberToString scope field fuel rest
    | TOp OpSub :: rest =>
        let* (rhs, rest') := parseFactor numberToString scope field fuel rest in
        Ok (SNum (JsNum.neg (toNumber rhs)), rest')
    | TNumber value :: rest => Ok (SNum value, rest)
    | TIdent name :: rest =>
        let* value := lookupVariable scope name in
        Ok (value, rest)
    | TLParen :: rest =>
        let* (inner, rest') := parseExpression numberToString scope field fuel rest in
        match rest' with
        | TRParen :: rest'' => Ok (inner, rest'')
        | _ => Err MissingClosingParenthesis
        end
    | _ => Err UnexpectedToken
    end.
Proof. reflexivity. Qed.

Lemma bind_exhausted {A B} (r : Result Error A) (k : A -> Result Error B) :
  ~ exhausted (bindR r k) -> ~ exhausted r.
Proof. unfold exhausted. intros H ->. now apply H. Qed.

Lemma parse_fuel_mono_all (fuel : nat) : MonoAll numberToString scope field fuel.
Proof.
  induction fuel as [|fuel (IHE & IHEL & IHT & IHTL & IHF)].
  { repeat split; intros; exfalso; apply H; reflexivity. }
  repeat split.
  - intros ts H. rewrite (parseExpression_S (S fuel)), (parseExpression_S fuel) in *.
    pose proof (bind_exhausted _ _ H) as H1. rewrite (IHT _ H1).
    destruct (parseTerm numberToString scope field fuel ts) as [[v rest]|e]; simpl in *; [|reflexivity].
    now apply IHEL.
  - intros acc ts H.
    rewrite (parseExpressionLoop_S (S fuel)), (parseExpressionLoop_S fuel) in *.
    destruct ts as [|[n|x|op| |] ts']; try reflexivity.
    destruct (isAdditive op); [|reflexivity].
    pose proof (bind_exhausted _ _ H) as H1. rewrite (IHT _ H1).
    destruct (parseTerm numberToString scope field fuel ts') as [[v rest]|e]; simpl in *; [|reflexivity].
    destruct (applyIntOp numberToString acc op v field); simpl in *; [|reflexivity].
    now apply IHEL.
  - intros ts H. rewrite (parseTerm_S (S fuel)), (parseTerm_S fuel) in *.
    pose proof (bind_exhausted _ _ H) as H1. rewrite (IHF _ H1).
    destruct (parseFactor numberToString scope field fuel ts) as [[v rest]|e]; simpl in *; [|reflexivity].
    now apply IHTL.
  - intros acc ts H.
    rewrite (parseTermLoop_S (S fuel)), (parseTermLoop_S fuel) in *.
    destruct ts as [|[n|x|op| |] ts']; try reflexivity.
    destruct (isMultiplicative op); [|reflexivity].
    pose proof (bind_exhausted _ _ H) as H1. rewrite (IHF _ H1).
    destruct (parseFactor numberToString scope field fuel ts') as [[v rest]|e]; simpl in *; [|reflexivity].
    destruct (applyIntOp numberToString acc op v field); simpl in *; [|reflexivity].
    now apply IHTL.
  - intros ts H. rewrite (parseFactor_S (S fuel)), (parseFactor_S fuel) in *.
    destruct ts as [|[n|x|op| |] ts']; try reflexivity.
    + destruct op; try reflexivity.
      * now apply IHF.
      * pose proof (bind_exhausted _ _ H) as H1. now rewrite (IHF _ H1).
    + assert (H1 : ~ exhausted (parseExpression numberToString scope field fuel ts')).
      { intros Hc. apply H. now rewrite Hc. }
      now rewrite (IHE _ H1).
Qed.

Lemma mono_from {A} (p : nat -> Result Error A) :
  (forall fuel, ~ exhausted (p fuel) -> p (S fuel) = p fuel) ->
  forall fuel0 r, p fuel0 = r -> ~ exhausted r -> Yields p r.
Proof.
  intros Hmono fuel0 r Hp Hr. split; [exact Hr|]. exists fuel0.
  intros fuel Hle. induction Hle as [|fuel Hle IH]; [exact Hp|].
  rewrite Hmono; [exact IH|]. now rewrite IH.
Qed.

Lemma Yields_unique {A} (p : nat -> Result Error A) (r1 r2 : Result Error A) :
  Yields p r1 -> Yields p r2 -> r1 = r2.
Proof.
  intros (_ & f1 & H1) (_ & f2 & H2).
  rewrite <- (H1 (Nat.max f1 f2)), <- (H2 (Nat.max f1 f2)); [reflexivity|lia|lia].
Qed.

(** *** Completeness: a sentence of the grammar is parsed to its value *)

Lemma value_not_exhausted :
  (forall e, ~ exhausted (valueExpr numberToString scope field e))
  /\ (forall t, ~ exhausted (valueTerm numberToString scope field t))
  /\ (forall f, ~ exhausted (valueFactor numberToString scope field f)).
Proof.
  apply grammar_mutind; simpl; unfold exhausted in *.
  - intros t IH. exact IH.
  - intros l IHl op r IHr.
    destruct (valueExpr numberToString scope field l); simpl; [|exact IHl].
    destruct (valueTerm numberToString scope field r); simpl; [|exact IHr].
    apply applyIntOp_not_exhausted.
  - intros f IH. exact IH.
  - intros l IHl op r IHr.
    destruct (valueTerm numberToString scope field l); simpl; [|exact IHl].
    destruct (valueFactor numberToString scope field r); simpl; [|exact IHr].
    apply applyIntOp_not_exhausted.
  - discriminate.
  - intros name. apply lookupVariable_not_exhausted.
  - intros [|] f IH; [exact IH|].
    destruct (valueFactor numberToString scope field f); simpl; [discriminate|exact IH].
  - intros e IH. exact IH.
Qed.

Lemma isAdditive_addOperator op : isAdditive (addOperator op) = true.
Proof. now destruct op. Qed.

Lemma isMultiplicative_mulOperator op : isMultiplicative (mulOperator op) = true.
Proof. now destruct op. Qed.

Lemma isMultiplicative_addOperator op : isMultiplicative (addOperator op) = false.
Proof. now destruct op. Qed.

Lemma termLoop_stops (acc : ScopeValue) (rest : list ExprToken) :
  endsTerm rest = true ->
  Yields (fun fuel => parseTermLoop numberToString scope field fuel acc rest) (Ok (acc, rest)).
Proof.
  intros Hend. split; [discriminate|]. exists 1%nat.
  intros [|fuel] Hf; [lia|]. rewrite parseTermLoop_S.
  destruct rest as [|[n|x|op| |] rest']; try reflexivity.
  simpl in Hend. apply negb_true_iff in Hend. now rewrite Hend.
Qed.

Lemma exprLoop_stops (acc : ScopeValue) (rest : list ExprToken) :
  endsExpr rest = true ->
  Yields (fun fuel => parseExpressionLoop numberToString scope field fuel acc rest) (Ok (acc, rest)).
Proof.
  intros Hend. split; [discriminate|]. exists 1%nat.
  intros [|fuel] Hf; [lia|]. rewrite parseExpressionLoop_S.
  destruct rest as [|[n|x|op| |] rest']; try reflexivity. discriminate.
Qed.

Lemma endsExpr_endsTerm rest : endsExpr rest = true -> endsTerm rest = true.
Proof. destruct rest as [|[| | | |] ?]; simpl; congruence. Qed.

Lemma err_not_exhausted_of {A B} (r : Result Error A) (e : Error) :
  ~ exhausted r -> r = Err e -> ~ exhausted (@Err Error B e).
Proof. unfold exhausted. intros H -> Hc. apply H. now injection Hc as ->. Qed.

Lemma parse_complete_all :
  (forall e, CompleteExpr numberToString scope field e) /\ (forall t, CompleteTerm numberToString scope field t)
  /\ (forall f, CompleteFactor numberToString scope field f).
Proof.
  destruct value_not_exhausted as (NE & NT & NF).
  apply grammar_mutind.
  - (* E_term *)
    intros t IHt rest res Hend Hk. simpl in *.
    destruct (valueTerm numberToString scope field t) as [v|err] eqn:Hv.
    + destruct (IHt rest (Ok (v, rest))) as (_ & f1 & H1).
      { rewrite Hv. now apply termLoop_stops. }
      destruct Hk as (Hres & f2 & H2). split; [exact Hres|].
      exists (S (Nat.max f1 f2)). intros [|fuel] Hf; [lia|].
      rewrite parseExpression_S, H1 by lia. simpl. apply H2. lia.
    + subst res. destruct (IHt rest (Err err)) as (Hne & f1 & H1).
      { now rewrite Hv. }
      split; [exact Hne|]. exists (S f1). intros [|fuel] Hf; [lia|].
      rewrite parseExpression_S, H1 by lia. reflexivity.
  - (* E_add *)
    intros l IHl op r IHr rest res Hend Hk. simpl in *.
    rewrite <- app_assoc. simpl. apply IHl.
    { simpl. now rewrite isMultiplicative_addOperator. }
    destruct (valueExpr numberToString scope field l) as [vl|err] eqn:Hl; simpl in Hk; [|exact Hk].
    destruct (valueTerm numberToString scope field r) as [vr|err] eqn:Hr; simpl in Hk.
    + destruct (IHr rest (Ok (vr, rest))) as (_ & f1 & H1).
      { rewrite Hr. now apply termLoop_stops. }
      destruct (applyIntOp numberToString vl (addOperator op) vr field)
        as [v'|err] eqn:Hm.
      * destruct Hk as (Hres & f2 & H2). split; [exact Hres|].
        exists (S (Nat.max f1 f2)). intros [|fuel] Hf; [lia|].
        rewrite parseExpressionLoop_S, isAdditive_addOperator, H1 by lia. simpl.
        rewrite Hm. simpl. apply H2. lia.
      * subst res. split.
        { eapply err_not_exhausted_of; [apply applyIntOp_not_exhausted|exact Hm]. }
        exists (S f1). intros [|fuel] Hf; [lia|].
        rewrite parseExpressionLoop_S, isAdditive_addOperator, H1 by lia. simpl.
        rewrite Hm. reflexivity.
    + subst res. destruct (IHr rest (Err err)) as (Hne & f1 & H1).
      { now rewrite Hr. }
      split; [exact Hne|]. exists (S f1). intros [|fuel] Hf; [lia|].
      rewrite parseExpressionLoop_S, isAdditive_addOperator, H1 by lia. reflexivity.
  - (* T_factor *)
    intros f IHf rest res Hk. simpl in *.
    destruct (IHf rest) as (Hne & f1 & H1).
    destruct (valueFactor numberToString scope field f) as [v|err] eqn:Hv; simpl in *.
    + destruct Hk as (Hres & f2 & H2). split; [exact Hres|].
      exists (S (Nat.max f1 f2)). intros [|fuel] Hf; [lia|].
      rewrite parseTerm_S, H1 by lia. simpl. apply H2. lia.
    + subst res. split; [exact Hne|]. exists (S f1). intros [|fuel] Hf; [lia|].
      rewrite parseTerm_S, H1 by lia. reflexivity.
  - (* T_mul *)
    intros l IHl op r IHr rest res Hk. simpl in *.
    rewrite <- app_assoc. simpl. apply IHl.
    destruct (valueTerm numberToString scope field l) as [vl|err] eqn:Hl; simpl in Hk; [|exact Hk].
    destruct (IHr rest) as (Hne & f1 & H1).
    destruct (valueFactor numberToString scope field r) as [vr|err] eqn:Hr; simpl in *.
    + destruct (applyIntOp numberToString vl (mulOperator op) vr field)
        as [v'|err] eqn:Hm.
      * destruct Hk as (Hres & f2 & H2). split; [exact Hres|].
        exists (S (Nat.max f1 f2)). intros [|fuel] Hf; [lia|].
        rewrite parseTermLoop_S, isMultiplicative_mulOperator, H1 by lia. simpl.
        rewrite Hm. simpl. apply H2. lia.
      * subst res. split.
        { eapply err_not_exhausted_of; [apply applyIntOp_not_exhausted|exact Hm]. }
        exists (S f1). intros [|fuel] Hf; [lia|].
        rewrite parseTermLoop_S, isMultiplicative_mulOperator, H1 by lia. simpl.
        rewrite Hm. reflexivity.
    + subst res. split; [exact Hne|]. exists (S f1). intros [|fuel] Hf; [lia|].
      rewrite parseTermLoop_S, isMultiplicative_mulOperator, H1 by lia. reflexivity.
  - (* F_number *)
    intros n rest. split; [discriminate|]. exists 1%nat.
    intros [|fuel] Hf; [lia|]. reflexivity.
  - (* F_ident *)
    intros name rest. split.
    { unfold withRest. simpl.
      destruct (lookupVariable scope name) eqn:Hx; simpl; [discriminate|].
      eapply err_not_exhausted_of; [apply lookupVariable_not_exhausted|exact Hx]. }
    exists 1%nat. intros [|fuel] Hf; [lia|]. reflexivity.
  - (* F_signed *)
    intros sign f IHf rest. destruct (IHf rest) as (Hne & f1 & H1).
    destruct sign; simpl.
    + split; [exact Hne|]. exists (S f1). intros [|fuel] Hf; [lia|].
      rewrite parseFactor_S. apply H1. lia.
    + split.
      { unfold withRest in *. simpl.
        destruct (valueFactor numberToString scope field f); simpl in *; [discriminate|exact Hne]. }
      exists (S f1). intros [|fuel] Hf; [lia|].
      rewrite parseFactor_S, H1 by lia. unfold withRest. simpl.
      now destruct (valueFactor numberToString scope field f).
  - (* F_paren *)
    intros e IHe rest. simpl. rewrite <- app_assoc. simpl.
    destruct (IHe (TRParen :: rest)
                (withRest (valueExpr numberToString scope field e) (TRParen :: rest)))
      as (Hne & f1 & H1); [reflexivity| |].
    { unfold withRest.
      destruct (valueExpr numberToString scope field e) as [v|err]; simpl; [|reflexivity].
      now apply exprLoop_stops. }
    split.
    { unfold withRest in *.
      destruct (valueExpr numberToString scope field e); simpl in *; [discriminate|exact Hne]. }
    exists (S f1). intros [|fuel] Hf; [lia|].
    rewrite parseFactor_S, H1 by lia. unfold withRest.
    now destruct (valueExpr numberToString scope field e).
Qed.

(** Parsing a whole sentence with [parseFuel] gives the value of its
    derivation tree, errors included. *)
Lemma parseExpression_sentence (e : GExpr) :
  parseExpression numberToString scope field (parseFuel (flattenExpr e)) (flattenExpr e)
  = withRest (valueExpr numberToString scope field e) [].
Proof.
  destruct parse_complete_all as (CE & _ & _).
  pose proof (CE e [] (withRest (valueExpr numberToString scope field e) []) eq_refl) as Hy.
  rewrite app_nil_r in Hy.
  apply (Yields_unique
           (fun fuel => parseExpression numberToString scope field fuel (flattenExpr e))).
  - eapply mono_from; [|reflexivity|apply parse_fuel_enough].
    intros fuel. apply parse_fuel_mono_all.
  - apply Hy. unfold withRest.
    destruct (valueExpr numberToString scope field e) as [v|err]; simpl; [|reflexivity].
    now apply exprLoop_stops.
Qed.

End ParserFacts.

(** *** The tokenizer *)

Lemma dropWhile_length (p : ascii -> bool) (s : string) :
  (String.length (JsString.dropWhile p s) <= String.length s)%nat.
Proof.
  induction s as [|c r IH]; simpl; [lia|].
  destruct (p c); simpl; lia.
Qed.








(** *** The evaluator *)

Section EvaluatorFacts.

Variable numberToString : JsNumber -> string.

Lemma evaluate_sound (s : string) (scope : Scope) (field : string) (v : ScopeValue) :
  evaluateIntegerExpression numberToString s scope field = Ok v ->
  exists e, tokenizeExpression s = Ok (flattenExpr e)
            /\ valueExpr numberToString scope field e = Ok v.
Proof.
  unfold evaluateIntegerExpression. intros H.
  destruct (tokenizeExpression s) as [tokens|] eqn:Ht; simpl in H; [|discriminate].
  destruct (parseExpression numberToString scope field (parseFuel tokens) tokens)
    as [[result rest]|] eqn:Hp; simpl in H; [|discriminate].
  destruct rest; [|discriminate]. injection H as ->.
  destruct (parse_sound_all numberToString scope field (parseFuel tokens)) as (SE & _).
  destruct (SE _ _ _ Hp) as (e & He & Hv).
  exists e. rewrite app_nil_r in He. now subst.
Qed.

Lemma evaluate_complete (s : string) (scope : Scope) (field : string) (e : GExpr) :
  tokenizeExpression s = Ok (flattenExpr e) ->
  evaluateIntegerExpression numberToString s scope field
  = valueExpr numberToString scope field e.
Proof.
  unfold evaluateIntegerExpression. intros ->. simpl.
  rewrite parseExpression_sentence. unfold withRest.
  now destruct (valueExpr numberToString scope field e).
Qed.






End EvaluatorFacts.






(** *** The arithmetic of the program on integers of the exact range *)




Section IntegerAgreement.

Variable numberToString : JsNumber -> string.
Variable scope : Scope.
Variable field : string.


End IntegerAgreement.






(** *** The field label only shows in error messages *)

Section FieldLabel.

Variable numberToString : JsNumber -> string.

Lemma applyIntOp_field (a b v : ScopeValue) (op : Operator) (f1 f2 : string) :
  applyIntOp numberToString a op b f1 = Ok v ->
  applyIntOp numberToString a op b f2 = Ok v.
Proof.
  destruct op; cbn [applyIntOp]; try trivial. now destruct (isZero b).
Qed.

Lemma value_field_irrelevant (scope : Scope) (f1 f2 : string) :
  (forall e v, valueExpr numberToString scope f1 e = Ok v ->
               valueExpr numberToString scope f2 e = Ok v)
  /\ (forall t v, valueTerm numberToString scope f1 t = Ok v ->
                  valueTerm numberToString scope f2 t = Ok v)
  /\ (forall f v, valueFactor numberToString scope f1 f = Ok v ->
                  valueFactor numberToString scope f2 f = Ok v).
Proof.
  apply grammar_mutind; simpl.
  - intros t IH. exact IH.
  - intros l IHl op r IHr v H.
    destruct (valueExpr numberToString scope f1 l) as [a|] eqn:Hl; [|discriminate].
    destruct (valueTerm numberToString scope f1 r) as [b|] eqn:Hr; [|discriminate].
    rewrite (IHl _ eq_refl), (IHr _ eq_refl). simpl in *.
    eapply applyIntOp_field, H.
  - intros f IH. exact IH.
  - intros l IHl op r IHr v H.
    destruct (valueTerm numberToString scope f1 l) as [a|] eqn:Hl; [|discriminate].
    destruct (valueFactor numberToString scope f1 r) as [b|] eqn:Hr; [|discriminate].
    rewrite (IHl _ eq_refl), (IHr _ eq_refl). simpl in *.
    eapply applyIntOp_field, H.
  - trivial.
  - trivial.
  - intros [|] f IH v H; [eauto|].
    destruct (valueFactor numberToString scope f1 f) as [a|] eqn:Hf; [|discriminate].
    now rewrite (IH _ eq_refl).
  - intros e IH. exact IH.
Qed.

Lemma evaluate_field_irrelevant (s : string) (scope : Scope) (f1 f2 : string)
    (v : ScopeValue) :
  evaluateIntegerExpression numberToString s scope f1 = Ok v ->
  evaluateIntegerExpression numberToString s scope f2 = Ok v.
Proof.
  intros H. apply evaluate_sound in H as (e & Ht & Hv).
  rewrite (evaluate_complete _ _ _ _ _ Ht).
  now apply (value_field_irrelevant scope f1 f2).
Qed.

Lemma evalIntExpr_field_irrelevant raw scope (f1 f2 : string) (v : ScopeValue) :
  evalIntExpr numberToString raw scope f1 = Ok v ->
  evalIntExpr numberToString raw scope f2 = Ok v.
Proof.
  unfold evalIntExpr.
  destruct raw as [[| |n|s| |]|]; try discriminate.
  - now destruct (truncFinite n).
  - destruct (String.eqb (JsString.trim s) ""); [discriminate|].
    destruct (evaluateIntegerExpression numberToString (JsString.trim s) scope f1)
      as [n|] eqn:H1; [|discriminate].
    intros H. injection H as ->.
    now rewrite (evaluate_field_irrelevant _ _ _ f2 _ H1).
Qed.


End FieldLabel.

(** ** The dispatcher and the legacy format *)

Section DispatcherFacts.

Variable numberToString : JsNumber -> string.
Variable supportedBlockTypes : list string.










(** C5. For a document that is a JSON object: with an array-valued [steps]
    or [defs] the compact program is expanded and its blocks (capped) are the
    result; if the expansion throws and [blocks] is an array, the result is
    the legacy parse of that array instead of the error; if the expansion
    throws and [blocks] is no array, the error of the expansion propagates.
    Without compact fields and without a [blocks] array the document is
    rejected for missing steps/defs and blocks, so that no block is
    produced.  [mixedDocument], whose program throws, yields its legacy
    block. *)
Theorem dispatch_compact_then_legacy (doc : list (string * Json)) :
  ((isArrayProp "steps" doc || isArrayProp "defs" doc) = true ->
     (forall blocks,
         expandCompactProgram numberToString supportedBlockTypes doc = Expanded blocks ->
         parseBlocksFromResponse numberToString supportedBlockTypes (JObj doc)
         = Ok (sliceToMax blocks))
     /\ (forall err rawBlocks,
         expandCompactProgram numberToString supportedBlockTypes doc = Failed err ->
         getProp "blocks" doc = Some (JArr rawBlocks) ->
         parseBlocksFromResponse numberToString supportedBlockTypes (JObj doc)
         = (let* blocks :=
              normalizeLegacyBlocks numberToString supportedBlockTypes rawBlocks in
            Ok (sliceToMax blocks)))
     /\ (forall err,
         expandCompactProgram numberToString supportedBlockTypes doc = Failed err ->
         isArrayProp "blocks" doc = false ->
         parseBlocksFromResponse numberToString supportedBlockTypes (JObj doc)
         = Err err))
  /\ ((isArrayProp "steps" doc || isArrayProp "defs" doc) = false ->
      isArrayProp "blocks" doc = false ->
      parseBlocksFromResponse numberToString supportedBlockTypes (JObj doc)
      = Err ResponseMissingStepsDefsOrBlocks)
  /\ (expandCompactProgram decimalNumberToString DEFAULT_ALLOWED_BLOCK_TYPES
        mixedDocument
      = Failed (UnsupportedExpression "q" "place.x" (UnknownVariable "q"))
      /\ parseBlocksFromResponse decimalNumberToString DEFAULT_ALLOWED_BLOCK_TYPES
           (JObj mixedDocument)
         = Ok [blockAt 7 8 9 "minecraft:dirt"]).
Proof.
  split; [|split].
  - intros Hc. simpl. rewrite Hc. repeat split.
    + intros blocks ->. reflexivity.
    + intros err rawBlocks -> ->. reflexivity.
    + intros err -> Hb. unfold isArrayProp in Hb.
      now destruct (getProp "blocks" doc) as [[| | | | |]|].
  - intros Hc Hb. simpl. rewrite Hc. unfold isArrayProp in Hb.
    now destruct (getProp "blocks" doc) as [[| | | | |]|].
  - split; vm_compute; reflexivity.
Qed.



End DispatcherFacts.




(** ** The iterations of a [for] step *)

Lemma iterationCount_asc_next (from to stride : Z) :
  0 < stride -> from <= to ->
  iterationCount from to stride = S (iterationCount (from + stride) to stride).
Proof.
  intros Hs Hle. unfold iterationCount.
  replace (0 <? stride) with true by (symmetry; now apply Z.ltb_lt).
  replace (to - (from + stride)) with ((to - from) + (-1) * stride) by lia.
  rewrite Z.div_add by lia.
  assert (0 <= (to - from) / stride) by (apply Z.div_pos; lia).
  rewrite <- Z2Nat.inj_succ by lia. f_equal. lia.
Qed.

Lemma iterationCount_asc_done (from to stride : Z) :
  0 < stride -> to < from -> iterationCount from to stride = O.
Proof.
  intros Hs Hlt. unfold iterationCount.
  replace (0 <? stride) with true by (symmetry; now apply Z.ltb_lt).
  assert ((to - from) / stride < 0) by (apply Z.div_lt_upper_bound; lia).
  apply Z2Nat.nonpos. lia.
Qed.

Lemma iterationCount_desc_next (from to stride : Z) :
  stride < 0 -> to <= from ->
  iterationCount from to stride = S (iterationCount (from + stride) to stride).
Proof.
  intros Hs Hle. unfold iterationCount.
  replace (0 <? stride) with false by (symmetry; apply Z.ltb_ge; lia).
  replace (stride <? 0) with true by (symmetry; now apply Z.ltb_lt).
  replace (from + stride - to) with ((from - to) + (-1) * (- stride)) by lia.
  rewrite Z.div_add by lia.
  assert (0 <= (from - to) / (- stride)) by (apply Z.div_pos; lia).
  rewrite <- Z2Nat.inj_succ by lia. f_equal. lia.
Qed.

Lemma iterationCount_desc_done (from to stride : Z) :
  stride < 0 -> from < to -> iterationCount from to stride = O.
Proof.
  intros Hs Hlt. unfold iterationCount.
  replace (0 <? stride) with false by (symmetry; apply Z.ltb_ge; lia).
  replace (stride <? 0) with true by (symmetry; now apply Z.ltb_lt).
  assert ((from - to) / (- stride) < 0) by (apply Z.div_lt_upper_bound; lia).
  apply Z2Nat.nonpos. lia.
Qed.

Lemma iterationValues_next (from to stride : Z) :
  iterationCount from to stride = S (iterationCount (from + stride) to stride) ->
  iterationValues from to stride = from :: iterationValues (from + stride) to stride.
Proof.
  intros Hc. unfold iterationValues. rewrite Hc. simpl. f_equal; [lia|].
  rewrite <- seq_shift, List.map_map. apply List.map_ext. intros k. lia.
Qed.

Lemma iterationValues_done (from to stride : Z) :
  iterationCount from to stride = O -> iterationValues from to stride = [].
Proof. intros Hc. unfold iterationValues. now rewrite Hc. Qed.

(** The values are [from + k * stride] for exactly those [k = 0, 1, 2, ...]
    that keep it within the bound, in the order of [k]. *)
Lemma iterationValues_nth (from to stride : Z) (k : nat) :
  (k < iterationCount from to stride)%nat ->
  nth_error (iterationValues from to stride) k = Some (from + Z.of_nat k * stride).
Proof.
  intros Hk. unfold iterationValues.
  rewrite nth_error_map, nth_error_seq.
  apply Nat.ltb_lt in Hk. now rewrite Hk.
Qed.

Lemma iterationValues_length (from to stride : Z) :
  List.length (iterationValues from to stride) = iterationCount from to stride.
Proof. unfold iterationValues. now rewrite length_map, length_seq. Qed.

Lemma iterationCount_asc_bound (from to stride : Z) (k : nat) :
  0 < stride ->
  (k < iterationCount from to stride)%nat <-> from + Z.of_nat k * stride <= to.
Proof.
  intros Hs. unfold iterationCount.
  replace (0 <? stride) with true by (symmetry; now apply Z.ltb_lt).
  pose proof (Z.mul_div_le (to - from) stride Hs) as Hdiv.
  split.
  - intros Hk.
    assert (Z.of_nat k <= (to - from) / stride) by lia. nia.
  - intros Hle.
    assert (Z.of_nat k <= (to - from) / stride)
      by (apply Z.div_le_lower_bound; lia).
    lia.
Qed.

Lemma iterationCount_desc_bound (from to stride : Z) (k : nat) :
  stride < 0 ->
  (k < iterationCount from to stride)%nat <-> to <= from + Z.of_nat k * stride.
Proof.
  intros Hs. unfold iterationCount.
  replace (0 <? stride) with false by (symmetry; apply Z.ltb_ge; lia).
  replace (stride <? 0) with true by (symmetry; now apply Z.ltb_lt).
  assert (Hs' : 0 < - stride) by lia.
  pose proof (Z.mul_div_le (from - to) (- stride) Hs') as Hdiv.
  split.
  - intros Hk.
    assert (Z.of_nat k <= (from - to) / (- stride)) by lia. nia.
  - intros Hle.
    assert (Z.of_nat k <= (from - to) / (- stride))
      by (apply Z.div_le_lower_bound; lia).
    lia.
Qed.


Section ForLoop.

Variable numberToString : JsNumber -> string.
Variable exec :
  list Json -> Scope -> Defs -> ExecState -> Z -> ExecState * Completion.

(** While the counter stays within the exact range, the ascending loop of
    the program runs the iterations of the specification. *)
Lemma forLoop_ascending (to stride : Z) body varName scope defs callDepth :
  0 < stride ->
  Z.abs to + Z.abs stride <= JsNum.MAX_EXACT ->
  forall (turns : nat) (i : Z) (st : ExecState),
    Z.abs i <= JsNum.MAX_EXACT ->
    (Z.to_nat (to - i + 1) < turns)%nat ->
    forLoop numberToString exec turns (fun i => jsLessEq numberToString i (int to))
      (int stride) body varName scope defs callDepth (int i) st
    = runIterations exec (iterationValues i to stride) body varName scope defs
        callDepth st.
Proof.
  intros Hs Hex. induction turns as [|turns IH]; intros i st Hi Hturns; [lia|].
  cbn [forLoop jsLessEq int JsNum.leb]. destruct (i <=? to) eqn:Hin.
  - apply Z.leb_le in Hin.
    rewrite (iterationValues_next i to stride)
      by now apply iterationCount_asc_next.
    cbn [runIterations int].
    destruct (exec body _ defs st (callDepth + 1)) as [st' [|e]]; [|reflexivity].
    destruct (outIsFull st'); [reflexivity|].
    change (jsAdd numberToString (int i) (int stride))
      with (SNum (JsNum.add (Int i) (Int stride))).
    rewrite add_exact by (unfold JsNum.exact; lia).
    apply IH; lia.
  - apply Z.leb_gt in Hin.
    rewrite (iterationValues_done i to stride)
      by now apply iterationCount_asc_done.
    reflexivity.
Qed.

Lemma forLoop_descending (to stride : Z) body varName scope defs callDepth :
  stride < 0 ->
  Z.abs to + Z.abs stride <= JsNum.MAX_EXACT ->
  forall (turns : nat) (i : Z) (st : ExecState),
    Z.abs i <= JsNum.MAX_EXACT ->
    (Z.to_nat (i - to + 1) < turns)%nat ->
    forLoop numberToString exec turns (fun i => jsGreaterEq numberToString i (int to))
      (int stride) body varName scope defs callDepth (int i) st
    = runIterations exec (iterationValues i to stride) body varName scope defs
        callDepth st.
Proof.
  intros Hs Hex. induction turns as [|turns IH]; intros i st Hi Hturns; [lia|].
  cbn [forLoop jsGreaterEq int JsNum.leb]. destruct (to <=? i) eqn:Hin.
  - apply Z.leb_le in Hin.
    rewrite (iterationValues_next i to stride)
      by now apply iterationCount_desc_next.
    cbn [runIterations int].
    destruct (exec body _ defs st (callDepth + 1)) as [st' [|e]]; [|reflexivity].
    destruct (outIsFull st'); [reflexivity|].
    change (jsAdd numberToString (int i) (int stride))
      with (SNum (JsNum.add (Int i) (Int stride))).
    rewrite add_exact by (unfold JsNum.exact; lia).
    apply IH; lia.
  - apply Z.leb_gt in Hin.
    rewrite (iterationValues_done i to stride)
      by now apply iterationCount_desc_done.
    reflexivity.
Qed.

End ForLoop.

(** ** The step interpreter *)

Section InterpreterFacts.

Variable numberToString : JsNumber -> string.
Variable supportedBlockTypes : list string.

Lemma executeSteps_too_deep fuel steps scope defs st callDepth :
  MAX_CALL_DEPTH < callDepth ->
  executeSteps numberToString supportedBlockTypes (S fuel) steps scope defs st callDepth
  = (st, Thrown ExceededMaxCallDepth).
Proof. intros H. simpl. apply Z.ltb_lt in H. now rewrite H. Qed.

Section Extensionality.

Variables exec1 exec2 :
  list Json -> Scope -> Defs -> ExecState -> Z -> ExecState * Completion.
Variable callDepth : Z.
Hypothesis same_one_deeper :
  forall body scope defs st,
    exec1 body scope defs st (callDepth + 1) = exec2 body scope defs st (callDepth + 1).

Lemma forLoop_ext turns inRange stride body varName scope defs i st :
  forLoop numberToString exec1 turns inRange stride body varName scope defs callDepth i st
  = forLoop numberToString exec2 turns inRange stride body varName scope defs callDepth
      i st.
Proof.
  revert i st. induction turns as [|turns IH]; intros i st; [reflexivity|].
  simpl. destruct (inRange i); [|reflexivity].
  rewrite same_one_deeper.
  destruct (exec2 body _ defs st (callDepth + 1)) as [st' [|e]]; [|reflexivity].
  destruct (outIsFull st'); [reflexivity|apply IH].
Qed.

Lemma executeForStep_ext step scope defs st :
  executeForStep numberToString exec1 step scope defs st callDepth
  = executeForStep numberToString exec2 step scope defs st callDepth.
Proof.
  unfold executeForStep.
  destruct (stringOr numberToString (getProp "var" step) ""); [|reflexivity].
  destruct (String.eqb _ ""); [reflexivity|].
  destruct (evalIntExpr numberToString (getProp "from" step) scope "for.from");
    [|reflexivity].
  destruct (evalIntExpr numberToString (getProp "to" step) scope "for.to");
    [|reflexivity].
  destruct (match getProp "step" step with
            | Some _ => _ | None => _ end) as [stride|]; [|reflexivity].
  destruct (isZero stride); [reflexivity|].
  destruct (getProp "steps" step) as [[| | | |body|]|]; try reflexivity.
  destruct (isPositive stride); apply forLoop_ext.
Qed.

Lemma executeCallStep_ext step scope defs st :
  executeCallStep numberToString exec1 step scope defs st callDepth
  = executeCallStep numberToString exec2 step scope defs st callDepth.
Proof.
  unfold executeCallStep.
  destruct (MAX_CALLS <? _); [reflexivity|].
  destruct (stringOr numberToString (getProp "name" step) ""); [|reflexivity].
  destruct (String.eqb _ ""); [reflexivity|].
  destruct (defs !! _) as [def|]; [|reflexivity].
  destruct (getProp "steps" def) as [[| | | |defSteps|]|]; try reflexivity.
  destruct (match getProp "params" def with
            | Some (JArr params) => _ | _ => _ end) as [args|]; [|reflexivity].
  apply same_one_deeper.
Qed.

Lemma executeStep_ext rawStep scope defs st :
  executeStep numberToString supportedBlockTypes exec1 rawStep scope defs st callDepth
  = executeStep numberToString supportedBlockTypes exec2 rawStep scope defs st callDepth.
Proof.
  unfold executeStep. destruct rawStep as [| | | | |step]; try reflexivity.
  destruct (stringOr numberToString (getProp "op" step) ""); [|reflexivity].
  cbv zeta. destruct (_ || _); [reflexivity|].
  destruct (String.eqb _ "for"); [apply executeForStep_ext|].
  destruct (String.eqb _ "call"); [apply executeCallStep_ext|reflexivity].
Qed.

Lemma stepsLoop_ext steps scope defs st :
  stepsLoop numberToString supportedBlockTypes exec1 steps scope defs st callDepth
  = stepsLoop numberToString supportedBlockTypes exec2 steps scope defs st callDepth.
Proof.
  revert st. induction steps as [|rawStep rest IH]; intros st; [reflexivity|].
  cbn [stepsLoop]. destruct (outIsFull st); [reflexivity|]. cbv zeta.
  destruct (MAX_EXECUTED_STEPS <? _); [reflexivity|].
  rewrite executeStep_ext.
  destruct (executeStep _ _ exec2 rawStep scope defs _ callDepth) as [st' [|e]];
    [apply IH|reflexivity].
Qed.

End Extensionality.

(** *** What the leaf functions throw: no ceiling error *)

Lemma jsString_not_ceiling value e :
  jsString numberToString value = Err e -> isCeilingError e = false.
Proof. intros H. apply jsString_error in H. now subst e. Qed.

Lemma stringOr_not_ceiling raw fallback e :
  stringOr numberToString raw fallback = Err e -> isCeilingError e = false.
Proof. apply jsString_not_ceiling. Qed.

Lemma evalIntExpr_not_ceiling raw scope field e :
  evalIntExpr numberToString raw scope field = Err e -> isCeilingError e = false.
Proof.
  unfold evalIntExpr.
  destruct raw as [[| |n|s| |]|]; try (intros H; injection H as <-; reflexivity).
  - destruct (truncFinite n); [discriminate|intros H; injection H as <-; reflexivity].
  - destruct (String.eqb (JsString.trim s) "");
      [intros H; injection H as <-; reflexivity|].
    destruct (evaluateIntegerExpression _ _ _ _); [discriminate|].
    intros H; injection H as <-. reflexivity.
Qed.

Lemma evalCallArgValue_not_ceiling raw scope field e :
  evalCallArgValue numberToString raw scope field = Err e -> isCeilingError e = false.
Proof.
  unfold evalCallArgValue.
  destruct raw as [[| |n|s| |]|]; try (intros H; injection H as <-; reflexivity).
  - destruct (truncFinite n); [discriminate|intros H; injection H as <-; reflexivity].
  - destruct (String.eqb (JsString.trim s) "");
      [intros H; injection H as <-; reflexivity|].
    destruct (if JsString.isIdentifier _ then _ else _); [discriminate|].
    destruct (evaluateIntegerExpression _ _ _ _); discriminate.
Qed.

Lemma normalizeBlockType_not_ceiling raw scope e :
  normalizeBlockType numberToString supportedBlockTypes raw scope = Err e ->
  isCeilingError e = false.
Proof. intros H. apply normalizeBlockType_error in H. now subst e. Qed.

Lemma normalizeCompactBlock_not_ceiling step scope e :
  normalizeCompactBlock numberToString supportedBlockTypes step scope = Err e ->
  isCeilingError e = false.
Proof.
  unfold normalizeCompactBlock.
  destruct (evalIntExpr numberToString (getProp "x" step) scope "place.x") eqn:Hx;
    simpl; [|intros H; injection H as <-; now apply evalIntExpr_not_ceiling in Hx].
  destruct (evalIntExpr numberToString (getProp "y" step) scope "place.y") eqn:Hy;
    simpl; [|intros H; injection H as <-; now apply evalIntExpr_not_ceiling in Hy].
  destruct (evalIntExpr numberToString (getProp "z" step) scope "place.z") eqn:Hz;
    simpl; [|intros H; injection H as <-; now apply evalIntExpr_not_ceiling in Hz].
  destruct (normalizeBlockType _ _ _ scope) eqn:Ht; simpl; [discriminate|].
  intros H; injection H as <-. now apply normalizeBlockType_not_ceiling in Ht.
Qed.

Lemma assignArg_not_ceiling key value args e :
  assignArg key value args = Err e -> isCeilingError e = false.
Proof.
  unfold assignArg. destruct (String.eqb key "__proto__"); [discriminate|].
  destruct (match argsOwn args !! key with Some _ => _ | None => _ end);
    [|discriminate].
  intros H; injection H as <-. reflexivity.
Qed.

Lemma bindParams_not_ceiling params rawArgs scope name args e :
  bindParams numberToString params rawArgs scope name args = Err e ->
  isCeilingError e = false.
Proof.
  revert args. induction params as [|param rest IH]; intros args; [discriminate|].
  cbn [bindParams].
  destruct (stringOr numberToString (Some param) "") as [text|] eqn:Hs; cbn [bindR];
    [|intros H; injection H as <-; now apply stringOr_not_ceiling in Hs].
  cbv zeta. destruct (String.eqb _ ""); [apply IH|].
  destruct (getProp _ rawArgs) as [raw|].
  - match goal with
    | |- context [evalCallArgValue ?n ?a ?b ?c] =>
        destruct (evalCallArgValue n a b c) eqn:Hv; cbn [bindR];
        [|intros H; injection H as <-; now apply evalCallArgValue_not_ceiling in Hv]
    end.
    match goal with
    | |- context [assignArg ?a ?b ?c] =>
        destruct (assignArg a b c) eqn:Ha; cbn [bindR];
        [apply IH|intros H; injection H as <-; now apply assignArg_not_ceiling in Ha]
    end.
  - destruct (inheritedMember _); intros H; injection H as <-; reflexivity.
Qed.

Lemma bindEntries_not_ceiling entries scope name args e :
  bindEntries numberToString entries scope name args = Err e ->
  isCeilingError e = false.
Proof.
  revert args. induction entries as [|[key value] rest IH]; intros args; [discriminate|].
  cbn [bindEntries].
  match goal with
  | |- context [evalCallArgValue ?n ?a ?b ?c] =>
      destruct (evalCallArgValue n a b c) eqn:Hv; cbn [bindR];
      [|intros H; injection H as <-; now apply evalCallArgValue_not_ceiling in Hv]
  end.
  match goal with
  | |- context [assignArg ?a ?b ?c] =>
      destruct (assignArg a b c) eqn:Ha; cbn [bindR];
      [apply IH|intros H; injection H as <-; now apply assignArg_not_ceiling in Ha]
  end.
Qed.

(** *** Unfolding the loops *)

Lemma stepsLoop_cons exec rawStep rest scope defs st callDepth :
  stepsLoop numberToString supportedBlockTypes exec (rawStep :: rest) scope defs st
    callDepth
  = if outIsFull st then (st, Normal)
    else
      if MAX_EXECUTED_STEPS <? executedSteps (budget (countStep st))
      then throw (countStep st) ExceededMaxExecutedSteps
      else
        match executeStep numberToString supportedBlockTypes exec rawStep scope defs
                (countStep st) callDepth with
        | (st', Normal) =>
            stepsLoop numberToString supportedBlockTypes exec rest scope defs st'
              callDepth
        | thrown => thrown
        end.
Proof. reflexivity. Qed.

Lemma executeCallStep_unfold exec step scope defs st callDepth :
  executeCallStep numberToString exec step scope defs st callDepth
  = if MAX_CALLS <? calls (budget (countCall st))
    then throw (countCall st) ExceededMaxCalls
    else
      match stringOr numberToString (getProp "name" step) "" with
      | Err e => throw (countCall st) e
      | Ok text =>
      let name := JsString.trim text in
      if String.eqb name "" then throw (countCall st) CallMissingName
      else
        match defs !! name with
        | None => throw (countCall st) (UndefinedFunction name)
        | Some def =>
            match getProp "steps" def with
            | Some (JArr defSteps) =>
                let rawArgs :=
                  match getProp "args" step with
                  | Some (JObj props) => props
                  | _ => []
                  end in
                match (match getProp "params" def with
                       | Some (JArr params) =>
                           bindParams numberToString params rawArgs scope name emptyArgs
                       | _ => bindEntries numberToString (objectEntries rawArgs) scope
                                name emptyArgs
                       end) with
                | Err e => throw (countCall st) e
                | Ok args =>
                    exec defSteps (argsOwn args ∪ scope) defs (countCall st)
                      (callDepth + 1)
                end
            | _ => throw (countCall st) (FunctionHasInvalidSteps name)
            end
        end
      end.
Proof. reflexivity. Qed.

(** *** A proof rule for properties of whole runs

    A relation between the state before and the outcome of a run holds of
    every run of [executeSteps] as soon as it holds of the elementary
    transitions and composes along sequencing. *)

Section RunInvariant.

Variable Inv : ExecState -> ExecState * Completion -> Prop.

Hypothesis inv_normal : forall st, Inv st (st, Normal).
Hypothesis inv_seq :
  forall st st1 r, Inv st (st1, Normal) -> Inv st1 r -> Inv st r.
Hypothesis inv_throw :
  forall st e, isCeilingError e = false -> Inv st (st, Thrown e).
Hypothesis inv_depth : forall st, Inv st (st, Thrown ExceededMaxCallDepth).
Hypothesis inv_countStep :
  forall st,
    Inv st (if MAX_EXECUTED_STEPS <? executedSteps (budget (countStep st))
            then throw (countStep st) ExceededMaxExecutedSteps
            else (countStep st, Normal)).
Hypothesis inv_countCall :
  forall st,
    Inv st (if MAX_CALLS <? calls (budget (countCall st))
            then throw (countCall st) ExceededMaxCalls
            else (countCall st, Normal)).
Hypothesis inv_push :
  forall st block, outIsFull st = false -> Inv st (pushBlock st block, Normal).

Section OneLevel.

Variable exec :
  list Json -> Scope -> Defs -> ExecState -> Z -> ExecState * Completion.
Variable callDepth : Z.
Hypothesis exec_inv :
  forall steps scope defs st, Inv st (exec steps scope defs st (callDepth + 1)).

Lemma forLoop_inv turns inRange stride body varName scope defs :
  forall i st,
    Inv st (forLoop numberToString exec turns inRange stride body varName scope defs
              callDepth i st).
Proof.
  induction turns as [|turns IH]; intros i st; cbn [forLoop];
    [now apply inv_throw|].
  destruct (inRange i); [|apply inv_normal].
  pose proof (exec_inv body (<[varName := i]> scope) defs st) as H.
  destruct (exec body _ defs st (callDepth + 1)) as [st' [|e]]; [|exact H].
  destruct (outIsFull st'); [exact H|].
  eapply inv_seq; [exact H|apply IH].
Qed.

Lemma executeForStep_inv step scope defs st :
  Inv st (executeForStep numberToString exec step scope defs st callDepth).
Proof.
  unfold executeForStep.
  destruct (stringOr numberToString (getProp "var" step) "") eqn:Hv;
    [|apply inv_throw; now apply stringOr_not_ceiling in Hv].
  destruct (String.eqb _ ""); [now apply inv_throw|].
  destruct (evalIntExpr numberToString (getProp "from" step) scope "for.from")
    as [from|] eqn:Hf; [|apply inv_throw; now apply evalIntExpr_not_ceiling in Hf].
  destruct (evalIntExpr numberToString (getProp "to" step) scope "for.to")
    as [to|] eqn:Ht; [|apply inv_throw; now apply evalIntExpr_not_ceiling in Ht].
  destruct (match getProp "step" step with
            | Some _ => _ | None => _ end) as [stride|e] eqn:Hs.
  - destruct (isZero stride); [now apply inv_throw|].
    destruct (getProp "steps" step) as [[| | | |body|]|]; try now apply inv_throw.
    destruct (isPositive stride); apply forLoop_inv.
  - apply inv_throw. destruct (getProp "step" step); [|discriminate].
    now apply evalIntExpr_not_ceiling in Hs.
Qed.

Lemma executeCallStep_inv step scope defs st :
  Inv st (executeCallStep numberToString exec step scope defs st callDepth).
Proof.
  rewrite executeCallStep_unfold.
  pose proof (inv_countCall st) as Hc.
  destruct (MAX_CALLS <? _); [exact Hc|].
  eapply inv_seq; [exact Hc|].
  destruct (stringOr numberToString (getProp "name" step) "") eqn:Hn;
    [|apply inv_throw; now apply stringOr_not_ceiling in Hn].
  cbv zeta.
  destruct (String.eqb _ ""); [now apply inv_throw|].
  destruct (defs !! _) as [def|]; [|now apply inv_throw].
  destruct (getProp "steps" def) as [[| | | |defSteps|]|]; try now apply inv_throw.
  destruct (match getProp "params" def with
            | Some (JArr params) => _ | _ => _ end) as [args|e] eqn:Hb.
  - apply exec_inv.
  - apply inv_throw.
    destruct (getProp "params" def) as [[| | | |params|]|];
      first [now apply bindParams_not_ceiling in Hb
            | now apply bindEntries_not_ceiling in Hb].
Qed.

(** The step itself, once counted. *)
Lemma executeStep_inv rawStep scope defs st :
  outIsFull st = false ->
  Inv st (executeStep numberToString supportedBlockTypes exec rawStep scope defs st
            callDepth).
Proof.
  intros Hfull. unfold executeStep.
  destruct rawStep as [| | | | |step]; try now apply inv_throw.
  destruct (stringOr numberToString (getProp "op" step) "") eqn:Ho;
    [|apply inv_throw; now apply stringOr_not_ceiling in Ho].
  cbv zeta.
  destruct (String.eqb _ "place" || String.eqb _ "block").
  { destruct (normalizeCompactBlock _ _ step scope) as [block|e] eqn:Hb.
    - now apply inv_push.
    - apply inv_throw. now apply normalizeCompactBlock_not_ceiling in Hb. }
  destruct (String.eqb _ "for"); [apply executeForStep_inv|].
  destruct (String.eqb _ "call"); [apply executeCallStep_inv|].
  now apply inv_throw.
Qed.

Lemma stepsLoop_inv steps scope defs st :
  Inv st (stepsLoop numberToString supportedBlockTypes exec steps scope defs st callDepth).
Proof.
  revert st. induction steps as [|rawStep rest IH]; intros st; [apply inv_normal|].
  rewrite stepsLoop_cons.
  destruct (outIsFull st) eqn:Hfull; [apply inv_normal|].
  pose proof (inv_countStep st) as Hc.
  destruct (MAX_EXECUTED_STEPS <? _); [exact Hc|].
  eapply inv_seq; [exact Hc|].
  pose proof (executeStep_inv rawStep scope defs (countStep st) Hfull) as H.
  destruct (executeStep _ _ exec rawStep scope defs _ callDepth) as [st' [|e]];
    [|exact H].
  eapply inv_seq; [exact H|apply IH].
Qed.

End OneLevel.

(** The property holds of [executeSteps], with any fuel. *)
Lemma executeSteps_inv fuel :
  forall steps scope defs st callDepth,
    Inv st (executeSteps numberToString supportedBlockTypes fuel steps scope defs st
              callDepth).
Proof.
  induction fuel as [|fuel IH]; intros steps scope defs st callDepth; simpl;
    [now apply inv_throw|].
  destruct (MAX_CALL_DEPTH <? callDepth); [apply inv_depth|].
  apply stepsLoop_inv. intros. apply IH.
Qed.

End RunInvariant.

(** *** The budget *)

Ltac budget_solve :=
  repeat match goal with
         | |- _ /\ _ => split
         | |- _ -> _ => intro
         end;
  repeat match goal with
         | H : Thrown _ = Thrown _ |- _ => injection H as H; subst
         end;
  simpl in *; try discriminate; try congruence; try lia.

Lemma budget_invariant fuel steps scope defs st callDepth :
  BudgetInv st
    (executeSteps numberToString supportedBlockTypes fuel steps scope defs st callDepth).
Proof.
  apply executeSteps_inv; unfold BudgetInv, throw; simpl.
  - intros s. budget_solve.
  - intros s s1 [s2 c] (H1 & H2 & H3 & H4) (H5 & H6 & H7 & H8). simpl in *.
    split; [lia|]. split; [lia|]. split.
    + intros Hle. destruct (H3 Hle) as [_ H3']. apply H7, H3'. discriminate.
    + intros Hle. destruct (H4 Hle) as [_ H4']. apply H8, H4'. discriminate.
  - intros s e He. budget_solve.
  - intros s. budget_solve.
  - intros s. destruct (MAX_EXECUTED_STEPS <? executedSteps (budget s) + 1) eqn:Hlt;
      simpl; [apply Z.ltb_lt in Hlt|apply Z.ltb_ge in Hlt]; budget_solve.
  - intros s. destruct (MAX_CALLS <? calls (budget s) + 1) eqn:Hlt;
      simpl; [apply Z.ltb_lt in Hlt|apply Z.ltb_ge in Hlt]; budget_solve.
  - intros s block _. budget_solve.
Qed.

(** The step itself adds nothing to [executedSteps], and one to [calls] when
    it is a [call] step: all other counting is done by the nested runs. *)
Lemma executeStep_counts exec rawStep scope defs st callDepth :
  (forall body scope' defs' st' depth,
      budget (fst (exec body scope' defs' st' depth)) = budget st') ->
  let r := executeStep numberToString supportedBlockTypes exec rawStep scope defs st
             callDepth in
  executedSteps (budget (fst r)) = executedSteps (budget st)
  /\ calls (budget (fst r))
     = calls (budget st) + (if isCallStep numberToString rawStep then 1 else 0).
Proof.
  intros Hexec.
  assert (Hfor : forall turns inRange stride body varName i s,
             budget (fst (forLoop numberToString exec turns inRange stride body
                            varName scope defs callDepth i s)) = budget s).
  { induction turns as [|turns IH]; intros inRange stride body varName i s;
      cbn [forLoop]; [reflexivity|].
    destruct (inRange i); [|reflexivity].
    pose proof (Hexec body (<[varName := i]> scope) defs s (callDepth + 1)) as H.
    destruct (exec body _ defs s (callDepth + 1)) as [s' [|e]]; [|exact H].
    cbn [fst] in H. destruct (outIsFull s'); [exact H|].
    rewrite IH. exact H. }
  unfold executeStep, isCallStep.
  destruct rawStep as [| | | | |step]; cbn [fst throw]; try (split; [reflexivity|lia]).
  destruct (stringOr numberToString (getProp "op" step) "") as [text|];
    cbn [fst throw]; [|split; [reflexivity|lia]].
  cbv zeta.
  destruct (String.eqb (JsString.toLowerCase text) "place") eqn:Hplace.
  { apply String.eqb_eq in Hplace. rewrite Hplace. cbn [orb String.eqb].
    change ("place" =? "call")%string with false.
    destruct (normalizeCompactBlock _ _ step scope); cbn; split; first [reflexivity|lia]. }
  destruct (String.eqb (JsString.toLowerCase text) "block") eqn:Hblock.
  { apply String.eqb_eq in Hblock. rewrite Hblock.
    change ("block" =? "call")%string with false. cbn [orb].
    destruct (normalizeCompactBlock _ _ step scope); cbn; split; first [reflexivity|lia]. }
  cbn [orb].
  destruct (String.eqb (JsString.toLowerCase text) "for") eqn:Hfor'.
  { apply String.eqb_eq in Hfor'. rewrite Hfor'.
    change ("for" =? "call")%string with false.
    assert (Hb : budget (fst (executeForStep numberToString exec step scope defs st
                                callDepth)) = budget st).
    { unfold executeForStep.
      destruct (stringOr numberToString (getProp "var" step) ""); [|reflexivity].
      destruct (String.eqb _ ""); [reflexivity|].
      destruct (evalIntExpr numberToString (getProp "from" step) scope "for.from");
        [|reflexivity].
      destruct (evalIntExpr numberToString (getProp "to" step) scope "for.to");
        [|reflexivity].
      destruct (match getProp "step" step with
                | Some _ => _ | None => _ end) as [stride|]; [|reflexivity].
      destruct (isZero stride); [reflexivity|].
      destruct (getProp "steps" step) as [[| | | |body|]|]; try reflexivity.
      destruct (isPositive stride); apply Hfor. }
    rewrite Hb. split; [reflexivity|lia]. }
  destruct (String.eqb (JsString.toLowerCase text) "call").
  - assert (Hb : budget (fst (executeCallStep numberToString exec step scope defs st
                                callDepth)) = budget (countCall st)).
    { rewrite executeCallStep_unfold.
      destruct (MAX_CALLS <? _); [reflexivity|].
      destruct (stringOr numberToString (getProp "name" step) ""); [|reflexivity].
      cbv zeta. destruct (String.eqb _ ""); [reflexivity|].
      destruct (defs !! _) as [def|]; [|reflexivity].
      destruct (getProp "steps" def) as [[| | | |defSteps|]|]; try reflexivity.
      destruct (match getProp "params" def with
                | Some (JArr params) => _ | _ => _ end) as [args|]; [|reflexivity].
      apply Hexec. }
    rewrite Hb. split; reflexivity.
  - cbn [fst throw]. split; [reflexivity|lia].
Qed.

End InterpreterFacts.

(** ** The [for] step, as a whole *)

Lemma executeForStep_runs numberToString exec step scope defs st callDepth
    (text varName : string) (from to stride : Z) (body : list Json) :
  stringOr numberToString (getProp "var" step) "" = Ok text ->
  JsString.trim text = varName ->
  varName <> "" ->
  evalIntExpr numberToString (getProp "from" step) scope "for.from" = Ok (int from) ->
  evalIntExpr numberToString (getProp "to" step) scope "for.to" = Ok (int to) ->
  match getProp "step" step with
  | None => Ok (int 1)
  | raw => evalIntExpr numberToString raw scope "for.step"
  end = Ok (int stride) ->
  getProp "steps" step = Some (JArr body) ->
  exactLoop from to stride ->
  executeForStep numberToString exec step scope defs st callDepth
  = if stride =? 0 then (st, Thrown ForStepCannotBeZero)
    else runIterations exec (iterationValues from to stride) body varName scope defs
           callDepth st.
Proof.
  intros Htext Hvar Hne Hfrom Hto Hstride Hsteps [Hexf Hext].
  unfold executeForStep. rewrite Htext. cbv zeta. rewrite Hvar.
  apply String.eqb_neq in Hne. rewrite Hne, Hfrom, Hto, Hstride.
  cbn [isZero int].
  destruct (stride =? 0) eqn:Hz; [reflexivity|]. apply Z.eqb_neq in Hz.
  rewrite Hsteps. unfold forTurns. cbn [int isPositive JsNum.ltb].
  destruct (0 <? stride) eqn:Hpos.
  - apply Z.ltb_lt in Hpos. apply forLoop_ascending; [exact Hpos|exact Hext|exact Hexf|lia].
  - apply Z.ltb_ge in Hpos. apply forLoop_descending; [lia|exact Hext|exact Hexf|lia].
Qed.

Lemma stepsLoop_seq numberToString supportedBlockTypes exec first rest scope defs st
    callDepth :
  stepsLoop numberToString supportedBlockTypes exec (first :: rest) scope defs st
    callDepth
  = match stepsLoop numberToString supportedBlockTypes exec [first] scope defs st
            callDepth with
    | (st', Normal) =>
        stepsLoop numberToString supportedBlockTypes exec rest scope defs st' callDepth
    | thrown => thrown
    end.
Proof.
  rewrite (stepsLoop_cons _ _ exec first rest), (stepsLoop_cons _ _ exec first []).
  destruct (outIsFull st) eqn:Hfull.
  { destruct rest as [|second rest]; [reflexivity|].
    now rewrite stepsLoop_cons, Hfull. }
  destruct (MAX_EXECUTED_STEPS <? _); [reflexivity|].
  now destruct (executeStep _ _ exec first scope defs _ callDepth) as [st' [|e]].
Qed.

Lemma executeSteps_S numberToString supportedBlockTypes fuel steps scope defs st
    callDepth :
  executeSteps numberToString supportedBlockTypes (S fuel) steps scope defs st callDepth
  = if MAX_CALL_DEPTH <? callDepth then throw st ExceededMaxCallDepth
    else stepsLoop numberToString supportedBlockTypes
           (executeSteps numberToString supportedBlockTypes fuel)
           steps scope defs st callDepth.
Proof. reflexivity. Qed.

(** ** Programs at the step and the call ceiling *)

Lemma exact_small (n : Z) : Z.abs n <= 2 ^ 16 -> JsNum.exact n.
Proof.
  intros H. unfold JsNum.exact, JsNum.MAX_EXACT.
  apply Z.le_trans with (2 ^ 16); [exact H|]. apply Z.pow_le_mono_r; lia.
Qed.

Section Ceilings.

Variable numberToString : JsNumber -> string.
Variable supportedBlockTypes : list string.

Lemma evalIntExpr_num (n : Z) (scope : Scope) (field : string) :
  JsNum.exact n ->
  evalIntExpr numberToString (Some (num n)) scope field = Ok (int n).
Proof.
  intros Hn. unfold num, evalIntExpr, truncFinite. cbn [inject_Z Qnum Qden].
  rewrite truncOfRatio_exact, Z.quot_1_r; [reflexivity|exact Hn|].
  unfold JsNum.MAX_EXACT. split; [lia|]. now apply Z.pow_le_mono_r with (b := 0).
Qed.

Lemma iterationValues_upto (n : Z) :
  List.length (iterationValues 1 n 1) = Z.to_nat n.
Proof.
  rewrite iterationValues_length. unfold iterationCount.
  change (0 <? 1) with true. cbv iota. rewrite Z.div_1_r. f_equal. lia.
Qed.

(** A counted [for] step runs its loop. *)
Lemma executeStep_for exec (var : string) (from to : Json) (body : list Json)
    scope defs st callDepth :
  executeStep numberToString supportedBlockTypes exec (forStep var from to body)
    scope defs st callDepth
  = executeForStep numberToString exec
      [("op", JStr "for"); ("var", JStr var); ("from", from); ("to", to);
       ("steps", JArr body)] scope defs st callDepth.
Proof. reflexivity. Qed.

(** The one [for] step of [stepsDocument] and of [callsDocument], whose
    body is [body]: counted, then its iterations. *)
Lemma counting_loop (n : Z) (body : list Json) (defs : Defs) :
  Z.abs n < JsNum.MAX_EXACT ->
  stepsLoop numberToString supportedBlockTypes
    (executeSteps numberToString supportedBlockTypes 25)
    [forStep "i" (num 1) (num n) body] ∅ defs emptyState 0
  = runIterations (executeSteps numberToString supportedBlockTypes 25)
      (iterationValues 1 n 1) body "i" ∅ defs 0 (countStep emptyState).
Proof.
  intros Hn. rewrite stepsLoop_cons.
  change (outIsFull emptyState) with false.
  change (MAX_EXECUTED_STEPS <? executedSteps (budget (countStep emptyState)))
    with false.
  cbv iota. rewrite executeStep_for.
  rewrite (executeForStep_runs numberToString
             (executeSteps numberToString supportedBlockTypes 25)
             [("op", JStr "for"); ("var", JStr "i"); ("from", num 1);
              ("to", num n); ("steps", JArr body)]
             ∅ defs (countStep emptyState) 0 "i" "i" 1 n 1 body
             eq_refl eq_refl ltac:(discriminate)
             (evalIntExpr_num 1 ∅ "for.from" (exact_small 1 ltac:(vm_compute; discriminate)))
             (evalIntExpr_num n ∅ "for.to" ltac:(unfold JsNum.exact; lia))
             eq_refl eq_refl).
  - change (1 =? 0) with false. cbv iota.
    now destruct (runIterations _ _ body "i" ∅ defs 0 _) as [st' [|e]].
  - unfold exactLoop, JsNum.MAX_EXACT in *. split; [|lia].
    change (Z.abs 1) with (2 ^ 0). apply Z.pow_le_mono_r; lia.
Qed.

(** An empty loop is one executed step. *)
Lemma emptyFor_step exec (scope : Scope) (defs : Defs) (st : ExecState) callDepth :
  outIsFull st = false ->
  stepsLoop numberToString supportedBlockTypes exec [emptyFor] scope defs st callDepth
  = (countStep st,
     if MAX_EXECUTED_STEPS <? executedSteps (budget st) + 1
     then Thrown ExceededMaxExecutedSteps else Normal).
Proof.
  intros Hfull. rewrite stepsLoop_cons, Hfull.
  change (executedSteps (budget (countStep st))) with (executedSteps (budget st) + 1).
  destruct (MAX_EXECUTED_STEPS <? executedSteps (budget st) + 1); [reflexivity|].
  unfold emptyFor. rewrite executeStep_for.
  rewrite (executeForStep_runs numberToString exec
             [("op", JStr "for"); ("var", JStr "j"); ("from", num 1);
              ("to", num 0); ("steps", JArr [])]
             scope defs (countStep st) callDepth "j" "j" 1 0 1 []
             eq_refl eq_refl ltac:(discriminate)
             (evalIntExpr_num 1 scope "for.from"
                (exact_small 1 ltac:(vm_compute; discriminate)))
             (evalIntExpr_num 0 scope "for.to"
                (exact_small 0 ltac:(vm_compute; discriminate)))
             eq_refl eq_refl).
  - reflexivity.
  - split; vm_compute; discriminate.
Qed.

(** Iterations of [emptyFor]: one executed step each, up to the ceiling. *)
Lemma emptyFor_iterations (fuel : nat) (values : list Z) :
  forall st : ExecState,
    out st = [] ->
    executedSteps (budget st) <= MAX_EXECUTED_STEPS ->
    runIterations (executeSteps numberToString supportedBlockTypes (S fuel))
      values [emptyFor] "i" ∅ ∅ 0 st
    = if executedSteps (budget st) + Z.of_nat (List.length values)
         <=? MAX_EXECUTED_STEPS
      then ({| out := [];
               budget := {| executedSteps :=
                              executedSteps (budget st)
                              + Z.of_nat (List.length values);
                            calls := calls (budget st) |} |}, Normal)
      else ({| out := [];
               budget := {| executedSteps := MAX_EXECUTED_STEPS + 1;
                            calls := calls (budget st) |} |},
            Thrown ExceededMaxExecutedSteps).
Proof.
  induction values as [|i values IH]; intros [o [steps cs]] Ho Hsteps;
    cbn [out budget executedSteps calls List.length] in *; subst o.
  { rewrite Z.add_0_r.
    replace (steps <=? MAX_EXECUTED_STEPS) with true
      by (symmetry; now apply Z.leb_le).
    reflexivity. }
  cbn [runIterations]. rewrite executeSteps_S.
  change (MAX_CALL_DEPTH <? 0 + 1) with false. cbv iota.
  rewrite emptyFor_step by reflexivity.
  unfold countStep. cbn [out budget executedSteps calls].
  destruct (MAX_EXECUTED_STEPS <? steps + 1) eqn:Hlt.
  - apply Z.ltb_lt in Hlt.
    replace (steps + Z.of_nat (S (List.length values)) <=? MAX_EXECUTED_STEPS)
      with false by (symmetry; apply Z.leb_gt; lia).
    do 3 f_equal. lia.
  - apply Z.ltb_ge in Hlt.
    change (outIsFull {| out := []; budget := _ |}) with false. cbv iota.
    rewrite IH by (simpl; first [reflexivity | lia]).
    cbn [out budget executedSteps calls].
    replace (steps + 1 + Z.of_nat (List.length values))
      with (steps + Z.of_nat (S (List.length values))) by lia.
    reflexivity.
Qed.

(** [stepsDocument n] executes [n + 1] steps. *)
Lemma stepsDocument_expands (n : Z) :
  Z.abs n < JsNum.MAX_EXACT ->
  expandCompactProgram numberToString supportedBlockTypes (stepsDocument n)
  = if n + 1 <=? MAX_EXECUTED_STEPS then Expanded []
    else Failed ExceededMaxExecutedSteps.
Proof.
  intros Hn. unfold expandCompactProgram, stepsDocument.
  change (getProp "defs" _) with (@None Json).
  change (getProp "steps" _)
    with (Some (JArr [forStep "i" (num 1) (num n) [emptyFor]])).
  cbv iota. change executeFuel with (S 25).
  rewrite executeSteps_S. change (MAX_CALL_DEPTH <? 0) with false. cbv iota.
  rewrite counting_loop, emptyFor_iterations, iterationValues_upto;
    [|reflexivity|discriminate|exact Hn].
  change (executedSteps (budget (countStep emptyState))) with 1.
  destruct (Z.leb_spec (1 + Z.of_nat (Z.to_nat n)) MAX_EXECUTED_STEPS) as [Hle|Hgt];
    destruct (Z.leb_spec (n + 1) MAX_EXECUTED_STEPS) as [Hle'|Hgt'];
    first [reflexivity | unfold MAX_EXECUTED_STEPS in *; lia].
Qed.

(** The definition [f] of [callsDocument]. *)
Lemma call_f_step (fuel : nat) (scope : Scope) (st : ExecState) :
  outIsFull st = false ->
  executedSteps (budget st) + 1 <= MAX_EXECUTED_STEPS ->
  stepsLoop numberToString supportedBlockTypes
    (executeSteps numberToString supportedBlockTypes (S fuel))
    [callStep "f"] scope
    (<["f" := [("name", JStr "f"); ("steps", JArr [])]]> ∅) st 1
  = (countCall (countStep st),
     if MAX_CALLS <? calls (budget st) + 1 then Thrown ExceededMaxCalls else Normal).
Proof.
  intros Hfull Hle. rewrite stepsLoop_cons, Hfull.
  replace (MAX_EXECUTED_STEPS <? executedSteps (budget (countStep st))) with false
    by (symmetry; apply Z.ltb_ge; exact Hle).
  change (executeStep numberToString supportedBlockTypes ?e (callStep "f") ?s ?d ?t ?c)
    with (executeCallStep numberToString e
            [("op", JStr "call"); ("name", JStr "f")] s d t c).
  rewrite executeCallStep_unfold.
  change (calls (budget (countCall (countStep st)))) with (calls (budget st) + 1).
  destruct (MAX_CALLS <? calls (budget st) + 1); [reflexivity|].
  change (stringOr numberToString (getProp "name" _) "") with (@Ok Error string "f").
  cbv iota zeta.
  change (JsString.trim "f") with "f".
  change (String.eqb "f" "") with false. cbv iota.
  replace ((<["f" := [("name", JStr "f"); ("steps", JArr [])]]> ∅ : Defs) !! "f")
    with (Some [("name", JStr "f"); ("steps", JArr [] : Json)])
    by (symmetry; apply lookup_insert_eq).
  change (getProp "steps" _) with (Some (JArr [])).
  change (getProp "args" _) with (@None Json).
  change (getProp "params" _) with (@None Json).
  cbv iota. change (objectEntries []) with (@nil (string * Json)).
  cbn [bindEntries]. rewrite executeSteps_S.
  change (MAX_CALL_DEPTH <? 1 + 1) with false. reflexivity.
Qed.

(** Iterations of [call f]: one executed step and one call each, up to the
    call ceiling. *)
Lemma call_f_iterations (fuel : nat) (values : list Z) :
  forall st : ExecState,
    out st = [] ->
    calls (budget st) <= MAX_CALLS ->
    executedSteps (budget st) + Z.of_nat (List.length values) <= MAX_EXECUTED_STEPS ->
    runIterations (executeSteps numberToString supportedBlockTypes (S (S fuel)))
      values [callStep "f"] "i" ∅
      (<["f" := [("name", JStr "f"); ("steps", JArr [])]]> ∅) 0 st
    = if calls (budget st) + Z.of_nat (List.length values) <=? MAX_CALLS
      then ({| out := [];
               budget := {| executedSteps :=
                              executedSteps (budget st)
                              + Z.of_nat (List.length values);
                            calls := calls (budget st)
                                     + Z.of_nat (List.length values) |} |}, Normal)
      else ({| out := [];
               budget := {| executedSteps :=
                              executedSteps (budget st)
                              + (MAX_CALLS + 1 - calls (budget st));
                            calls := MAX_CALLS + 1 |} |},
            Thrown ExceededMaxCalls).
Proof.
  induction values as [|i values IH]; intros [o [steps cs]] Ho Hcalls Hsteps;
    cbn [out budget executedSteps calls List.length] in *; subst o.
  { rewrite !Z.add_0_r.
    replace (cs <=? MAX_CALLS) with true by (symmetry; now apply Z.leb_le).
    reflexivity. }
  cbn [runIterations]. rewrite executeSteps_S.
  change (MAX_CALL_DEPTH <? 0 + 1) with false. cbv iota.
  rewrite call_f_step by (simpl; first [reflexivity | lia]).
  unfold countCall, countStep. cbn [out budget executedSteps calls].
  destruct (MAX_CALLS <? cs + 1) eqn:Hlt.
  - apply Z.ltb_lt in Hlt.
    replace (cs + Z.of_nat (S (List.length values)) <=? MAX_CALLS)
      with false by (symmetry; apply Z.leb_gt; lia).
    do 3 f_equal; lia.
  - apply Z.ltb_ge in Hlt.
    change (outIsFull {| out := []; budget := _ |}) with false. cbv iota.
    rewrite IH by (simpl; first [reflexivity | lia]).
    cbn [out budget executedSteps calls].
    replace (cs + 1 + Z.of_nat (List.length values))
      with (cs + Z.of_nat (S (List.length values))) by lia.
    destruct (cs + Z.of_nat (S (List.length values)) <=? MAX_CALLS);
      do 3 f_equal; lia.
Qed.

(** [callsDocument n] makes [n] calls. *)
Lemma callsDocument_expands (n : Z) :
  n < MAX_EXECUTED_STEPS ->
  Z.abs n < JsNum.MAX_EXACT ->
  expandCompactProgram numberToString supportedBlockTypes (callsDocument n)
  = if n <=? MAX_CALLS then Expanded [] else Failed ExceededMaxCalls.
Proof.
  intros Hn Hex. unfold expandCompactProgram, callsDocument.
  change (getProp "defs" _)
    with (Some (JArr [JObj [("name", JStr "f"); ("steps", JArr [])]])).
  change (getProp "steps" _)
    with (Some (JArr [forStep "i" (num 1) (num n) [callStep "f"]])).
  cbv iota.
  change (collectDefs numberToString _ ∅)
    with (@Ok Error Defs (<["f" := [("name", JStr "f"); ("steps", JArr [])]]> ∅)).
  cbv iota. change executeFuel with (S 25).
  rewrite executeSteps_S. change (MAX_CALL_DEPTH <? 0) with false. cbv iota.
  rewrite counting_loop, call_f_iterations; rewrite ?iterationValues_upto;
    [|reflexivity|discriminate|simpl; unfold MAX_EXECUTED_STEPS in *; lia|exact Hex].
  change (calls (budget (countStep emptyState))) with 0.
  destruct (Z.leb_spec (0 + Z.of_nat (Z.to_nat n)) MAX_CALLS) as [Hle|Hgt];
    destruct (Z.leb_spec n MAX_CALLS) as [Hle'|Hgt'];
    first [reflexivity | unfold MAX_CALLS in *; lia].
Qed.

End Ceilings.

(** C3, as stated, fails.  In the program
    [for i from 1 to 10000 { place x: "i" }; call f] the loop fills the
    output with its 10000th block.  The step loop then takes up the [call]
    step, finds the output full and returns: the step is counted neither in
    [executedSteps], which ends at 10001 for the 10002 steps taken up, nor in
    [calls], which stays 0 (nor is [f], which is not defined, looked up). *)
Lemma step_met_with_full_output_is_not_counted :
  (snd fullOutputRun, List.length (out (fst fullOutputRun)), budget (fst fullOutputRun))
  = (Normal, Z.to_nat MAX_BLOCKS, {| executedSteps := 10001; calls := 0 |}).
Proof. vm_cast_no_check (eq_refl (Normal, Z.to_nat MAX_BLOCKS,
                                  {| executedSteps := 10001; calls := 0 |})). Qed.

(** C3, amended. A step list met with a full output ends without error and
    without counting.  Otherwise, for every step of every list, the loop
    first adds exactly one to [executedSteps], whatever the step is: a count
    above 50000 throws at once; else the step is executed with the count
    raised by one (a step that is no record throws, [place], [for] and [call]
    steps are dispatched) and the loop goes on with the steps that follow.
    Executing the step adds nothing else to [executedSteps] and, when it is
    a [call] step, exactly one to [calls]: whatever more is counted is
    counted by the nested step lists.  [executeCallStep] adds that one before
    it reads the callee's name: a count above 500 throws at once, and a
    missing or undefined name is reported with the call already counted.  In
    every run neither counter decreases, and a counter that was within its
    ceiling ends within it, or exactly one above it when the run threw that
    ceiling's error.  The program [countedSteps] executes 14 steps and makes
    3 calls; a program that executes [n + 1] steps ([stepsDocument n])
    expands when [n + 1 <= 50000] and throws the step-ceiling error
    otherwise; one that makes [n] calls ([callsDocument n]) expands when
    [n <= 500] and throws the call-ceiling error otherwise. *)
Theorem budget_counters (numberToString : JsNumber -> string)
    (supportedBlockTypes : list string) :
  (forall exec steps scope defs st callDepth,
      outIsFull st = true ->
      stepsLoop numberToString supportedBlockTypes exec steps scope defs st callDepth
      = (st, Normal))
  /\ (forall exec rawStep rest scope defs st callDepth,
      outIsFull st = false ->
      MAX_EXECUTED_STEPS < executedSteps (budget st) + 1 ->
      stepsLoop numberToString supportedBlockTypes exec (rawStep :: rest) scope defs st
        callDepth
      = (countStep st, Thrown ExceededMaxExecutedSteps))
  /\ (forall exec rawStep rest scope defs st callDepth,
      outIsFull st = false ->
      executedSteps (budget st) + 1 <= MAX_EXECUTED_STEPS ->
      stepsLoop numberToString supportedBlockTypes exec (rawStep :: rest) scope defs st
        callDepth
      = match executeStep numberToString supportedBlockTypes exec rawStep scope defs
                (countStep st) callDepth with
        | (st', Normal) =>
            stepsLoop numberToString supportedBlockTypes exec rest scope defs st'
              callDepth
        | thrown => thrown
        end)
  /\ (forall exec rawStep scope defs st callDepth,
        match rawStep with
        | JObj step =>
            forall text,
              stringOr numberToString (getProp "op" step) "" = Ok text ->
              let op := JsString.toLowerCase text in
              (op = "place" \/ op = "block" ->
               executeStep numberToString supportedBlockTypes exec rawStep scope defs st
                 callDepth
               = match normalizeCompactBlock numberToString supportedBlockTypes step
                         scope with
                 | Ok block => (pushBlock st block, Normal)
                 | Err e => (st, Thrown e)
                 end)
              /\ (op = "for" ->
                  executeStep numberToString supportedBlockTypes exec rawStep scope defs
                    st callDepth
                  = executeForStep numberToString exec step scope defs st callDepth)
              /\ (op = "call" ->
                  executeStep numberToString supportedBlockTypes exec rawStep scope defs
                    st callDepth
                  = executeCallStep numberToString exec step scope defs st callDepth)
        | _ =>
            executeStep numberToString supportedBlockTypes exec rawStep scope defs st
              callDepth
            = (st, Thrown StepMustBeObject)
        end)
  /\ (forall exec rawStep scope defs st callDepth,
        (forall body scope' defs' st' depth,
            budget (fst (exec body scope' defs' st' depth)) = budget st') ->
        let r := executeStep numberToString supportedBlockTypes exec rawStep scope defs
                   st callDepth in
        executedSteps (budget (fst r)) = executedSteps (budget st)
        /\ calls (budget (fst r))
           = calls (budget st) + (if isCallStep numberToString rawStep then 1 else 0))
  /\ (forall exec step scope defs st callDepth,
        (MAX_CALLS < calls (budget st) + 1 ->
         executeCallStep numberToString exec step scope defs st callDepth
         = (countCall st, Thrown ExceededMaxCalls))
        /\ (calls (budget st) + 1 <= MAX_CALLS ->
            forall text name,
              stringOr numberToString (getProp "name" step) "" = Ok text ->
              JsString.trim text = name ->
              (name = "" ->
               executeCallStep numberToString exec step scope defs st callDepth
               = (countCall st, Thrown CallMissingName))
              /\ (name <> "" -> defs !! name = None ->
                  executeCallStep numberToString exec step scope defs st callDepth
                  = (countCall st, Thrown (UndefinedFunction name)))))
  /\ (forall fuel steps scope defs st callDepth,
        BudgetInv st
          (executeSteps numberToString supportedBlockTypes fuel steps scope defs st
             callDepth))
  /\ (exists st,
        executeSteps decimalNumberToString DEFAULT_ALLOWED_BLOCK_TYPES executeFuel
          countedSteps ∅ countedDefs emptyState 0 = (st, Normal)
        /\ budget st = {| executedSteps := 14; calls := 3 |}
        /\ List.length (out st) = 10%nat)
  /\ (forall n,
        Z.abs n < JsNum.MAX_EXACT ->
        expandCompactProgram numberToString supportedBlockTypes (stepsDocument n)
        = if n + 1 <=? MAX_EXECUTED_STEPS then Expanded []
          else Failed ExceededMaxExecutedSteps)
  /\ (forall n,
        n < MAX_EXECUTED_STEPS ->
        Z.abs n < JsNum.MAX_EXACT ->
        expandCompactProgram numberToString supportedBlockTypes (callsDocument n)
        = if n <=? MAX_CALLS then Expanded [] else Failed ExceededMaxCalls).
Proof.
  split; [|split; [|split; [|split; [|split; [|split; [|split; [|split; [|split]]]]]]]].
  - intros exec steps scope defs st callDepth Hfull.
    destruct steps as [|rawStep rest]; [reflexivity|].
    now rewrite stepsLoop_cons, Hfull.
  - intros exec rawStep rest scope defs st callDepth Hfull Hlt.
    rewrite stepsLoop_cons, Hfull. apply Z.ltb_lt in Hlt. simpl in *. now rewrite Hlt.
  - intros exec rawStep rest scope defs st callDepth Hfull Hle.
    assert (Hlt : (MAX_EXECUTED_STEPS <? executedSteps (budget (countStep st))) = false)
      by (apply Z.ltb_ge; exact Hle).
    now rewrite stepsLoop_cons, Hfull, Hlt.
  - intros exec rawStep scope defs st callDepth.
    destruct rawStep as [| | | | |step]; try reflexivity.
    intros text Htext op. unfold executeStep. rewrite Htext. cbv zeta. fold op.
    repeat split.
    + intros Hop.
      replace (String.eqb op "place" || String.eqb op "block") with true
        by (destruct Hop as [-> | ->]; reflexivity).
      now destruct (normalizeCompactBlock _ _ step scope).
    + intros ->. reflexivity.
    + intros ->. reflexivity.
  - intros exec rawStep scope defs st callDepth Hexec.
    now apply executeStep_counts.
  - intros exec step scope defs st callDepth. split.
    + intros Hlt. rewrite executeCallStep_unfold. apply Z.ltb_lt in Hlt.
      simpl in *. now rewrite Hlt.
    + intros Hle text name Htext Hname.
      assert (Hlt : (MAX_CALLS <? calls (budget (countCall st))) = false)
        by (apply Z.ltb_ge; exact Hle).
      split.
      * intros ->. rewrite executeCallStep_unfold, Hlt, Htext. cbv zeta.
        now rewrite Hname.
      * intros Hne Hnone. rewrite executeCallStep_unfold, Hlt, Htext. cbv zeta.
        rewrite Hname. apply String.eqb_neq in Hne. now rewrite Hne, Hnone.
  - apply budget_invariant.
  - eexists. split; [vm_compute; reflexivity|]. split; vm_compute; reflexivity.
  - apply stepsDocument_expands.
  - apply callsDocument_expands.
Qed.

Lemma nestedFor_add (a b : nat) (inner : Json) :
  nestedFor (a + b) inner = nestedFor a (nestedFor b inner).
Proof. induction a as [|a IH]; simpl; [reflexivity|]. now rewrite IH. Qed.

Lemma nestedFor_25_too_deep numberToString supportedBlockTypes (inner : Json) :
  expandCompactProgram numberToString supportedBlockTypes
    [("steps", JArr [nestedFor 25 inner])]
  = Failed ExceededMaxCallDepth.
Proof. vm_compute. reflexivity. Qed.

(** C4. [executeSteps] entered with a call depth above 24 throws the
    call-depth error, whatever the steps.  The body of a [for] step and the
    body of a called definition are executed one level deeper than the step
    (the step's outcome depends on the recursive executions at
    [callDepth + 1] only).  Hence [levels] nested [for] steps around one
    [place] step expand to that block when [levels <= 24] (so for 20) and
    throw the call-depth error when [levels >= 25] (so for 30); a
    definition that calls itself throws it too. *)
Theorem call_depth_ceiling :
  (forall numberToString supportedBlockTypes fuel steps scope defs st callDepth,
      MAX_CALL_DEPTH < callDepth ->
      executeSteps numberToString supportedBlockTypes (S fuel) steps scope defs st
        callDepth
      = (st, Thrown ExceededMaxCallDepth))
  /\ (forall numberToString exec1 exec2 callDepth,
        (forall body scope defs st,
            exec1 body scope defs st (callDepth + 1)
            = exec2 body scope defs st (callDepth + 1)) ->
        forall step scope defs st,
          executeForStep numberToString exec1 step scope defs st callDepth
          = executeForStep numberToString exec2 step scope defs st callDepth
          /\ executeCallStep numberToString exec1 step scope defs st callDepth
             = executeCallStep numberToString exec2 step scope defs st callDepth)
  /\ (forall levels,
        parseBlocksFromResponse decimalNumberToString DEFAULT_ALLOWED_BLOCK_TYPES
          (JObj (deepDocument levels))
        = if (24 <? levels)%nat then Err ExceededMaxCallDepth
          else Ok [blockAt 0 0 0 "minecraft:stone"])
  /\ parseBlocksFromResponse decimalNumberToString DEFAULT_ALLOWED_BLOCK_TYPES
       (JObj (deepDocument 30)) = Err ExceededMaxCallDepth
  /\ parseBlocksFromResponse decimalNumberToString DEFAULT_ALLOWED_BLOCK_TYPES
       (JObj (deepDocument 20)) = Ok [blockAt 0 0 0 "minecraft:stone"]
  /\ parseBlocksFromResponse decimalNumberToString DEFAULT_ALLOWED_BLOCK_TYPES
       (JObj recursiveDocument) = Err ExceededMaxCallDepth.
Proof.
  split; [intros; now apply executeSteps_too_deep|].
  split.
  { intros numberToString exec1 exec2 callDepth Hsame step scope defs st. split.
    - now apply executeForStep_ext.
    - now apply executeCallStep_ext. }
  split.
  { intros levels.
    do 25 (destruct levels as [|levels]; [vm_compute; reflexivity|]).
    match goal with
    | |- context [deepDocument ?n] => change n with (25 + levels)%nat
    end.
    replace (24 <? 25 + levels)%nat with true by (symmetry; apply Nat.ltb_lt; lia).
    unfold deepDocument. rewrite nestedFor_add.
    unfold parseBlocksFromResponse.
    change (isArrayProp "steps" [("steps", JArr [nestedFor 25 (nestedFor levels stoneAtOrigin)])])
      with true.
    simpl orb. cbv iota. rewrite nestedFor_25_too_deep. reflexivity. }
  repeat split; vm_compute; reflexivity.
Qed.

(** One [place x: 7] step, in any scope. *)
Lemma place_seven_once (fuel : nat) (scope : Scope) (st : ExecState) :
  outIsFull st = false ->
  executedSteps (budget st) + 1 <= MAX_EXECUTED_STEPS ->
  executeSteps decimalNumberToString DEFAULT_ALLOWED_BLOCK_TYPES (S fuel)
    [placeAtX (num 7)] scope ∅ st 1
  = (pushBlock (countStep st) (stoneAt 7), Normal).
Proof.
  intros Hfull Hle. cbn [executeSteps].
  change (MAX_CALL_DEPTH <? 1) with false. cbv iota.
  rewrite stepsLoop_cons, Hfull.
  replace (MAX_EXECUTED_STEPS <? executedSteps (budget (countStep st))) with false
    by (symmetry; apply Z.ltb_ge; exact Hle).
  reflexivity.
Qed.

(** A loop whose body is [place x: 7], while the output and the step budget
    have room for all its iterations. *)
Lemma place_seven_iterations (fuel : nat) (values : list Z) :
  forall st : ExecState,
    Z.of_nat (List.length (out st)) + Z.of_nat (List.length values) <= MAX_BLOCKS ->
    executedSteps (budget st) + Z.of_nat (List.length values) <= MAX_EXECUTED_STEPS ->
    runIterations
      (executeSteps decimalNumberToString DEFAULT_ALLOWED_BLOCK_TYPES (S fuel))
      values [placeAtX (num 7)] "j" ∅ ∅ 0 st
    = ({| out := out st ++ repeat (stoneAt 7) (List.length values);
          budget := {| executedSteps :=
                         executedSteps (budget st) + Z.of_nat (List.length values);
                       calls := calls (budget st) |} |}, Normal).
Proof.
  induction values as [|i values IH]; intros [o [steps cs]] Hout Hsteps.
  { simpl. now rewrite app_nil_r, Z.add_0_r. }
  cbn [runIterations List.length out budget executedSteps calls] in *.
  change (0 + 1) with 1.
  rewrite place_seven_once;
    [|unfold outIsFull; apply Z.leb_gt; simpl; lia|simpl; lia].
  destruct (outIsFull _) eqn:Hfull.
  - unfold outIsFull, pushBlock, countStep in Hfull. simpl in Hfull.
    apply Z.leb_le in Hfull. rewrite length_app in Hfull. simpl in Hfull.
    destruct values as [|i' values]; [|simpl in Hout; lia].
    simpl. reflexivity.
  - rewrite IH.
    + unfold pushBlock, countStep. simpl. rewrite <- app_assoc. simpl.
      do 3 f_equal. lia.
    + unfold pushBlock, countStep. simpl. rewrite length_app. simpl. lia.
    + unfold pushBlock, countStep. simpl. lia.
Qed.

(** C1, as stated, fails.  In the program
    [for j from 1 to 9999 { place x: 7 }; for i from 0 to 4 { place x: "i" }]
    the second loop executes its body for [i = 0] only: the output is then
    full (10000 blocks) and the loop returns, although 1, 2, 3 and 4 are
    within its bound; the expansion ends with the block of [i = 0].  And the
    loop from [2^53] to [2^53 + 2] does not execute its (empty) body three
    times and return: [2^53 + 1] is the double [2^53], the counter stays at
    its first value, and the loop does not end. *)
Lemma full_output_ends_for_loop :
  (iterationValues 0 4 1 = [0; 1; 2; 3; 4]
   /\ expandCompactProgram decimalNumberToString DEFAULT_ALLOWED_BLOCK_TYPES
        [("steps", JArr [forStep "j" (num 1) (num 9999) [placeAtX (num 7)];
                         forStep "i" (num 0) (num 4) [placeAtX (JStr "i")]])]
      = Expanded (repeat (stoneAt 7) (Z.to_nat 9999) ++ [stoneAt 0]))
  /\ (iterationValues 9007199254740992 9007199254740994 1
      = [9007199254740992; 9007199254740993; 9007199254740994]
      /\ jsAdd decimalNumberToString (int 9007199254740992) (int 1)
         = int 9007199254740992
      /\ expandCompactProgram decimalNumberToString DEFAULT_ALLOWED_BLOCK_TYPES
           [("steps", JArr [forStep "i" (num 9007199254740992)
                              (num 9007199254740994) []])]
         = Unfinished).
Proof.
  split;
    [|split; [vm_compute; reflexivity|split; [vm_compute; reflexivity|]];
      vm_cast_no_check (eq_refl Unfinished)].
  split; [vm_compute; reflexivity|].
  unfold expandCompactProgram.
  change (getProp "defs" _) with (@None Json).
  change (getProp "steps" _)
    with (Some (JArr [forStep "j" (num 1) (num 9999) [placeAtX (num 7)];
                      forStep "i" (num 0) (num 4) [placeAtX (JStr "i")]])).
  cbv iota. change executeFuel with (S 25).
  rewrite executeSteps_S. change (MAX_CALL_DEPTH <? 0) with false. cbv iota.
  rewrite stepsLoop_seq.
  assert (Hfirst :
    stepsLoop decimalNumberToString DEFAULT_ALLOWED_BLOCK_TYPES
      (executeSteps decimalNumberToString DEFAULT_ALLOWED_BLOCK_TYPES 25)
      [forStep "j" (num 1) (num 9999) [placeAtX (num 7)]] ∅ ∅ emptyState 0
    = ({| out := repeat (stoneAt 7) (Z.to_nat 9999);
          budget := {| executedSteps := 10000; calls := 0 |} |}, Normal)).
  { rewrite stepsLoop_cons.
    change (outIsFull emptyState) with false.
    change (MAX_EXECUTED_STEPS <? executedSteps (budget (countStep emptyState)))
      with false.
    cbv iota. rewrite executeStep_for.
    rewrite (executeForStep_runs decimalNumberToString
               (executeSteps decimalNumberToString DEFAULT_ALLOWED_BLOCK_TYPES 25)
               [("op", JStr "for"); ("var", JStr "j"); ("from", num 1);
                ("to", num 9999); ("steps", JArr [placeAtX (num 7)])]
               ∅ ∅ (countStep emptyState) 0 "j" "j" 1 9999 1 [placeAtX (num 7)]
               eq_refl eq_refl ltac:(discriminate) eq_refl eq_refl eq_refl eq_refl
               ltac:(split; vm_compute; discriminate)).
    change (1 =? 0) with false. cbv iota.
    rewrite place_seven_iterations;
      rewrite ?iterationValues_length;
      [|vm_compute; discriminate|vm_compute; discriminate].
    vm_compute. reflexivity. }
  rewrite Hfirst. vm_compute. reflexivity.
Qed.

(** C1, amended. A [for] step whose variable name [v] is not empty, whose
    [from], [to] and stride evaluate to the integers [a], [b] and [s] in the
    current scope, with [|a| <= 2^53] and [|b| + |s| <= 2^53] (the counter
    is then computed exactly), and whose [steps] is an array: if [s = 0] it
    throws before any iteration; otherwise the body is executed for
    [i = a, a + s, a + 2 s, ...] in that order, for exactly the values with
    [i <= b] when [s > 0] and with [i >= b] when [s < 0], each time one
    level deeper in the scope of the step with [v] bound to [i], until an
    iteration throws (the error propagates) or leaves the output full (the
    loop returns).  A stride of zero throws before any iteration whatever
    the bounds and the steps are.  In particular [for i from 0 to 4] around
    [place x: "i"] yields the blocks with [x = 0, 1, 2, 3, 4] in that order,
    and [for i from 4 to 0 step -1] those with [x = 4, 3, 2, 1, 0]. *)
Theorem for_step_iterates :
  (forall numberToString exec step scope defs st callDepth text varName from to stride
          body,
      stringOr numberToString (getProp "var" step) "" = Ok text ->
      JsString.trim text = varName ->
      varName <> "" ->
      evalIntExpr numberToString (getProp "from" step) scope "for.from"
      = Ok (int from) ->
      evalIntExpr numberToString (getProp "to" step) scope "for.to" = Ok (int to) ->
      match getProp "step" step with
      | None => Ok (int 1)
      | raw => evalIntExpr numberToString raw scope "for.step"
      end = Ok (int stride) ->
      getProp "steps" step = Some (JArr body) ->
      exactLoop from to stride ->
      executeForStep numberToString exec step scope defs st callDepth
      = if stride =? 0 then (st, Thrown ForStepCannotBeZero)
        else runIterations exec (iterationValues from to stride) body varName scope
               defs callDepth st)
  /\ (forall numberToString exec step scope defs st callDepth text from to,
        stringOr numberToString (getProp "var" step) "" = Ok text ->
        JsString.trim text <> "" ->
        evalIntExpr numberToString (getProp "from" step) scope "for.from" = Ok from ->
        evalIntExpr numberToString (getProp "to" step) scope "for.to" = Ok to ->
        evalIntExpr numberToString (getProp "step" step) scope "for.step"
        = Ok (int 0) ->
        executeForStep numberToString exec step scope defs st callDepth
        = (st, Thrown ForStepCannotBeZero))
  /\ (forall from to stride (k : nat),
        (k < List.length (iterationValues from to stride))%nat ->
        nth_error (iterationValues from to stride) k
        = Some (from + Z.of_nat k * stride))
  /\ (forall from to stride (k : nat),
        0 < stride ->
        (k < List.length (iterationValues from to stride))%nat
        <-> from + Z.of_nat k * stride <= to)
  /\ (forall from to stride (k : nat),
        stride < 0 ->
        (k < List.length (iterationValues from to stride))%nat
        <-> to <= from + Z.of_nat k * stride)
  /\ parseBlocksFromResponse decimalNumberToString DEFAULT_ALLOWED_BLOCK_TYPES
       (JObj [("steps", JArr [forStep "i" (num 0) (num 4) [placeAtX (JStr "i")]])])
     = Ok [stoneAt 0; stoneAt 1; stoneAt 2; stoneAt 3; stoneAt 4]
  /\ parseBlocksFromResponse decimalNumberToString DEFAULT_ALLOWED_BLOCK_TYPES
       (JObj [("steps", JArr [forStepBy "i" (num 4) (num 0) (num (-1))
                                [placeAtX (JStr "i")]])])
     = Ok [stoneAt 4; stoneAt 3; stoneAt 2; stoneAt 1; stoneAt 0]
  /\ parseBlocksFromResponse decimalNumberToString DEFAULT_ALLOWED_BLOCK_TYPES
       (JObj [("steps", JArr [forStepBy "i" (num 0) (num 4) (num 0)
                                [placeAtX (JStr "i")]])])
     = Err ForStepCannotBeZero.
Proof.
  split; [intros; eapply executeForStep_runs; eassumption|].
  split.
  { intros numberToString exec step scope defs st callDepth text from to
      Htext Hne Hfrom Hto Hstride.
    unfold executeForStep. rewrite Htext. cbv zeta.
    apply String.eqb_neq in Hne. rewrite Hne, Hfrom, Hto.
    destruct (getProp "step" step) as [raw|] eqn:Hraw.
    - rewrite Hstride. reflexivity.
    - unfold evalIntExpr in Hstride. discriminate Hstride. }
  split.
  { intros from to stride k Hk. apply iterationValues_nth.
    now rewrite <- iterationValues_length. }
  split.
  { intros from to stride k Hs. rewrite iterationValues_length.
    now apply iterationCount_asc_bound. }
  split.
  { intros from to stride k Hs. rewrite iterationValues_length.
    now apply iterationCount_desc_bound. }
  repeat split; vm_compute; reflexivity.
Qed.

(** [for i from 0 to 4] around [place x: "i"]. *)
Lemma for_step_iterates_witness :
  executeForStep decimalNumberToString
    (executeSteps decimalNumberToString DEFAULT_ALLOWED_BLOCK_TYPES 3)
    [("op", JStr "for"); ("var", JStr "i"); ("from", num 0); ("to", num 4);
     ("steps", JArr [placeAtX (JStr "i")])]
    ∅ ∅ emptyState 0
  = runIterations (executeSteps decimalNumberToString DEFAULT_ALLOWED_BLOCK_TYPES 3)
      (iterationValues 0 4 1) [placeAtX (JStr "i")] "i" ∅ ∅ 0 emptyState.
Proof.
  apply (proj1 for_step_iterates decimalNumberToString
           (executeSteps decimalNumberToString DEFAULT_ALLOWED_BLOCK_TYPES 3)
           [("op", JStr "for"); ("var", JStr "i"); ("from", num 0); ("to", num 4);
            ("steps", JArr [placeAtX (JStr "i")])]
           ∅ ∅ emptyState 0 "i" "i" 0 4 1 [placeAtX (JStr "i")]);
    [reflexivity|reflexivity|discriminate|reflexivity|reflexivity|reflexivity
    |reflexivity|split; vm_compute; discriminate].
Defined.
(** ** Call arguments *)


Lemma trimEnd_decompose (s : string) :
  exists post, s = (JsString.trimEnd s ++ post)%string
               /\ JsString.forallb JsString.isWhitespace post = true.
Proof.
  induction s as [|c r (post & Hr & Hpost)]; [now exists ""|].
  simpl. destruct (JsString.trimEnd r) as [|c' r'] eqn:Ht.
  - change ("" ++ post)%string with post in Hr. subst post.
    destruct (JsString.isWhitespace c) eqn:Hc.
    + exists (String c r). split; [reflexivity|]. simpl. now rewrite Hc.
    + exists r. now split.
  - exists post. split; [|exact Hpost].
    change (String c r = String c (String c' r' ++ post)%string). now rewrite <- Hr.
Qed.

Lemma dropWhile_decompose (p : ascii -> bool) (s : string) :
  s = (JsString.takeWhile p s ++ JsString.dropWhile p s)%string
  /\ JsString.forallb p (JsString.takeWhile p s) = true.
Proof.
  induction s as [|c r [IH1 IH2]]; [now split|].
  simpl. destruct (p c) eqn:Hc; [|now split].
  split; [|simpl; now rewrite Hc, IH2].
  change (String c r
          = String c (JsString.takeWhile p r ++ JsString.dropWhile p r)%string).
  now rewrite <- IH1.
Qed.

(** [trim] removes whitespace at both ends and nothing else. *)
Lemma trim_decompose (s : string) :
  exists pre post,
    s = (pre ++ JsString.trim s ++ post)%string
    /\ JsString.forallb JsString.isWhitespace pre = true
    /\ JsString.forallb JsString.isWhitespace post = true.
Proof.
  destruct (dropWhile_decompose JsString.isWhitespace s) as [Hs Hpre].
  destruct (trimEnd_decompose (JsString.dropWhile JsString.isWhitespace s))
    as (post & Hd & Hpost).
  exists (JsString.takeWhile JsString.isWhitespace s), post.
  unfold JsString.trim. now rewrite <- Hd, <- Hs.
Qed.





(** ** The catalog is never empty *)

(** [supportedBlockTypes] starts as the built-in palette and is only ever
    replaced by a non-empty list. *)
Lemma supported_catalog_nonempty (blockIds current : list string) :
  DEFAULT_ALLOWED_BLOCK_TYPES <> []
  /\ (current <> [] -> setSupportedBlockCatalog blockIds current <> []).
Proof.
  split; [discriminate|]. intros Hc. unfold setSupportedBlockCatalog.
  now destruct (normalizeBlockCatalog blockIds).
Qed.

(** ** Instances *)



(** The 50001st step throws, whatever it is. *)
Lemma budget_counters_witness :
  stepsLoop decimalNumberToString DEFAULT_ALLOWED_BLOCK_TYPES
    (executeSteps decimalNumberToString DEFAULT_ALLOWED_BLOCK_TYPES 3)
    [JNull; stoneAtOrigin] ∅ ∅
    {| out := []; budget := {| executedSteps := 50000; calls := 0 |} |} 0
  = ({| out := []; budget := {| executedSteps := 50001; calls := 0 |} |},
     Thrown ExceededMaxExecutedSteps).
Proof.
  apply (proj1 (proj2 (budget_counters decimalNumberToString
                        DEFAULT_ALLOWED_BLOCK_TYPES)));
    [reflexivity|unfold MAX_EXECUTED_STEPS; simpl; lia].
Defined.

(** Entering a step list at call depth 25. *)
Lemma call_depth_ceiling_witness :
  executeSteps decimalNumberToString DEFAULT_ALLOWED_BLOCK_TYPES 1 [stoneAtOrigin] ∅ ∅
    emptyState 25
  = (emptyState, Thrown ExceededMaxCallDepth).
Proof.
  apply (proj1 call_depth_ceiling decimalNumberToString DEFAULT_ALLOWED_BLOCK_TYPES).
  unfold MAX_CALL_DEPTH. lia.
Defined.

(** [mixedDocument]: the program throws, the legacy blocks are parsed. *)
Lemma dispatch_compact_then_legacy_witness :
  parseBlocksFromResponse decimalNumberToString DEFAULT_ALLOWED_BLOCK_TYPES
    (JObj mixedDocument)
  = (let* blocks :=
       normalizeLegacyBlocks decimalNumberToString DEFAULT_ALLOWED_BLOCK_TYPES
         [legacyEntry (num 7) (num 8) (num 9) (JStr "minecraft:dirt")] in
     Ok (sliceToMax blocks)).
Proof.
  destruct (dispatch_compact_then_legacy decimalNumberToString
              DEFAULT_ALLOWED_BLOCK_TYPES mixedDocument) as (Hcompact & _).
  destruct (Hcompact eq_refl) as (_ & Hfallback & _).
  apply (Hfallback (UnsupportedExpression "q" "place.x" (UnknownVariable "q")));
    [vm_compute|]; reflexivity.
Defined.

(** * Further properties of the interpreter *)

(** ** The output only grows, and never beyond the cap *)

Lemma executeSteps_out numberToString supportedBlockTypes fuel steps scope defs st
    callDepth :
  (exists added,
      out (fst (executeSteps numberToString supportedBlockTypes fuel steps scope defs
                  st callDepth))
      = out st ++ added)
  /\ (Z.of_nat (List.length (out st)) <= MAX_BLOCKS ->
      Z.of_nat (List.length
                  (out (fst (executeSteps numberToString supportedBlockTypes fuel steps
                               scope defs st callDepth))))
      <= MAX_BLOCKS).
Proof.
  apply (executeSteps_inv numberToString supportedBlockTypes
           (fun st r =>
              (exists added, out (fst r) = out st ++ added)
              /\ (Z.of_nat (List.length (out st)) <= MAX_BLOCKS ->
                  Z.of_nat (List.length (out (fst r))) <= MAX_BLOCKS)));
    unfold throw; simpl.
  - intros s. split; [exists []; now rewrite app_nil_r|tauto].
  - intros s s1 [s2 c] [[a1 H1] C1] [[a2 H2] C2]. simpl in *. split.
    + exists (a1 ++ a2). now rewrite H2, H1, app_assoc.
    + tauto.
  - intros s e _. split; [exists []; now rewrite app_nil_r|tauto].
  - intros s. split; [exists []; now rewrite app_nil_r|tauto].
  - intros s. destruct (MAX_EXECUTED_STEPS <? _); simpl;
      (split; [exists []; now rewrite app_nil_r|tauto]).
  - intros s. destruct (MAX_CALLS <? _); simpl;
      (split; [exists []; now rewrite app_nil_r|tauto]).
  - intros s block Hfull. split; [now exists [block]|].
    intros _. unfold outIsFull in Hfull. apply Z.leb_gt in Hfull.
    rewrite length_app. simpl. lia.
Qed.

(** Whatever the steps do, and also when they throw, the blocks that were in
    the output before are still there, in the same places: [executeSteps]
    only appends. *)
Theorem executeSteps_only_appends numberToString supportedBlockTypes fuel steps scope
    defs st callDepth :
  exists added,
    out (fst (executeSteps numberToString supportedBlockTypes fuel steps scope defs st
                callDepth))
    = out st ++ added.
Proof. apply executeSteps_out. Qed.

Lemma expandCompactProgram_length numberToString supportedBlockTypes program blocks :
  expandCompactProgram numberToString supportedBlockTypes program = Expanded blocks ->
  (List.length blocks <= Z.to_nat MAX_BLOCKS)%nat.
Proof.
  unfold expandCompactProgram.
  destruct (match getProp "defs" program with
            | Some (JArr rawDefs) => _ | _ => _ end) as [defs|err];
    [|discriminate].
  destruct (getProp "steps" program) as [[| | | |steps|]|]; try discriminate.
  pose proof (proj2 (executeSteps_out numberToString supportedBlockTypes executeFuel
                       steps ∅ defs emptyState 0)) as Hcap.
  destruct (executeSteps _ _ executeFuel steps ∅ defs emptyState 0) as [st' [|e]];
    [|destruct (genuine e); discriminate].
  intros H; injection H as <-. simpl in Hcap.
  unfold MAX_BLOCKS in *. lia.
Qed.

(** A compact program never expands to more than [MAX_BLOCKS] blocks, so the
    [slice(0, MAX_BLOCKS)] of [parseBlocksFromResponse] leaves an expansion
    as it is; and whatever the document, [parseBlocksFromResponse] returns at
    most [MAX_BLOCKS] blocks. *)
Theorem output_within_cap numberToString supportedBlockTypes :
  (forall program blocks,
      expandCompactProgram numberToString supportedBlockTypes program
      = Expanded blocks ->
      (List.length blocks <= Z.to_nat MAX_BLOCKS)%nat
      /\ sliceToMax blocks = blocks)
  /\ (forall raw blocks,
        parseBlocksFromResponse numberToString supportedBlockTypes raw = Ok blocks ->
        (List.length blocks <= Z.to_nat MAX_BLOCKS)%nat).
Proof.
  assert (Hslice : forall blocks : list Block.t,
             (List.length (sliceToMax blocks) <= Z.to_nat MAX_BLOCKS)%nat).
  { intros blocks. unfold sliceToMax. rewrite length_firstn. lia. }
  split.
  - intros program blocks Hx.
    pose proof (expandCompactProgram_length _ _ _ _ Hx) as Hlen.
    split; [exact Hlen|]. unfold sliceToMax. now apply firstn_all2.
  - intros raw blocks. unfold parseBlocksFromResponse.
    destruct raw as [| | | | |doc]; try discriminate. cbv zeta.
    assert (Hlegacy : forall rawBlocks,
               (let* bs := normalizeLegacyBlocks numberToString supportedBlockTypes
                             rawBlocks in Ok (sliceToMax bs)) = Ok blocks ->
               (List.length blocks <= Z.to_nat MAX_BLOCKS)%nat).
    { intros rawBlocks.
      destruct (normalizeLegacyBlocks _ _ rawBlocks) as [bs|e]; simpl; [|discriminate].
      intros H; injection H as <-. apply Hslice. }
    destruct (isArrayProp "steps" doc || isArrayProp "defs" doc).
    + destruct (expandCompactProgram _ _ doc) as [bs|err|].
      * intros H; injection H as <-. apply Hslice.
      * destruct (getProp "blocks" doc) as [[| | | |rawBlocks|]|]; try discriminate.
        apply Hlegacy.
      * discriminate.
    + destruct (getProp "blocks" doc) as [[| | | |rawBlocks|]|]; try discriminate.
      apply Hlegacy.
Qed.

(** ** The evaluator and whitespace *)

Lemma tokenizeFrom_fuel (fuel1 : nat) :
  forall (fuel2 : nat) (s : string) (acc : list ExprToken),
    (String.length s < fuel1)%nat -> (String.length s < fuel2)%nat ->
    tokenizeFrom fuel1 s acc = tokenizeFrom fuel2 s acc.
Proof.
  induction fuel1 as [|fuel1 IH]; intros fuel2 s acc H1 H2; [lia|].
  destruct fuel2 as [|fuel2]; [lia|].
  destruct s as [|ch rest]; [reflexivity|]. simpl in H1, H2. cbn [tokenizeFrom].
  pose proof (dropWhile_length JsString.isDigit rest) as Hd.
  pose proof (dropWhile_length JsString.isIdentPart rest) as Hi.
  destruct (JsString.isWhitespace ch); [apply IH; lia|].
  destruct (JsString.isDigit ch); [apply IH; lia|].
  destruct (JsString.isIdentStart ch); [apply IH; lia|].
  destruct (operatorOfChar ch); [apply IH; lia|].
  destruct (JsString.code ch =? 40)%N; [apply IH; lia|].
  destruct (JsString.code ch =? 41)%N; [apply IH; lia|].
  reflexivity.
Qed.

Lemma tokenizeFrom_leading (pre s : string) (acc : list ExprToken) :
  JsString.forallb JsString.isWhitespace pre = true ->
  tokenizeFrom (S (String.length (pre ++ s))) (pre ++ s)%string acc
  = tokenizeFrom (S (String.length s)) s acc.
Proof.
  induction pre as [|c pre IH]; intros Hpre; [reflexivity|].
  simpl in Hpre. apply andb_true_iff in Hpre as [Hc Hpre].
  change (String c pre ++ s)%string with (String c (pre ++ s)%string).
  cbn [tokenizeFrom String.length]. rewrite Hc. now apply IH.
Qed.

Lemma whitespace_not_digit c :
  JsString.isWhitespace c = true -> JsString.isDigit c = false.
Proof.
  unfold JsString.isWhitespace, JsString.isDigit, JsString.inRange, JsString.code.
  destruct (N_of_ascii c) as [|p] eqn:E; [discriminate|].
  intros H. apply orb_true_iff in H as [H|H].
  - apply orb_true_iff in H as [H|H].
    + apply andb_true_iff in H as [_ H]. apply N.leb_le in H.
      apply andb_false_iff. left. apply N.leb_gt. lia.
    + apply N.eqb_eq in H. rewrite H. reflexivity.
  - apply N.eqb_eq in H. rewrite H. reflexivity.
Qed.

Lemma whitespace_not_identPart c :
  JsString.isWhitespace c = true -> JsString.isIdentPart c = false.
Proof.
  intros H. unfold JsString.isIdentPart. rewrite (whitespace_not_digit c H).
  revert H.
  unfold JsString.isWhitespace, JsString.isIdentStart, JsString.inRange, JsString.code.
  intros H. apply orb_true_iff in H as [H|H].
  - apply orb_true_iff in H as [H|H].
    + apply andb_true_iff in H as [_ H]. apply N.leb_le in H.
      replace (65 <=? N_of_ascii c)%N with false by (symmetry; apply N.leb_gt; lia).
      replace (97 <=? N_of_ascii c)%N with false by (symmetry; apply N.leb_gt; lia).
      replace (N_of_ascii c =? 95)%N with false by (symmetry; apply N.eqb_neq; lia).
      reflexivity.
    + apply N.eqb_eq in H. rewrite H. reflexivity.
  - apply N.eqb_eq in H. rewrite H. reflexivity.
Qed.

Lemma takeWhile_before (p : ascii -> bool) (s post : string) :
  match post with String c _ => p c = false | EmptyString => True end ->
  JsString.takeWhile p (s ++ post) = JsString.takeWhile p s
  /\ JsString.dropWhile p (s ++ post) = (JsString.dropWhile p s ++ post)%string.
Proof.
  intros Hpost. induction s as [|c r [IH1 IH2]].
  - simpl. destruct post as [|c post]; [now split|]. simpl. now rewrite Hpost.
  - change (String c r ++ post)%string with (String c (r ++ post)%string). simpl.
    destruct (p c); [|now split]. now rewrite IH1, IH2.
Qed.

Lemma tokenizeFrom_trailing (fuel : nat) :
  forall (s post : string) (acc : list ExprToken),
    (String.length (s ++ post) < fuel)%nat ->
    JsString.forallb JsString.isWhitespace post = true ->
    tokenizeFrom fuel (s ++ post)%string acc = tokenizeFrom fuel s acc.
Proof.
  induction fuel as [|fuel IH]; intros s post acc Hlen Hpost; [lia|].
  destruct s as [|ch rest].
  - clear IH. change ("" ++ post)%string with post in *.
    revert fuel Hlen. induction post as [|c post IHp]; intros fuel Hlen; [reflexivity|].
    simpl in Hpost. apply andb_true_iff in Hpost as [Hc Hpost].
    cbn [tokenizeFrom]. rewrite Hc. simpl in Hlen.
    destruct fuel as [|fuel]; [lia|]. rewrite (IHp Hpost fuel ltac:(lia)).
    reflexivity.
  - change (String ch rest ++ post)%string with (String ch (rest ++ post)%string) in *.
    simpl in Hlen. cbn [tokenizeFrom].
    assert (Hd : match post with
                 | String c _ => JsString.isDigit c = false
                 | EmptyString => True
                 end).
    { destruct post as [|c post]; [exact I|]. simpl in Hpost.
      apply andb_true_iff in Hpost as [Hc _]. now apply whitespace_not_digit. }
    assert (Hi : match post with
                 | String c _ => JsString.isIdentPart c = false
                 | EmptyString => True
                 end).
    { destruct post as [|c post]; [exact I|]. simpl in Hpost.
      apply andb_true_iff in Hpost as [Hc _]. now apply whitespace_not_identPart. }
    destruct (takeWhile_before JsString.isDigit rest post Hd) as [Hd1 Hd2].
    destruct (takeWhile_before JsString.isIdentPart rest post Hi) as [Hi1 Hi2].
    rewrite Hd1, Hd2, Hi1, Hi2.
    pose proof (dropWhile_length JsString.isDigit (rest ++ post)) as Ld.
    pose proof (dropWhile_length JsString.isIdentPart (rest ++ post)) as Li.
    rewrite Hd2 in Ld. rewrite Hi2 in Li.
    destruct (JsString.isWhitespace ch); [apply IH; [lia|exact Hpost]|].
    destruct (JsString.isDigit ch); [apply IH; [lia|exact Hpost]|].
    destruct (JsString.isIdentStart ch); [apply IH; [lia|exact Hpost]|].
    destruct (operatorOfChar ch); [apply IH; [lia|exact Hpost]|].
    destruct (JsString.code ch =? 40)%N; [apply IH; [lia|exact Hpost]|].
    destruct (JsString.code ch =? 41)%N; [apply IH; [lia|exact Hpost]|].
    reflexivity.
Qed.

Lemma string_length_app (a b : string) :
  String.length (a ++ b) = (String.length a + String.length b)%nat.
Proof. induction a as [|c a IH]; simpl; [reflexivity|]. now rewrite IH. Qed.

Lemma tokenizeExpression_trim (s : string) :
  tokenizeExpression (JsString.trim s) = tokenizeExpression s.
Proof.
  destruct (trim_decompose s) as (pre & post & Hs & Hpre & Hpost).
  symmetry. rewrite Hs at 1. unfold tokenizeExpression.
  rewrite (tokenizeFrom_leading pre _ [] Hpre).
  rewrite tokenizeFrom_trailing; [|lia|exact Hpost].
  apply tokenizeFrom_fuel; rewrite ?string_length_app; lia.
Qed.

Lemma evaluator_trim numberToString (s : string) (scope : Scope) (field : string) :
  evaluateIntegerExpression numberToString (JsString.trim s) scope field
  = evaluateIntegerExpression numberToString s scope field.
Proof. unfold evaluateIntegerExpression. now rewrite tokenizeExpression_trim. Qed.

(** Whitespace around an expression changes nothing: the evaluator gives the
    same outcome for a string and for its trimmed text (so the [trim] that
    [evalIntExpr] and [evalCallArgValue] apply first only matters for their
    emptiness test and for the text that is reported or passed on). *)
Theorem evaluator_ignores_outer_whitespace (numberToString : JsNumber -> string)
    (s : string) (scope : Scope) (field : string) :
  evaluateIntegerExpression numberToString (JsString.trim s) scope field
  = evaluateIntegerExpression numberToString s scope field.
Proof. apply evaluator_trim. Qed.

(** ** Numbers written in decimal *)

Lemma parseDigitsFrom_uint (d : Decimal.uint) :
  forall acc : nat,
    JsString.parseDigitsFrom (Z.of_nat acc) (NilEmpty.string_of_uint d)
    = Z.of_nat (Nat.of_uint_acc d acc).
Proof.
  induction d as [|d IH|d IH|d IH|d IH|d IH|d IH|d IH|d IH|d IH|d IH];
    intros acc; [reflexivity|..];
    cbn [NilEmpty.string_of_uint JsString.parseDigitsFrom Nat.of_uint_acc];
    rewrite Nat.tail_mul_spec, <- IH; f_equal;
    unfold JsString.digitValue, JsString.code; simpl N_of_ascii; lia.
Qed.

Lemma string_of_uint_digits (d : Decimal.uint) :
  JsString.forallb JsString.isDigit (NilEmpty.string_of_uint d) = true.
Proof. induction d; simpl; auto. Qed.

Lemma decimal_isDigits (n : nat) : JsString.isDigits (decimal n) = true.
Proof.
  unfold decimal, NilZero.string_of_uint.
  destruct (Nat.to_uint n) as [|d|d|d|d|d|d|d|d|d|d] eqn:E; [reflexivity|..];
    apply (string_of_uint_digits (_ d)).
Qed.

Lemma decimal_value (n : nat) :
  JsString.parseDigitsFrom 0 (decimal n) = Z.of_nat n.
Proof.
  unfold decimal, NilZero.string_of_uint.
  pose proof (DecimalNat.Unsigned.of_to n) as Hn. unfold Nat.of_uint in Hn.
  destruct (Nat.to_uint n) as [|d|d|d|d|d|d|d|d|d|d] eqn:E;
    [simpl in Hn; now subst n|..];
    rewrite <- Hn; apply (parseDigitsFrom_uint (_ d) 0).
Qed.

Lemma takeWhile_all (p : ascii -> bool) (s : string) :
  JsString.forallb p s = true ->
  JsString.takeWhile p s = s /\ JsString.dropWhile p s = "".
Proof.
  induction s as [|c r IH]; simpl; [now split|].
  intros H. apply andb_true_iff in H as [Hc Hr]. rewrite Hc.
  destruct (IH Hr) as [-> ->]. now split.
Qed.

Lemma digit_not_whitespace c :
  JsString.isDigit c = true -> JsString.isWhitespace c = false.
Proof.
  intros Hd. destruct (JsString.isWhitespace c) eqn:Hw; [|reflexivity].
  apply whitespace_not_digit in Hw. congruence.
Qed.

Lemma digit_not_minus c r :
  JsString.isDigit c = true -> JsString.integerOfDigits (String c r)
                               = JsString.parseDigitsFrom 0 (String c r).
Proof.
  intros Hd. unfold JsString.integerOfDigits.
  destruct c as [[] [] [] [] [] [] [] []]; try reflexivity; discriminate Hd.
Qed.

(** A string of digits is one number token. *)
Lemma tokenizeFrom_digits (fuel : nat) (s : string) (acc : list ExprToken) :
  JsString.isDigits s = true ->
  tokenizeFrom (S (S fuel)) s acc
  = Ok (acc ++ [TNumber (JsNum.round (JsString.parseDigitsFrom 0 s))]).
Proof.
  destruct s as [|c r]; [discriminate|]. intros H. simpl in H.
  apply andb_true_iff in H as [Hc Hr]. cbn [tokenizeFrom].
  rewrite (digit_not_whitespace c Hc), Hc.
  destruct (takeWhile_all _ _ Hr) as [-> ->].
  unfold JsString.parseInt. rewrite (digit_not_minus c r Hc).
  now destruct (acc ++ [TNumber (JsNum.round (JsString.parseDigitsFrom 0 (String c r)))])
    eqn:E; [destruct acc; discriminate E|].
Qed.

Lemma trimEnd_solid (s : string) :
  JsString.forallb (fun c => negb (JsString.isWhitespace c)) s = true ->
  JsString.trimEnd s = s.
Proof.
  induction s as [|c r IH]; [reflexivity|]. simpl. intros H.
  apply andb_true_iff in H as [Hc Hr]. rewrite (IH Hr).
  destruct r; [|reflexivity]. now destruct (JsString.isWhitespace c).
Qed.

Lemma trim_solid (s : string) :
  JsString.forallb (fun c => negb (JsString.isWhitespace c)) s = true ->
  JsString.trim s = s.
Proof.
  intros H. unfold JsString.trim.
  replace (JsString.dropWhile JsString.isWhitespace s) with s;
    [now apply trimEnd_solid|].
  destruct s as [|c r]; [reflexivity|]. simpl in *.
  apply andb_true_iff in H as [Hc _]. now destruct (JsString.isWhitespace c).
Qed.

Lemma forallb_impl (p q : ascii -> bool) (s : string) :
  (forall c, p c = true -> q c = true) ->
  JsString.forallb p s = true -> JsString.forallb q s = true.
Proof.
  intros Hpq. induction s as [|c r IH]; simpl; [trivial|].
  intros H. apply andb_true_iff in H as [Hc Hr]. now rewrite (Hpq c Hc), IH.
Qed.

Lemma digits_solid (s : string) :
  JsString.forallb JsString.isDigit s = true ->
  JsString.forallb (fun c => negb (JsString.isWhitespace c)) s = true.
Proof.
  apply forallb_impl. intros c Hc. now rewrite (digit_not_whitespace c Hc).
Qed.

Lemma isDigits_forallb (s : string) :
  JsString.isDigits s = true -> JsString.forallb JsString.isDigit s = true.
Proof. now destruct s. Qed.

Lemma tokenizeFrom_minus (fuel : nat) (s : string) (acc : list ExprToken) :
  tokenizeFrom (S fuel) (String "-" s) acc = tokenizeFrom fuel s (acc ++ [TOp OpSub]).
Proof. reflexivity. Qed.

Lemma scope_lookup_insert (scope : Scope) (name : string) (v : ScopeValue) :
  (<[name := v]> scope) !! name = Some v.
Proof. apply lookup_insert_eq. Qed.

Lemma scope_lookup_insert_ne (scope : Scope) (name other : string) (v : ScopeValue) :
  name <> other -> (<[name := v]> scope) !! other = scope !! other.
Proof. apply lookup_insert_ne. Qed.

(** The decimal text of an integer evaluates to that integer, in every
    scope; and a variable bound to that text (a string) reads as the
    integer.  Numbers therefore survive being passed as strings. *)

(** The decimal text of an integer evaluates to the double nearest to that
    integer, in every scope, and a variable bound to that text (a string)
    reads as the same number.  Within the exact range the number is the
    integer itself, so that such numbers survive being passed as strings;
    [2^53 + 1] does not. *)
Theorem decimal_text_round_trip (numberToString : JsNumber -> string) (z : Z)
    (scope : Scope) (field name : string) :
  evaluateIntegerExpression numberToString
    (decimalNumberToString (Finite (inject_Z z))) scope field
  = Ok (SNum (JsNum.round z))
  /\ lookupVariable
       (<[name := SStr (decimalNumberToString (Finite (inject_Z z)))]> scope) name
     = Ok (SNum (JsNum.round z))
  /\ (JsNum.exact z -> JsNum.round z = Int z)
  /\ JsNum.round 9007199254740993 = Int 9007199254740992.
Proof.
  split; [|split; [|split; [apply round_exact|vm_compute; reflexivity]]].
  - unfold decimalNumberToString, mathTrunc. cbn [inject_Z Qnum Qden].
    rewrite Z.quot_1_r.
    destruct (z <? 0) eqn:Hz; [apply Z.ltb_lt in Hz|apply Z.ltb_ge in Hz].
    + pose proof (decimal_isDigits (Z.to_nat (- z))) as Hd.
      pose proof (decimal_value (Z.to_nat (- z))) as Hv.
      rewrite Z2Nat.id in Hv by lia.
      destruct (decimal (Z.to_nat (- z))) as [|c r]; [discriminate Hd|].
      change ("-" ++ String c r)%string with (String "-" (String c r)).
      rewrite (evaluate_complete numberToString _ scope field
                 (E_term (T_factor (F_signed Minus (F_number (JsNum.round (- z))))))).
      * cbn [valueExpr valueTerm valueFactor bindR toNumber].
        unfold JsNum.round. rewrite truncOfRatio_opp.
        now destruct (JsNum.truncOfRatio z 1) as [v| | |]; cbn [JsNum.neg];
          rewrite ?Z.opp_involutive.
      * unfold tokenizeExpression.
        change (String.length (String "-" (String c r)))
          with (S (S (String.length r))).
        rewrite tokenizeFrom_minus, tokenizeFrom_digits by exact Hd.
        now rewrite Hv.
    + pose proof (decimal_isDigits (Z.to_nat z)) as Hd.
      pose proof (decimal_value (Z.to_nat z)) as Hv.
      rewrite Z2Nat.id in Hv by lia.
      destruct (decimal (Z.to_nat z)) as [|c r]; [discriminate Hd|].
      rewrite (evaluate_complete numberToString _ scope field
                 (E_term (T_factor (F_number (JsNum.round z))))); [reflexivity|].
      unfold tokenizeExpression.
      change (String.length (String c r)) with (S (String.length r)).
      rewrite tokenizeFrom_digits by exact Hd.
      now rewrite Hv.
  - unfold decimalNumberToString, mathTrunc. cbn [inject_Z Qnum Qden].
    rewrite Z.quot_1_r. unfold lookupVariable, scopeGet.
    rewrite scope_lookup_insert.
    destruct (z <? 0) eqn:Hz; [apply Z.ltb_lt in Hz|apply Z.ltb_ge in Hz].
    + pose proof (decimal_isDigits (Z.to_nat (- z))) as Hd.
      pose proof (decimal_value (Z.to_nat (- z))) as Hv.
      rewrite Z2Nat.id in Hv by lia.
      destruct (decimal (Z.to_nat (- z))) as [|c r]; [discriminate Hd|].
      change ("-" ++ String c r)%string with (String "-" (String c r)).
      rewrite trim_solid.
      * unfold JsString.isSignedDigits, JsString.parseInt, JsString.integerOfDigits.
        rewrite Hd, Hv. now rewrite Z.opp_involutive.
      * change (JsString.forallb (fun c => negb (JsString.isWhitespace c))
                  (String c r) = true).
        apply digits_solid, isDigits_forallb, Hd.
    + pose proof (decimal_isDigits (Z.to_nat z)) as Hd.
      pose proof (decimal_value (Z.to_nat z)) as Hv.
      rewrite Z2Nat.id in Hv by lia.
      destruct (decimal (Z.to_nat z)) as [|c r]; [discriminate Hd|].
      assert (Hc : JsString.isDigit c = true).
      { simpl in Hd. now apply andb_true_iff in Hd as [Hc _]. }
      rewrite trim_solid by (apply digits_solid, isDigits_forallb, Hd).
      unfold JsString.parseInt. rewrite (digit_not_minus c r Hc), Hv.
      replace (JsString.isSignedDigits (String c r)) with true; [reflexivity|].
      unfold JsString.isSignedDigits.
      destruct c as [[] [] [] [] [] [] [] []]; try (now rewrite Hd);
        discriminate Hc.
Qed.
(** ** Only the variables an expression names matter *)

Section ScopeAgreement.

Variable numberToString : JsNumber -> string.
Variables scope1 scope2 : Scope.
Variable field : string.

Lemma scopesAgreeOn_tail (t : ExprToken) (tokens : list ExprToken) :
  scopesAgreeOn scope1 scope2 (t :: tokens) -> scopesAgreeOn scope1 scope2 tokens.
Proof. intros H name Hin. apply H. now right. Qed.

Lemma scopesAgreeOn_suffix (consumed rest : list ExprToken) :
  scopesAgreeOn scope1 scope2 (consumed ++ rest) -> scopesAgreeOn scope1 scope2 rest.
Proof. intros H name Hin. apply H, in_or_app. now right. Qed.

Lemma parse_agree (fuel : nat) :
  (forall ts, scopesAgreeOn scope1 scope2 ts ->
      parseExpression numberToString scope1 field fuel ts = parseExpression numberToString scope2 field fuel ts)
  /\ (forall acc ts, scopesAgreeOn scope1 scope2 ts ->
        parseExpressionLoop numberToString scope1 field fuel acc ts
        = parseExpressionLoop numberToString scope2 field fuel acc ts)
  /\ (forall ts, scopesAgreeOn scope1 scope2 ts ->
        parseTerm numberToString scope1 field fuel ts = parseTerm numberToString scope2 field fuel ts)
  /\ (forall acc ts, scopesAgreeOn scope1 scope2 ts ->
        parseTermLoop numberToString scope1 field fuel acc ts
        = parseTermLoop numberToString scope2 field fuel acc ts)
  /\ (forall ts, scopesAgreeOn scope1 scope2 ts ->
        parseFactor numberToString scope1 field fuel ts = parseFactor numberToString scope2 field fuel ts).
Proof.
  induction fuel as [|fuel (IHE & IHEL & IHT & IHTL & IHF)];
    [repeat split; reflexivity|].
  destruct (parse_sound_all numberToString scope2 field fuel) as (SE & _ & ST & _ & SF).
  repeat split.
  - intros ts Hts. rewrite !parseExpression_S. rewrite (IHT ts Hts).
    destruct (parseTerm numberToString scope2 field fuel ts) as [[v rest]|err] eqn:E;
      [|reflexivity].
    cbn [bindR]. apply IHEL. destruct (ST _ _ _ E) as (t & -> & _).
    now apply scopesAgreeOn_suffix in Hts.
  - intros acc ts Hts. rewrite !parseExpressionLoop_S.
    destruct ts as [|[n|x|op| |] ts]; try reflexivity.
    destruct (isAdditive op); [|reflexivity].
    apply scopesAgreeOn_tail in Hts. rewrite (IHT ts Hts).
    destruct (parseTerm numberToString scope2 field fuel ts) as [[v rest]|err] eqn:E;
      [|reflexivity].
    cbn [bindR]. destruct (applyIntOp numberToString acc op v field); [|reflexivity].
    cbn [bindR]. apply IHEL. destruct (ST _ _ _ E) as (t & -> & _).
    now apply scopesAgreeOn_suffix in Hts.
  - intros ts Hts. rewrite !parseTerm_S. rewrite (IHF ts Hts).
    destruct (parseFactor numberToString scope2 field fuel ts) as [[v rest]|err] eqn:E;
      [|reflexivity].
    cbn [bindR]. apply IHTL. destruct (SF _ _ _ E) as (f & -> & _).
    now apply scopesAgreeOn_suffix in Hts.
  - intros acc ts Hts. rewrite !parseTermLoop_S.
    destruct ts as [|[n|x|op| |] ts]; try reflexivity.
    destruct (isMultiplicative op); [|reflexivity].
    apply scopesAgreeOn_tail in Hts. rewrite (IHF ts Hts).
    destruct (parseFactor numberToString scope2 field fuel ts) as [[v rest]|err] eqn:E;
      [|reflexivity].
    cbn [bindR]. destruct (applyIntOp numberToString acc op v field); [|reflexivity].
    cbn [bindR]. apply IHTL. destruct (SF _ _ _ E) as (f & -> & _).
    now apply scopesAgreeOn_suffix in Hts.
  - intros ts Hts. rewrite !parseFactor_S.
    destruct ts as [|[n|x|op| |] ts]; try reflexivity.
    + unfold lookupVariable, scopeGet. rewrite (Hts x); [reflexivity|now left].
    + apply scopesAgreeOn_tail in Hts. destruct op; try reflexivity; now rewrite (IHF ts Hts).
    + apply scopesAgreeOn_tail in Hts. now rewrite (IHE ts Hts).
Qed.

End ScopeAgreement.

(** The outcome of evaluating an expression (value or error) depends on the
    scope through the variables the expression names only: two scopes that
    agree on every identifier among its tokens give the same outcome.  So
    binding a variable the expression does not name, such as the variable of
    an enclosing loop, changes nothing. *)
Theorem evaluator_reads_named_variables_only (numberToString : JsNumber -> string)
    (expr : string) (tokens : list ExprToken) (scope1 scope2 : Scope) (field : string) :
  tokenizeExpression expr = Ok tokens ->
  scopesAgreeOn scope1 scope2 tokens ->
  evaluateIntegerExpression numberToString expr scope1 field
  = evaluateIntegerExpression numberToString expr scope2 field.
Proof.
  intros Ht Hts. unfold evaluateIntegerExpression. rewrite Ht. cbn [bindR].
  now rewrite (proj1 (parse_agree numberToString scope1 scope2 field (parseFuel tokens))
                 tokens Hts).
Qed.

(** ["x+1"] does not name [i]. *)
Lemma evaluator_reads_named_variables_only_witness :
  evaluateIntegerExpression decimalNumberToString "x+1" (<["i" := int 7]> scopeXZ)
    "place.x"
  = evaluateIntegerExpression decimalNumberToString "x+1" scopeXZ "place.x".
Proof.
  apply (evaluator_reads_named_variables_only decimalNumberToString "x+1"
           [TIdent "x"; TOp OpAdd; TNumber (Int 1)]).
  - reflexivity.
  - intros name [H|[H|[H|[]]]]; try discriminate H. injection H as <-.
    reflexivity.
Defined.

(** ** Arguments and parameters *)

Lemma identPart_not_whitespace c :
  JsString.isIdentPart c = true -> JsString.isWhitespace c = false.
Proof.
  intros Hi. destruct (JsString.isWhitespace c) eqn:Hw; [|reflexivity].
  apply whitespace_not_identPart in Hw. congruence.
Qed.

Lemma identStart_not_digit c :
  JsString.isIdentStart c = true -> JsString.isDigit c = false.
Proof.
  destruct c as [[] [] [] [] [] [] [] []]; try reflexivity; discriminate.
Qed.

Lemma identifier_solid (p : string) :
  JsString.isIdentifier p = true ->
  JsString.forallb (fun c => negb (JsString.isWhitespace c)) p = true.
Proof.
  destruct p as [|c r]; [discriminate|]. simpl. intros H.
  apply andb_true_iff in H as [Hc Hr]. apply andb_true_iff. split.
  - rewrite identPart_not_whitespace; [reflexivity|].
    unfold JsString.isIdentPart. now rewrite Hc.
  - revert Hr. apply forallb_impl. intros c' Hc'.
    now rewrite identPart_not_whitespace.
Qed.

(** An identifier is one token. *)
Lemma tokenizeExpression_identifier (p : string) :
  JsString.isIdentifier p = true -> tokenizeExpression p = Ok [TIdent p].
Proof.
  destruct p as [|c r]; [discriminate|]. intros H. simpl in H.
  apply andb_true_iff in H as [Hc Hr].
  unfold tokenizeExpression. cbn [tokenizeFrom String.length].
  rewrite identPart_not_whitespace
    by (unfold JsString.isIdentPart; now rewrite Hc).
  rewrite (identStart_not_digit c Hc), Hc.
  destruct (takeWhile_all _ _ Hr) as [-> ->]. reflexivity.
Qed.

Lemma evaluate_identifier numberToString (p : string) (scope : Scope) (field : string) :
  JsString.isIdentifier p = true ->
  evaluateIntegerExpression numberToString p scope field = lookupVariable scope p.
Proof.
  intros H. unfold evaluateIntegerExpression.
  rewrite (tokenizeExpression_identifier p H). cbn [bindR].
  change (parseFuel [TIdent p]) with 6%nat.
  rewrite parseExpression_S, parseTerm_S, parseFactor_S.
  now destruct (lookupVariable scope p).
Qed.

Lemma evalIntExpr_identifier numberToString (p : string) (scope : Scope)
    (field : string) :
  JsString.isIdentifier p = true ->
  evalIntExpr numberToString (Some (JStr p)) scope field
  = match lookupVariable scope p with
    | Ok n => Ok n
    | Err cause => Err (UnsupportedExpression p field cause)
    end.
Proof.
  intros H. unfold evalIntExpr.
  rewrite (trim_solid p (identifier_solid p H)).
  replace (String.eqb p "") with false by (now destruct p).
  now rewrite (evaluate_identifier numberToString p scope field H).
Qed.

Lemma parseInt_minus (r : string) :
  JsString.parseInt (String "-" r) = JsNum.neg (JsNum.round (JsString.parseDigitsFrom 0 r)).
Proof.
  unfold JsString.parseInt, JsString.integerOfDigits, JsNum.round.
  apply truncOfRatio_opp.
Qed.

Lemma evaluate_signed_digits numberToString (t : string) (scope : Scope)
    (field : string) :
  JsString.isSignedDigits t = true ->
  evaluateIntegerExpression numberToString t scope field
  = Ok (SNum (JsString.parseInt t)).
Proof.
  intros H. destruct t as [|c r]; [discriminate|].
  destruct (Ascii.eqb c "-") eqn:Hm.
  - apply Ascii.eqb_eq in Hm. subst c. cbn [JsString.isSignedDigits] in H.
    destruct r as [|c r]; [discriminate|].
    rewrite (evaluate_complete numberToString _ scope field
               (E_term (T_factor (F_signed Minus
                  (F_number (JsNum.round (JsString.parseDigitsFrom 0 (String c r)))))))).
    + now rewrite parseInt_minus.
    + unfold tokenizeExpression.
      change (String.length (String "-" (String c r))) with (S (S (String.length r))).
      now rewrite tokenizeFrom_minus, tokenizeFrom_digits by exact H.
  - assert (Hd : JsString.isDigits (String c r) = true).
    { destruct c as [[] [] [] [] [] [] [] []]; try exact H; discriminate Hm. }
    assert (Hp : JsString.parseInt (String c r)
                 = JsNum.round (JsString.parseDigitsFrom 0 (String c r))).
    { unfold JsString.parseInt, JsString.integerOfDigits.
      destruct c as [[] [] [] [] [] [] [] []]; try reflexivity; discriminate Hm. }
    rewrite (evaluate_complete numberToString _ scope field
               (E_term (T_factor
                  (F_number (JsNum.round (JsString.parseDigitsFrom 0 (String c r))))))).
    + now rewrite Hp.
    + unfold tokenizeExpression.
      change (String.length (String c r)) with (S (String.length r)).
      now rewrite tokenizeFrom_digits by exact Hd.
Qed.

(** What [lookupVariable] makes of the value of a property does not depend
    on the name of the property. *)
Lemma lookupVariable_value (scope1 scope2 : Scope) (name1 name2 : string)
    (bound v : ScopeValue) :
  scopeGet scope1 name1 = Some bound -> scopeGet scope2 name2 = Some bound ->
  lookupVariable scope1 name1 = Ok v <-> lookupVariable scope2 name2 = Ok v.
Proof.
  intros H1 H2. unfold lookupVariable. rewrite H1, H2.
  destruct bound as [m|s|m]; [tauto| |tauto].
  destruct (JsString.isSignedDigits (JsString.trim s)); [tauto|].
  split; discriminate.
Qed.

Lemma scopeGet_insert (scope : Scope) (name : string) (v : ScopeValue) :
  scopeGet (<[name := v]> scope) name = Some v.
Proof. unfold scopeGet. now rewrite scope_lookup_insert. Qed.

Lemma lookupVariable_insert_number (scope : Scope) (name : string) (v : ScopeValue) :
  (forall s, v <> SStr s) ->
  lookupVariable (<[name := v]> scope) name = Ok v.
Proof.
  intros Hv. unfold lookupVariable. rewrite scopeGet_insert.
  destruct v as [m|s|m]; [reflexivity| |reflexivity]. now destruct (Hv s).
Qed.

Lemma evalIntExpr_identifier_ok numberToString (p : string) (scope : Scope)
    (field : string) (v : ScopeValue) :
  JsString.isIdentifier p = true ->
  evalIntExpr numberToString (Some (JStr p)) scope field = Ok v
  <-> lookupVariable scope p = Ok v.
Proof.
  intros H. rewrite (evalIntExpr_identifier numberToString p scope field H).
  destruct (lookupVariable scope p); [tauto|]. split; discriminate.
Qed.

(** *** The strings of the evaluator *)

Lemma holdsBracket_app (a b : string) :
  holdsBracket (a ++ b) = holdsBracket a || holdsBracket b.
Proof.
  unfold holdsBracket. rewrite forallb_append.
  now destruct (JsString.forallb _ a), (JsString.forallb _ b).
Qed.

Lemma protoMemberText_holdsBracket (m : ProtoMember) :
  holdsBracket (protoMemberText m) = true.
Proof. destruct m; reflexivity. Qed.

Lemma jsAdd_evaluatorValue numberToString (a b : ScopeValue) :
  evaluatorValue a -> evaluatorValue b ->
  evaluatorValue (jsAdd numberToString a b).
Proof.
  destruct a as [x|s|m], b as [y|t|k]; cbn [jsAdd evaluatorValue textOfValue];
    intros Ha Hb; try exact I; rewrite holdsBracket_app;
    rewrite ?Ha, ?Hb, ?protoMemberText_holdsBracket, ?orb_true_r; reflexivity.
Qed.

Lemma applyIntOp_evaluatorValue numberToString a op b field v :
  evaluatorValue a -> evaluatorValue b ->
  applyIntOp numberToString a op b field = Ok v -> evaluatorValue v.
Proof.
  intros Ha Hb. destruct op; cbn [applyIntOp].
  - intros [= <-]. now apply jsAdd_evaluatorValue.
  - intros [= <-]. exact I.
  - intros [= <-]. exact I.
  - destruct (isZero b); [discriminate|]. intros [= <-]. exact I.
Qed.

Lemma lookupVariable_evaluatorValue (scope : Scope) (name : string) (v : ScopeValue) :
  lookupVariable scope name = Ok v -> evaluatorValue v.
Proof.
  unfold lookupVariable.
  destruct (scopeGet scope name) as [[n|s|m]|]; try discriminate.
  - intros [= <-]. exact I.
  - destruct (JsString.isSignedDigits _); [|discriminate]. intros [= <-]. exact I.
  - intros [= <-]. exact I.
Qed.

(** Every string the evaluator returns holds the text of an inherited
    value. *)
Lemma value_evaluatorValue numberToString (scope : Scope) (field : string) :
  (forall e v, valueExpr numberToString scope field e = Ok v -> evaluatorValue v)
  /\ (forall t v, valueTerm numberToString scope field t = Ok v -> evaluatorValue v)
  /\ (forall f v, valueFactor numberToString scope field f = Ok v -> evaluatorValue v).
Proof.
  apply grammar_mutind; simpl.
  - intros t IH. exact IH.
  - intros l IHl op r IHr v.
    destruct (valueExpr numberToString scope field l) as [a|]; [|discriminate].
    destruct (valueTerm numberToString scope field r) as [b|]; [|discriminate].
    cbn [bindR]. apply applyIntOp_evaluatorValue; [now apply IHl|now apply IHr].
  - intros f IH. exact IH.
  - intros l IHl op r IHr v.
    destruct (valueTerm numberToString scope field l) as [a|]; [|discriminate].
    destruct (valueFactor numberToString scope field r) as [b|]; [|discriminate].
    cbn [bindR]. apply applyIntOp_evaluatorValue; [now apply IHl|now apply IHr].
  - intros n v [= <-]. exact I.
  - intros name v. apply lookupVariable_evaluatorValue.
  - intros sign f IH v. destruct sign; [apply IH|].
    destruct (valueFactor numberToString scope field f); [|discriminate].
    cbn [bindR]. intros [= <-]. exact I.
  - intros e IH. exact IH.
Qed.

Lemma evaluate_evaluatorValue numberToString (s : string) (scope : Scope)
    (field : string) (v : ScopeValue) :
  evaluateIntegerExpression numberToString s scope field = Ok v -> evaluatorValue v.
Proof.
  intros H. apply evaluate_sound in H as (e & _ & Hv).
  now apply (proj1 (value_evaluatorValue numberToString scope field) e).
Qed.

Lemma forallb_app_inv (p : ascii -> bool) (a b : string) :
  JsString.forallb p (a ++ b) = true ->
  JsString.forallb p a = true /\ JsString.forallb p b = true.
Proof. rewrite forallb_append. apply andb_true_iff. Qed.

(** A text that holds a bracket is no integer literal. *)
Lemma holdsBracket_not_digits (s : string) :
  holdsBracket s = true -> JsString.isSignedDigits (JsString.trim s) = false.
Proof.
  intros Hb. destruct (JsString.isSignedDigits (JsString.trim s)) eqn:Hd;
    [|reflexivity].
  exfalso. unfold holdsBracket in Hb. apply negb_true_iff in Hb.
  destruct (trim_decompose s) as (pre & post & Hs & Hpre & Hpost).
  assert (Hno : forall u, JsString.forallb JsString.isWhitespace u = true ->
                          JsString.forallb (fun c => negb (Ascii.eqb c "[")) u = true).
  { intros u. apply forallb_impl. intros c Hc.
    destruct (Ascii.eqb c "[") eqn:E; [|reflexivity].
    apply Ascii.eqb_eq in E. subst c. discriminate Hc. }
  assert (Hdig : forall u, JsString.forallb JsString.isDigit u = true ->
                           JsString.forallb (fun c => negb (Ascii.eqb c "[")) u = true).
  { intros u. apply forallb_impl. intros c Hc.
    destruct (Ascii.eqb c "[") eqn:E; [|reflexivity].
    apply Ascii.eqb_eq in E. subst c. discriminate Hc. }
  assert (Hmid : JsString.forallb (fun c => negb (Ascii.eqb c "["))
                   (JsString.trim s) = true).
  { unfold JsString.isSignedDigits in Hd.
    destruct (JsString.trim s) as [|c r]; [reflexivity|].
    destruct (Ascii.eqb c "-") eqn:Hm.
    - apply Ascii.eqb_eq in Hm. subst c.
      cbn [JsString.forallb]. apply andb_true_iff. split; [reflexivity|].
      apply Hdig, isDigits_forallb, Hd.
    - apply Hdig, isDigits_forallb.
      destruct c as [[] [] [] [] [] [] [] []]; try exact Hd; discriminate Hm. }
  rewrite Hs, !forallb_append, (Hno pre Hpre), (Hno post Hpost), Hmid in Hb.
  discriminate Hb.
Qed.

(** A parameter evaluates as its argument did.  When [evalCallArgValue]
    coerces the argument [raw] of a call to [v] in the caller's scope, then
    inside the callee, where the parameter [p] is bound to [v], the
    expression [p] evaluates to an integer [n] exactly when the argument
    itself evaluates to [n] at the call site. *)
Theorem parameter_evaluates_as_argument (numberToString : JsNumber -> string)
    (raw : option Json) (scope callee : Scope)
    (p argField siteField calleeField : string) (v : ScopeValue) :
  JsString.isIdentifier p = true ->
  evalCallArgValue numberToString raw scope argField = Ok v ->
  forall n : Z,
    evalIntExpr numberToString raw scope siteField = Ok (int n)
    <-> evalIntExpr numberToString (Some (JStr p)) (<[p := v]> callee) calleeField
        = Ok (int n).
Proof.
  intros Hp Hv n.
  rewrite (evalIntExpr_identifier_ok numberToString p _ calleeField (int n) Hp).
  unfold evalCallArgValue in Hv. unfold evalIntExpr.
  destruct raw as [[| |q|s| |]|]; try discriminate Hv.
  - destruct (truncFinite q) as [z|]; [|discriminate Hv]. injection Hv as <-.
    now rewrite lookupVariable_insert_number by discriminate.
  - cbv zeta in Hv. destruct (String.eqb (JsString.trim s) ""); [discriminate|].
    destruct (JsString.isIdentifier (JsString.trim s)) eqn:Hid.
    + destruct (scopeGet scope (JsString.trim s)) as [bound|] eqn:Hb.
      * injection Hv as <-.
        rewrite (evaluate_identifier numberToString _ scope siteField Hid).
        rewrite <- (lookupVariable_value scope (<[p := bound]> callee)
                      (JsString.trim s) p bound (int n) Hb (scopeGet_insert _ _ _)).
        destruct (lookupVariable scope (JsString.trim s)); [tauto|].
        split; discriminate.
      * rewrite (evaluate_identifier numberToString _ scope argField Hid) in Hv.
        rewrite (evaluate_identifier numberToString _ scope siteField Hid).
        unfold lookupVariable in *. rewrite Hb in *. injection Hv as <-.
        rewrite scopeGet_insert.
        rewrite (trim_solid _ (identifier_solid _ Hid)).
        replace (JsString.isSignedDigits (JsString.trim s)) with false;
          [split; discriminate|].
        destruct (JsString.trim s) as [|c r]; [discriminate|]. simpl in Hid.
        apply andb_true_iff in Hid as [Hc _].
        destruct c as [[] [] [] [] [] [] [] []]; try reflexivity; discriminate Hc.
    + destruct (evaluateIntegerExpression numberToString (JsString.trim s) scope argField)
        as [m|err] eqn:Hev; injection Hv as <-.
      * rewrite (evaluate_field_irrelevant numberToString _ _ argField siteField _ Hev).
        unfold lookupVariable. rewrite scopeGet_insert.
        destruct m as [m|t|m]; [tauto| |tauto].
        apply evaluate_evaluatorValue in Hev.
        rewrite (holdsBracket_not_digits t Hev). split; discriminate.
      * unfold lookupVariable. rewrite scopeGet_insert.
        destruct (JsString.isSignedDigits (JsString.trim (JsString.trim s))) eqn:Hd.
        -- pose proof (evaluate_signed_digits numberToString _ scope argField Hd) as Hok.
           rewrite evaluator_trim in Hok. congruence.
        -- destruct (evaluateIntegerExpression numberToString (JsString.trim s) scope
                       siteField) as [m|err'] eqn:Hev'; [|split; discriminate].
           apply (evaluate_field_irrelevant numberToString _ _ siteField argField)
             in Hev'.
           congruence.
Qed.

(** The argument ["h+1"] where [h] is 9, passed for the parameter [top]. *)
Lemma parameter_evaluates_as_argument_witness :
  evalIntExpr decimalNumberToString (Some (JStr "h+1")) (<["h" := int 9]> ∅) "for.to"
  = Ok (int 10)
  <-> evalIntExpr decimalNumberToString (Some (JStr "top")) (<["top" := int 10]> ∅)
        "place.y" = Ok (int 10).
Proof.
  apply (parameter_evaluates_as_argument decimalNumberToString (Some (JStr "h+1"))
           (<["h" := int 9]> ∅) ∅
           "top" "call.f.args.top" "for.to" "place.y" (int 10));
    reflexivity.
Defined.
(** ** Programs of [place] steps *)

Section PlaceProgramFacts.

Variable numberToString : JsNumber -> string.
Variable supportedBlockTypes : list string.

Lemma executeStep_place exec props scope defs st callDepth block :
  isPlaceStep numberToString props = true ->
  normalizeCompactBlock numberToString supportedBlockTypes props scope = Ok block ->
  executeStep numberToString supportedBlockTypes exec (JObj props) scope defs st
    callDepth
  = (pushBlock st block, Normal).
Proof.
  unfold isPlaceStep, executeStep. intros Hop Hblock.
  destruct (stringOr numberToString (getProp "op" props) ""); [|discriminate Hop].
  cbv zeta in *. now rewrite Hop, Hblock.
Qed.

Lemma stepsLoop_places exec scope defs callDepth steps blocks :
  Forall2 (placesBlock numberToString supportedBlockTypes scope) steps blocks ->
  forall st,
    Z.of_nat (List.length (out st)) <= MAX_BLOCKS ->
    executedSteps (budget st) - Z.of_nat (List.length (out st))
    <= MAX_EXECUTED_STEPS - MAX_BLOCKS ->
    exists st',
      stepsLoop numberToString supportedBlockTypes exec steps scope defs st callDepth
      = (st', Normal)
      /\ out st' = sliceToMax (out st ++ blocks).
Proof.
  intros Hplaces.
  induction Hplaces as [|step block steps blocks (props & -> & Hop & Hblock) Hrest IH];
    intros st Hlen Hsteps.
  - exists st. split; [reflexivity|]. rewrite app_nil_r. unfold sliceToMax.
    symmetry. apply firstn_all2. lia.
  - rewrite stepsLoop_cons. destruct (outIsFull st) eqn:Hfull.
    + exists st. split; [reflexivity|]. unfold outIsFull in Hfull.
      apply Z.leb_le in Hfull. unfold sliceToMax.
      rewrite firstn_app.
      replace (Z.to_nat MAX_BLOCKS - List.length (out st))%nat with O by lia.
      rewrite firstn_all2 by lia. simpl. now rewrite app_nil_r.
    + unfold outIsFull in Hfull. apply Z.leb_gt in Hfull.
      replace (MAX_EXECUTED_STEPS <? executedSteps (budget (countStep st))) with false
        by (symmetry; apply Z.ltb_ge; simpl; lia).
      rewrite (executeStep_place exec props scope defs _ callDepth block Hop Hblock).
      destruct (IH (pushBlock (countStep st) block)) as (st' & Hrun & Hout).
      * simpl. rewrite length_app. simpl. lia.
      * simpl. rewrite length_app. simpl. lia.
      * exists st'. split; [exact Hrun|]. rewrite Hout. simpl.
        now rewrite <- app_assoc.
Qed.

Lemma expand_places program steps blocks :
  getProp "defs" program = None ->
  getProp "steps" program = Some (JArr steps) ->
  Forall2 (placesBlock numberToString supportedBlockTypes ∅) steps blocks ->
  expandCompactProgram numberToString supportedBlockTypes program
  = Expanded (sliceToMax blocks).
Proof.
  intros Hdefs Hsteps Hplaces. unfold expandCompactProgram.
  rewrite Hdefs, Hsteps. change executeFuel with (S 25).
  rewrite executeSteps_S. change (MAX_CALL_DEPTH <? 0) with false. cbv iota.
  destruct (stepsLoop_places
              (executeSteps numberToString supportedBlockTypes 25) ∅ ∅ 0
              steps blocks Hplaces emptyState) as (st' & -> & Hout).
  - simpl. unfold MAX_BLOCKS. lia.
  - simpl. unfold MAX_EXECUTED_STEPS, MAX_BLOCKS. lia.
  - now rewrite Hout.
Qed.

(** A program without definitions whose steps are all [place] steps that
    normalize expands to their blocks, in order, up to the cap: as many
    blocks as steps when there are at most [MAX_BLOCKS] of them, the first
    [MAX_BLOCKS] otherwise.  The step ceiling is never reached, however many
    steps there are. *)
Theorem place_program_expands (program : list (string * Json)) (steps : list Json)
    (blocks : list Block.t) :
  getProp "defs" program = None ->
  getProp "steps" program = Some (JArr steps) ->
  Forall2 (placesBlock numberToString supportedBlockTypes ∅) steps blocks ->
  expandCompactProgram numberToString supportedBlockTypes program
  = Expanded (sliceToMax blocks)
  /\ List.length (sliceToMax blocks)
     = Nat.min (List.length steps) (Z.to_nat MAX_BLOCKS).
Proof.
  intros Hdefs Hsteps Hplaces. split; [now apply (expand_places program steps)|].
  unfold sliceToMax. rewrite length_firstn.
  rewrite (Forall2_length _ _ _ Hplaces). lia.
Qed.

Lemma getProp_place_entry (key : string) (props : list (string * Json)) :
  key <> "op" ->
  getProp key (("op", JStr "place") :: props) = getProp key props.
Proof.
  intros Hne. cbn [getProp]. apply String.eqb_neq in Hne.
  rewrite String.eqb_sym in Hne. now rewrite Hne.
Qed.

Lemma legacy_entries_place rawBlocks :
  forall idx blocks,
    normalizeLegacyBlocksFrom numberToString supportedBlockTypes idx rawBlocks
    = Ok blocks ->
    Forall2 (placesBlock numberToString supportedBlockTypes ∅)
      (List.map placeOfLegacyEntry rawBlocks) blocks.
Proof.
  induction rawBlocks as [|raw rest IH]; intros idx blocks H.
  { injection H as <-. constructor. }
  cbn [normalizeLegacyBlocksFrom] in H.
  destruct raw as [| | | | |props]; try discriminate H. cbv zeta in H.
  destruct (evalIntExpr numberToString (getProp "x" props) ∅ _) as [x|] eqn:Hx;
    [|discriminate H].
  destruct (evalIntExpr numberToString (getProp "y" props) ∅ _) as [y|] eqn:Hy;
    [|discriminate H].
  destruct (evalIntExpr numberToString (getProp "z" props) ∅ _) as [z|] eqn:Hz;
    [|discriminate H].
  cbn [bindR] in H.
  destruct (normalizeBlockType numberToString supportedBlockTypes
              (getProp "blockType" props) ∅) as [blockType|] eqn:Ht;
    [|discriminate H].
  cbn [bindR] in H.
  destruct (normalizeLegacyBlocksFrom _ _ (S idx) rest) as [bs|] eqn:Hrest;
    [|discriminate H].
  cbn [bindR] in H. injection H as <-.
  cbn [List.map]. constructor; [|now apply (IH (S idx))].
  exists (("op", JStr "place") :: props). split; [reflexivity|]. split; [reflexivity|].
  unfold normalizeCompactBlock.
  rewrite !getProp_place_entry by discriminate.
  rewrite (evalIntExpr_field_irrelevant _ _ _ _ "place.x" _ Hx),
          (evalIntExpr_field_irrelevant _ _ _ _ "place.y" _ Hy),
          (evalIntExpr_field_irrelevant _ _ _ _ "place.z" _ Hz), Ht.
  reflexivity.
Qed.

Lemma parse_legacy_only rawBlocks :
  parseBlocksFromResponse numberToString supportedBlockTypes
    (JObj [("blocks", JArr rawBlocks)])
  = (let* blocks := normalizeLegacyBlocks numberToString supportedBlockTypes rawBlocks in
     Ok (sliceToMax blocks)).
Proof. reflexivity. Qed.

Lemma parse_steps_only steps :
  parseBlocksFromResponse numberToString supportedBlockTypes
    (JObj [("steps", JArr steps)])
  = match expandCompactProgram numberToString supportedBlockTypes
            [("steps", JArr steps)] with
    | Expanded blocks => Ok (sliceToMax blocks)
    | Failed err => Err err
    | Unfinished => Err ModelFuelExhausted
    end.
Proof. reflexivity. Qed.

(** The two formats agree.  When the legacy blocks [rawBlocks] normalize,
    the compact program that has one [place] step per entry, with the
    entry's fields, yields the same blocks as the legacy document. *)
Theorem compact_places_agree_with_legacy (rawBlocks : list Json)
    (blocks : list Block.t) :
  parseBlocksFromResponse numberToString supportedBlockTypes
    (JObj [("blocks", JArr rawBlocks)]) = Ok blocks ->
  parseBlocksFromResponse numberToString supportedBlockTypes
    (JObj [("steps", JArr (List.map placeOfLegacyEntry rawBlocks))]) = Ok blocks.
Proof.
  rewrite parse_legacy_only, parse_steps_only. unfold normalizeLegacyBlocks.
  destruct (normalizeLegacyBlocksFrom numberToString supportedBlockTypes 0 rawBlocks)
    as [bs|] eqn:Hl; [|discriminate].
  cbn [bindR]. intros H. injection H as <-.
  rewrite (expand_places [("steps", JArr (List.map placeOfLegacyEntry rawBlocks))]
             (List.map placeOfLegacyEntry rawBlocks) bs eq_refl eq_refl
             (legacy_entries_place rawBlocks 0 bs Hl)).
  unfold sliceToMax. now rewrite firstn_firstn, Nat.min_id.
Qed.

End PlaceProgramFacts.

(** Two [place] steps. *)
Lemma place_program_expands_witness :
  expandCompactProgram decimalNumberToString DEFAULT_ALLOWED_BLOCK_TYPES
    [("steps", JArr [placeAtX (num 1); placeAtX (num 2)])]
  = Expanded (sliceToMax [stoneAt 1; stoneAt 2])
  /\ List.length (sliceToMax [stoneAt 1; stoneAt 2])
     = Nat.min (List.length [placeAtX (num 1); placeAtX (num 2)]) (Z.to_nat MAX_BLOCKS).
Proof.
  apply (place_program_expands decimalNumberToString DEFAULT_ALLOWED_BLOCK_TYPES);
    [reflexivity|reflexivity|].
  repeat constructor; eexists; (split; [reflexivity|split; reflexivity]).
Defined.

(** The two entries of [legacyDocument]. *)
Lemma compact_places_agree_with_legacy_witness :
  exists rawBlocks blocks,
    getProp "blocks" legacyDocument = Some (JArr rawBlocks)
    /\ parseBlocksFromResponse decimalNumberToString DEFAULT_ALLOWED_BLOCK_TYPES
         (JObj [("steps", JArr (List.map placeOfLegacyEntry rawBlocks))]) = Ok blocks
    /\ List.length blocks = 2%nat.
Proof.
  eexists _, _. split; [reflexivity|]. split.
  - apply (compact_places_agree_with_legacy decimalNumberToString
             DEFAULT_ALLOWED_BLOCK_TYPES).
    vm_compute. reflexivity.
  - reflexivity.
Defined.

(** ** The definition table *)

Section DefinitionTableFacts.

Variable numberToString : JsNumber -> string.

Lemma collectDefs_lookup rawDefs :
  forall (defs0 defs : Defs) (name : string),
    collectDefs numberToString rawDefs defs0 = Ok defs ->
    defs !! name
    = match lastDefinition numberToString name rawDefs with
      | Some def => Some def
      | None => defs0 !! name
      end.
Proof.
  induction rawDefs as [|rawDef rest IH]; intros defs0 defs name H.
  { injection H as <-. reflexivity. }
  cbn [collectDefs] in H. destruct rawDef as [| | | | |props]; try discriminate H.
  unfold definitionName in *.
  destruct (stringOr numberToString (getProp "name" props) "") as [text|] eqn:Htext;
    [|discriminate H].
  cbn [bindR] in H. cbv zeta in H.
  destruct (String.eqb (JsString.trim text) "") eqn:He; [discriminate H|].
  destruct (getProp "steps" props) as [[| | | |steps|]|]; try discriminate H.
  rewrite (IH _ _ name H). cbn [lastDefinition].
  destruct (lastDefinition numberToString name rest); [reflexivity|].
  unfold definitionName. rewrite Htext. cbn [bindR].
  destruct (String.eqb (JsString.trim text) name) eqn:Hn.
  - apply String.eqb_eq in Hn. subst name.
    apply (lookup_insert_eq (M := gmap string)).
  - apply String.eqb_neq in Hn.
    now apply (lookup_insert_ne (M := gmap string)).
Qed.

Lemma collectDefs_shape rawDefs :
  forall (defs0 defs : Defs),
    collectDefs numberToString rawDefs defs0 = Ok defs ->
    forall name def,
      lastDefinition numberToString name rawDefs = Some def ->
      name <> "" /\ definitionName numberToString def = Ok name
      /\ exists steps, getProp "steps" def = Some (JArr steps).
Proof.
  induction rawDefs as [|rawDef rest IH]; intros defs0 defs H name def Hlast;
    [discriminate Hlast|].
  cbn [collectDefs] in H. destruct rawDef as [| | | | |props]; try discriminate H.
  destruct (stringOr numberToString (getProp "name" props) "") as [text|] eqn:Htext;
    [|discriminate H].
  cbn [bindR] in H. cbv zeta in H.
  destruct (String.eqb (JsString.trim text) "") eqn:He; [discriminate H|].
  destruct (getProp "steps" props) as [[| | | |steps|]|] eqn:Hs; try discriminate H.
  cbn [lastDefinition] in Hlast.
  destruct (lastDefinition numberToString name rest) as [d|] eqn:Hrest.
  - injection Hlast as <-. now apply (IH _ _ H name d).
  - unfold definitionName in Hlast |- *. rewrite Htext in Hlast. cbn [bindR] in Hlast.
    destruct (String.eqb (JsString.trim text) name) eqn:Hn; [|discriminate Hlast].
    injection Hlast as <-. apply String.eqb_eq in Hn. subst name.
    apply String.eqb_neq in He. split; [exact He|].
    split; [now rewrite Htext|]. now exists steps.
Qed.

(** The table [expandCompactProgram] builds from [program.defs] maps a name
    to the last entry of that name (names compared after [trim]), and to
    nothing when no entry has it.  Every entry it holds has a non-empty name
    and an array of steps, so that a call of a collected definition never
    fails for invalid steps. *)
Theorem definition_table_holds_last_entries (rawDefs : list Json) (defs : Defs) :
  collectDefs numberToString rawDefs ∅ = Ok defs ->
  forall name,
    defs !! name = lastDefinition numberToString name rawDefs
    /\ (forall def,
          defs !! name = Some def ->
          name <> "" /\ definitionName numberToString def = Ok name
          /\ exists steps, getProp "steps" def = Some (JArr steps)).
Proof.
  intros H name.
  assert (Hlook : defs !! name = lastDefinition numberToString name rawDefs).
  { rewrite (collectDefs_lookup rawDefs ∅ defs name H).
    now destruct (lastDefinition numberToString name rawDefs). }
  split; [exact Hlook|]. intros def Hdef. rewrite Hlook in Hdef.
  apply (collectDefs_shape rawDefs ∅ defs H name def Hdef).
Qed.

End DefinitionTableFacts.

(** Two definitions of [f]: the second one is called. *)
Lemma definition_table_holds_last_entries_witness :
  (<["f" := [("name", JStr " f "); ("steps", JArr [stoneAtOrigin])]]> ∅ : Defs) !! "f"
  = lastDefinition decimalNumberToString "f"
      [JObj [("name", JStr "f"); ("steps", JArr [])];
       JObj [("name", JStr " f "); ("steps", JArr [stoneAtOrigin])]].
Proof.
  apply (definition_table_holds_last_entries decimalNumberToString
           [JObj [("name", JStr "f"); ("steps", JArr [])];
            JObj [("name", JStr " f "); ("steps", JArr [stoneAtOrigin])]]).
  vm_compute. reflexivity.
Defined.

(** ** The catalog *)

Lemma normalizeCatalogIds_cons (rawId : string) (rest normalized : list string) :
  normalizeCatalogIds (rawId :: rest) normalized
  = normalizeCatalogIds rest
      (match catalogIdOf rawId with
       | Some id => setAdd id normalized
       | None => normalized
       end).
Proof.
  cbn [normalizeCatalogIds]. unfold catalogIdOf. cbv zeta.
  now destruct (String.eqb (JsString.toLowerCase (JsString.trim rawId)) "").
Qed.

Lemma catalogIdOf_canonical (rawId id : string) :
  catalogIdOf rawId = Some id -> isCanonicalId id = true.
Proof.
  unfold catalogIdOf. cbv zeta.
  set (lowered := JsString.toLowerCase (JsString.trim rawId)).
  destruct (String.eqb lowered ""); [discriminate|]. intros H. injection H as <-.
  pose proof (replaceHyphens_canonical _
                (replaceWhitespaceRuns_canonical _
                   (toLowerCase_no_upper (JsString.trim rawId)))) as Hc.
  fold lowered in Hc. unfold isCanonicalId.
  destruct (JsString.startsWith "minecraft:"
              (JsString.replaceHyphens (JsString.replaceWhitespaceRuns lowered)))
    eqn:Hp.
  - now rewrite Hp, Hc.
  - now rewrite startsWith_prefixed, forallb_append, Hc.
Qed.

Lemma existsb_eqb_In (id : string) (l : list string) :
  existsb (String.eqb id) l = true <-> In id l.
Proof.
  rewrite existsb_exists. split.
  - intros (y & Hy & Heq). apply String.eqb_eq in Heq. now subst.
  - intros H. exists id. split; [exact H|apply String.eqb_refl].
Qed.

Lemma setAdd_In (id x : string) (set : list string) :
  In x (setAdd id set) <-> x = id \/ In x set.
Proof.
  unfold setAdd. destruct (existsb (String.eqb id) set) eqn:He.
  - apply existsb_eqb_In in He. split; [tauto|]. intros [->|H]; assumption.
  - rewrite in_app_iff. simpl. split; [intros [H|[H|[]]]|intros [H|H]]; auto.
Qed.

Lemma setAdd_NoDup (id : string) (set : list string) :
  List.NoDup set -> List.NoDup (setAdd id set).
Proof.
  intros Hnd. unfold setAdd. destruct (existsb (String.eqb id) set) eqn:He;
    [exact Hnd|].
  apply List.NoDup_app; [exact Hnd|repeat constructor; intros []|].
  intros x Hx [<-|[]]. apply existsb_eqb_In in Hx. congruence.
Qed.

Lemma normalizeCatalogIds_spec (blockIds : list string) :
  forall normalized,
    List.NoDup normalized ->
    List.NoDup (normalizeCatalogIds blockIds normalized)
    /\ (forall id,
          In id (normalizeCatalogIds blockIds normalized)
          <-> In id normalized
              \/ exists rawId, In rawId blockIds /\ catalogIdOf rawId = Some id).
Proof.
  induction blockIds as [|rawId rest IH]; intros normalized Hnd.
  { split; [exact Hnd|]. intros id. simpl. split; [tauto|].
    intros [H|(r & [] & _)]. exact H. }
  rewrite normalizeCatalogIds_cons.
  destruct (catalogIdOf rawId) as [id0|] eqn:Hid.
  - destruct (IH (setAdd id0 normalized) (setAdd_NoDup _ _ Hnd)) as [Hn Hin].
    split; [exact Hn|]. intros id. rewrite Hin, setAdd_In. split.
    + intros [[->|H]|(r & Hr & Hc)]; [right|now left|right].
      * exists rawId. split; [now left|exact Hid].
      * exists r. split; [now right|exact Hc].
    + intros [H|(r & [<-|Hr] & Hc)]; [left; now right| |right; now exists r].
      left. left. congruence.
  - destruct (IH normalized Hnd) as [Hn Hin].
    split; [exact Hn|]. intros id. rewrite Hin. split.
    + intros [H|(r & Hr & Hc)]; [now left|right]. exists r. split; [now right|exact Hc].
    + intros [H|(r & [<-|Hr] & Hc)]; [now left|congruence|right; now exists r].
Qed.

(** *** Sorting *)

Lemma insertInOrder_In (id x : string) (sorted : list string) :
  In x (insertInOrder id sorted) <-> x = id \/ In x sorted.
Proof.
  induction sorted as [|h t IH]; simpl; [intuition|].
  destruct (String.leb id h); simpl; [intuition|]. rewrite IH. intuition.
Qed.

Lemma insertInOrder_length (id : string) (sorted : list string) :
  List.length (insertInOrder id sorted) = S (List.length sorted).
Proof.
  induction sorted as [|h t IH]; simpl; [reflexivity|].
  destruct (String.leb id h); simpl; [reflexivity|]. now rewrite IH.
Qed.

Lemma insertInOrder_NoDup (id : string) (sorted : list string) :
  ~ In id sorted -> List.NoDup sorted -> List.NoDup (insertInOrder id sorted).
Proof.
  induction sorted as [|h t IH]; intros Hid Hnd; simpl.
  { constructor; [intros []|constructor]. }
  destruct (String.leb id h); [now constructor|].
  inversion Hnd as [|? ? Hh Ht]; subst. constructor.
  - rewrite insertInOrder_In. intros [->|H]; [apply Hid; now left|contradiction].
  - apply IH; [|exact Ht]. intros H. apply Hid. now right.
Qed.

Lemma insertInOrder_sorted (id : string) (sorted : list string) :
  Sorted.Sorted (fun a b => String.leb a b = true) sorted ->
  Sorted.Sorted (fun a b => String.leb a b = true) (insertInOrder id sorted).
Proof.
  induction sorted as [|h t IH]; intros Hs; simpl.
  { repeat constructor. }
  destruct (String.leb id h) eqn:Hle.
  - constructor; [exact Hs|]. now constructor.
  - inversion Hs as [|? ? Ht Hh]; subst. constructor; [now apply IH|].
    assert (Hhi : String.leb h id = true).
    { destruct (String.leb_total id h) as [H|H]; [congruence|exact H]. }
    destruct t as [|h' t']; simpl; [now constructor|].
    destruct (String.leb id h'); constructor; [exact Hhi|].
    now inversion Hh.
Qed.

Lemma sortStrings_spec (ids : list string) :
  List.NoDup ids ->
  Sorted.Sorted (fun a b => String.leb a b = true) (sortStrings ids)
  /\ List.NoDup (sortStrings ids)
  /\ (forall id, In id (sortStrings ids) <-> In id ids)
  /\ List.length (sortStrings ids) = List.length ids.
Proof.
  induction ids as [|h t IH]; intros Hnd.
  { repeat split; simpl; try constructor; tauto. }
  inversion Hnd as [|? ? Hh Ht]; subst.
  destruct (IH Ht) as (Hs & Hn & Hin & Hlen).
  change (sortStrings (h :: t)) with (insertInOrder h (sortStrings t)).
  split; [now apply insertInOrder_sorted|].
  split; [apply insertInOrder_NoDup; [now rewrite Hin|exact Hn]|].
  split.
  - intros id. rewrite insertInOrder_In, Hin. simpl. intuition.
  - now rewrite insertInOrder_length, Hlen.
Qed.

Lemma sortStrings_sorted (ids : list string) :
  Sorted.Sorted (fun a b => String.leb a b = true) ids -> sortStrings ids = ids.
Proof.
  induction ids as [|h t IH]; intros Hs; [reflexivity|].
  inversion Hs as [|? ? Ht Hh]; subst.
  change (sortStrings (h :: t)) with (insertInOrder h (sortStrings t)).
  rewrite (IH Ht). destruct t as [|h' t']; [reflexivity|].
  simpl. inversion Hh as [|? ? Hle]; subst. now rewrite Hle.
Qed.

(** *** Canonical identifiers are fixed points *)

Lemma toLowerCase_fixed (s : string) :
  JsString.forallb (fun c => negb (JsString.isUpper c)) s = true ->
  JsString.toLowerCase s = s.
Proof.
  induction s as [|c r IH]; [reflexivity|]. simpl. intros H.
  apply andb_true_iff in H as [Hc Hr]. rewrite (IH Hr).
  unfold JsString.lowerChar. now destruct (JsString.isUpper c).
Qed.

Lemma replaceWhitespaceRuns_fixed (s : string) :
  JsString.forallb (fun c => negb (JsString.isWhitespace c)) s = true ->
  JsString.replaceWhitespaceRuns s = s.
Proof.
  induction s as [|c r IH]; [reflexivity|]. simpl. intros H.
  apply andb_true_iff in H as [Hc Hr]. rewrite (IH Hr).
  now destruct (JsString.isWhitespace c).
Qed.

Lemma replaceHyphens_fixed (s : string) :
  JsString.forallb (fun c => negb (JsString.code c =? 45)%N) s = true ->
  JsString.replaceHyphens s = s.
Proof.
  induction s as [|c r IH]; [reflexivity|]. simpl. intros H.
  apply andb_true_iff in H as [Hc Hr]. rewrite (IH Hr).
  now destruct (JsString.code c =? 45)%N.
Qed.

Lemma canonical_parts (id : string) :
  isCanonicalId id = true ->
  id <> ""
  /\ JsString.startsWith "minecraft:" id = true
  /\ JsString.forallb (fun c => negb (JsString.isWhitespace c)) id = true
  /\ JsString.forallb (fun c => negb (JsString.isUpper c)) id = true
  /\ JsString.forallb (fun c => negb (JsString.code c =? 45)%N) id = true.
Proof.
  unfold isCanonicalId. intros H. apply andb_true_iff in H as [Hp Hc].
  split; [now destruct id|]. split; [exact Hp|].
  repeat split; revert Hc; apply forallb_impl; intros c; unfold isCanonicalChar;
    intros Hc; apply andb_true_iff in Hc as [Hc Hu];
    apply andb_true_iff in Hc as [Hw Hh]; assumption.
Qed.

Lemma catalogIdOf_canonical_fixed (id : string) :
  isCanonicalId id = true -> catalogIdOf id = Some id.
Proof.
  intros H. destruct (canonical_parts id H) as (Hne & Hp & Hw & Hu & Hh).
  unfold catalogIdOf. cbv zeta.
  rewrite (trim_solid id Hw), (toLowerCase_fixed id Hu).
  replace (String.eqb id "") with false by (symmetry; now apply String.eqb_neq).
  now rewrite (replaceWhitespaceRuns_fixed id Hw), (replaceHyphens_fixed id Hh), Hp.
Qed.

Lemma normalizeCatalogIds_canonical (ids : list string) :
  forall normalized,
    Forall (fun id => isCanonicalId id = true) ids ->
    List.NoDup (normalized ++ ids) ->
    normalizeCatalogIds ids normalized = normalized ++ ids.
Proof.
  induction ids as [|id rest IH]; intros normalized Hc Hnd.
  { now rewrite app_nil_r. }
  inversion Hc as [|? ? Hid Hrest]; subst.
  rewrite normalizeCatalogIds_cons, (catalogIdOf_canonical_fixed id Hid).
  assert (Hnew : existsb (String.eqb id) normalized = false).
  { destruct (existsb (String.eqb id) normalized) eqn:He; [|reflexivity].
    apply existsb_eqb_In in He. apply List.NoDup_remove_2 in Hnd.
    exfalso. apply Hnd, in_or_app. now left. }
  unfold setAdd. rewrite Hnew.
  rewrite (IH (normalized ++ [id]) Hrest); rewrite <- app_assoc; [reflexivity|].
  exact Hnd.
Qed.

Lemma leb_ltb (a b : string) :
  String.leb a b = true -> a <> b -> String.ltb a b = true.
Proof.
  unfold String.leb, String.ltb. intros Hle Hne.
  destruct (String.compare a b) eqn:Hc; try reflexivity; try discriminate.
  apply String.compare_eq_iff in Hc. contradiction.
Qed.

Lemma sorted_strict (ids : list string) :
  Sorted.Sorted (fun a b => String.leb a b = true) ids -> List.NoDup ids ->
  Sorted.Sorted (fun a b => String.ltb a b = true) ids.
Proof.
  induction ids as [|h t IH]; intros Hs Hnd; [constructor|].
  inversion Hs as [|? ? Ht Hh]; subst. inversion Hnd as [|? ? Hin Hn]; subst.
  constructor; [now apply IH|].
  destruct t as [|h' t']; constructor.
  inversion Hh as [|? ? Hle]; subst. apply leb_ltb; [exact Hle|].
  intros ->. apply Hin. now left.
Qed.

Lemma normalizeBlockCatalog_members (blockIds : list string) :
  (forall id,
      In id (normalizeBlockCatalog blockIds)
      <-> exists rawId, In rawId blockIds /\ catalogIdOf rawId = Some id)
  /\ Forall (fun id => isCanonicalId id = true) (normalizeBlockCatalog blockIds).
Proof.
  unfold normalizeBlockCatalog.
  destruct (normalizeCatalogIds_spec blockIds [] (List.NoDup_nil _)) as [Hnd Hin].
  destruct (sortStrings_spec _ Hnd) as (_ & _ & Hmem & _).
  assert (Hiff : forall id,
             In id (sortStrings (normalizeCatalogIds blockIds []))
             <-> exists rawId, In rawId blockIds /\ catalogIdOf rawId = Some id).
  { intros id. rewrite Hmem, Hin. simpl. tauto. }
  split; [exact Hiff|].
  apply List.Forall_forall. intros id Hid. apply Hiff in Hid as (r & _ & Hr).
  now apply (catalogIdOf_canonical r).
Qed.

(** What [normalizeBlockCatalog] returns: the canonical forms of the
    non-blank identifiers given, each once, in strictly ascending order of
    code units; every member is canonical; and normalizing a normalized
    catalog changes nothing. *)
Theorem normalizeBlockCatalog_canonical_sorted (blockIds : list string) :
  Sorted.Sorted (fun a b => String.ltb a b = true) (normalizeBlockCatalog blockIds)
  /\ List.NoDup (normalizeBlockCatalog blockIds)
  /\ (forall id,
        In id (normalizeBlockCatalog blockIds)
        <-> exists rawId, In rawId blockIds /\ catalogIdOf rawId = Some id)
  /\ Forall (fun id => isCanonicalId id = true) (normalizeBlockCatalog blockIds)
  /\ normalizeBlockCatalog (normalizeBlockCatalog blockIds)
     = normalizeBlockCatalog blockIds.
Proof.
  unfold normalizeBlockCatalog at 1 2 3 4 5.
  destruct (normalizeCatalogIds_spec blockIds [] (List.NoDup_nil _)) as [Hnd Hin].
  destruct (sortStrings_spec _ Hnd) as (Hs & Hn & Hmem & _).
  assert (Hiff : forall id,
             In id (sortStrings (normalizeCatalogIds blockIds []))
             <-> exists rawId, In rawId blockIds /\ catalogIdOf rawId = Some id).
  { intros id. rewrite Hmem, Hin. simpl. tauto. }
  assert (Hcan : Forall (fun id => isCanonicalId id = true)
                   (sortStrings (normalizeCatalogIds blockIds []))).
  { apply List.Forall_forall. intros id Hid. apply Hiff in Hid as (r & _ & Hr).
    now apply (catalogIdOf_canonical r). }
  split; [now apply sorted_strict|]. split; [exact Hn|]. split; [exact Hiff|].
  split; [exact Hcan|].
  unfold normalizeBlockCatalog.
  rewrite (normalizeCatalogIds_canonical _ [] Hcan Hn). simpl.
  now apply sortStrings_sorted.
Qed.

(** *** Normalized block types are stable *)

Lemma canonical_not_identifier (id : string) :
  JsString.startsWith "minecraft:" id = true -> JsString.isIdentifier id = false.
Proof.
  unfold JsString.startsWith. intros H.
  apply String.prefix_correct in H. simpl in H.
  destruct id as [|c0 [|c1 [|c2 [|c3 [|c4 [|c5 [|c6 [|c7 [|c8 [|c9 r]]]]]]]]]];
    try discriminate H.
  injection H as -> -> -> -> -> -> -> -> -> ->. reflexivity.
Qed.

(** A canonical identifier is its own canonical form. *)
Lemma canonicalOfText_fixed (id : string) :
  isCanonicalId id = true -> canonicalOfText id = id.
Proof.
  intros H. destruct (canonical_parts id H) as (Hne & Hp & Hw & Hu & Hh).
  unfold canonicalOfText.
  rewrite (trim_solid id Hw), (toLowerCase_fixed id Hu).
  replace (String.eqb id "") with false by (symmetry; now apply String.eqb_neq).
  now rewrite (replaceWhitespaceRuns_fixed id Hw), (replaceHyphens_fixed id Hh), Hp.
Qed.

Lemma canonicalBlockType_fixed numberToString (id : string) (scope : Scope) :
  isCanonicalId id = true ->
  canonicalBlockType numberToString (Some (JStr id)) scope = Ok id.
Proof.
  intros H. destruct (canonical_parts id H) as (Hne & Hp & Hw & Hu & Hh).
  unfold canonicalBlockType, resolveScopedValue. cbv zeta.
  rewrite (trim_solid id Hw), (canonical_not_identifier id Hp).
  cbn [stringOfResolved]. unfold stringOr. cbn [nullish jsString bindR].
  now rewrite canonicalOfText_fixed.
Qed.

Lemma pickFallbackBlockType_canonical (catalog : list string) :
  Forall (fun id => isCanonicalId id = true) catalog ->
  isCanonicalId (pickFallbackBlockType catalog) = true.
Proof.
  intros Hc. unfold pickFallbackBlockType.
  destruct (catalogHas catalog DEFAULT_BLOCK_TYPE); [reflexivity|].
  destruct catalog as [|first rest]; [reflexivity|]. now inversion Hc.
Qed.

(** Normalizing a normalized block type changes nothing.  With a catalog of
    canonical identifiers (as [normalizeBlockCatalog] builds, and as the
    built-in palette is), the result of [normalizeBlockType], given back to
    it as a string in any scope, is returned as it is. *)
Theorem normalizeBlockType_idempotent numberToString (catalog : list string)
    (raw : option Json) (scope scope' : Scope) (id : string) :
  Forall (fun id => isCanonicalId id = true) catalog ->
  normalizeBlockType numberToString catalog raw scope = Ok id ->
  normalizeBlockType numberToString catalog (Some (JStr id)) scope' = Ok id.
Proof.
  intros Hc Hid.
  assert (Hres : isCanonicalId id = true
                 /\ (catalogHas catalog id = false ->
                     id = pickFallbackBlockType catalog)).
  { unfold normalizeBlockType in Hid.
    destruct (canonicalBlockType numberToString raw scope) as [blockType|] eqn:Hb;
      [|discriminate Hid].
    cbn [bindR] in Hid. injection Hid as <-.
    destruct (catalogHas catalog blockType) eqn:Hin; cbn [negb].
    - split; [|congruence]. eapply canonicalBlockType_shape, Hb.
    - split; [now apply pickFallbackBlockType_canonical|trivial]. }
  destruct Hres as [Hcan Hfall].
  unfold normalizeBlockType.
  rewrite (canonicalBlockType_fixed numberToString id scope' Hcan). cbn [bindR].
  destruct (catalogHas catalog id); cbn [negb]; [reflexivity|].
  f_equal. symmetry. now apply Hfall.
Qed.

(** An unknown type under the built-in palette. *)
Lemma normalizeBlockType_idempotent_witness :
  normalizeBlockType decimalNumberToString DEFAULT_ALLOWED_BLOCK_TYPES
    (Some (JStr "minecraft:oak_planks")) ∅
  = Ok "minecraft:oak_planks".
Proof.
  apply (normalizeBlockType_idempotent decimalNumberToString
           DEFAULT_ALLOWED_BLOCK_TYPES (Some (JStr "Oak Planks")) ∅ ∅).
  - apply List.Forall_forall, List.forallb_forall. reflexivity.
  - reflexivity.
Defined.

(** *** Trimming and lower case *)










(** ** The block-type normalizer, as a whole *)



(** *** Replacing the catalog *)

(** [setSupportedBlockCatalog] keeps the catalog usable: starting from a
    catalog that is not empty and holds canonical identifiers only, the
    catalog after the call is again not empty and canonical; it is the
    normalized list when that is not empty, and the catalog as it was when
    every identifier given is blank. *)
Theorem setSupportedBlockCatalog_keeps_catalog_usable (blockIds current : list string) :
  current <> [] ->
  Forall (fun id => isCanonicalId id = true) current ->
  setSupportedBlockCatalog blockIds current <> []
  /\ Forall (fun id => isCanonicalId id = true)
       (setSupportedBlockCatalog blockIds current)
  /\ ((exists rawId, In rawId blockIds /\ catalogIdOf rawId <> None) ->
      setSupportedBlockCatalog blockIds current = normalizeBlockCatalog blockIds)
  /\ ((forall rawId, In rawId blockIds -> catalogIdOf rawId = None) ->
      setSupportedBlockCatalog blockIds current = current).
Proof.
  intros Hne Hc.
  destruct (normalizeBlockCatalog_members blockIds) as (Hmem & Hcan).
  unfold setSupportedBlockCatalog.
  destruct (normalizeBlockCatalog blockIds) as [|h t] eqn:Hn.
  - split; [exact Hne|]. split; [exact Hc|]. split; [|reflexivity].
    intros (rawId & Hin & Hsome).
    destruct (catalogIdOf rawId) as [id|] eqn:Hid; [|congruence].
    exfalso. apply (proj2 (Hmem id)). now exists rawId.
  - split; [discriminate|]. split; [exact Hcan|]. split; [reflexivity|].
    intros Hblank. exfalso.
    destruct (proj1 (Hmem h) (or_introl eq_refl)) as (rawId & Hin & Hid).
    rewrite (Hblank rawId Hin) in Hid. discriminate.
Qed.

(** The built-in palette replaced by two identifiers. *)
Lemma setSupportedBlockCatalog_keeps_catalog_usable_witness :
  setSupportedBlockCatalog [" Oak-Log "; "minecraft:AIR"] DEFAULT_ALLOWED_BLOCK_TYPES
  <> [].
Proof.
  apply (setSupportedBlockCatalog_keeps_catalog_usable
           [" Oak-Log "; "minecraft:AIR"] DEFAULT_ALLOWED_BLOCK_TYPES).
  - discriminate.
  - apply List.Forall_forall, List.forallb_forall. reflexivity.
Defined.

(** *** The palette of the prompt *)

Lemma default_palette_NoDup : List.NoDup DEFAULT_ALLOWED_BLOCK_TYPES.
Proof.
  unfold DEFAULT_ALLOWED_BLOCK_TYPES.
  repeat (constructor; [simpl; intuition discriminate|]). constructor.
Qed.

Lemma filter_NoDup {A} (p : A -> bool) (l : list A) :
  List.NoDup l -> List.NoDup (List.filter p l).
Proof.
  induction l as [|a l IH]; intros Hnd; [constructor|].
  inversion Hnd as [|? ? Ha Hl]; subst. simpl.
  destruct (p a); [|now apply IH]. constructor; [|now apply IH].
  rewrite filter_In. tauto.
Qed.

Lemma palette_unlimited (catalog : list string) :
  List.NoDup catalog ->
  List.NoDup (selectPaletteForPrompt 0 catalog)
  /\ (forall id, In id (selectPaletteForPrompt 0 catalog) <-> In id catalog)
  /\ List.length (selectPaletteForPrompt 0 catalog) = List.length catalog.
Proof.
  intros Hnd. unfold selectPaletteForPrompt. cbv zeta.
  change (0 <=? 0) with true. cbv iota.
  set (preferred := List.filter (catalogHas catalog) DEFAULT_ALLOWED_BLOCK_TYPES).
  set (extra := List.filter (fun id => negb (existsb (String.eqb id) preferred))
                  catalog).
  assert (Hpref : forall id, In id preferred -> In id catalog).
  { intros id H. apply filter_In in H as [_ H]. now apply catalogHas_In in H. }
  assert (Hn : List.NoDup (preferred ++ extra)).
  { apply List.NoDup_app.
    - apply filter_NoDup, default_palette_NoDup.
    - now apply filter_NoDup.
    - intros id Hp He. apply filter_In in He as [_ He].
      apply negb_true_iff in He.
      apply existsb_eqb_In in Hp. congruence. }
  assert (Hmem : forall id, In id (preferred ++ extra) <-> In id catalog).
  { intros id. rewrite in_app_iff. split.
    - intros [H|H]; [now apply Hpref|]. now apply filter_In in H as [H _].
    - intros H. destruct (existsb (String.eqb id) preferred) eqn:He.
      + left. now apply existsb_eqb_In.
      + right. apply filter_In. split; [exact H|]. now rewrite He. }
  split; [exact Hn|]. split; [exact Hmem|].
  apply Nat.le_antisymm.
  - apply (List.NoDup_incl_length Hn). intros id Hid. exact (proj1 (Hmem id) Hid).
  - apply (List.NoDup_incl_length Hnd). intros id Hid. exact (proj2 (Hmem id) Hid).
Qed.

Lemma selectPalette_unlimited (limit : Z) (catalog : list string) :
  limit <= 0 -> selectPaletteForPrompt limit catalog = selectPaletteForPrompt 0 catalog.
Proof.
  intros H. unfold selectPaletteForPrompt. cbv zeta.
  apply Z.leb_le in H. rewrite H. change (0 <=? 0) with true. reflexivity.
Qed.

Lemma selectPalette_limited (limit : Z) (catalog : list string) :
  0 < limit ->
  selectPaletteForPrompt limit catalog
  = firstn (Z.to_nat limit) (selectPaletteForPrompt 0 catalog).
Proof.
  intros H. unfold selectPaletteForPrompt. cbv zeta.
  apply Z.leb_gt in H. rewrite H. change (0 <=? 0) with true. reflexivity.
Qed.

Lemma selectPalette_preferred_first (catalog : list string) :
  exists extra,
    selectPaletteForPrompt 0 catalog
    = List.filter (catalogHas catalog) DEFAULT_ALLOWED_BLOCK_TYPES ++ extra.
Proof.
  unfold selectPaletteForPrompt. cbv zeta. change (0 <=? 0) with true. cbv iota.
  eexists. reflexivity.
Qed.

(** The palette offered in the prompt is taken from the current catalog.
    Without a limit ([promptBlockTypeLimit <= 0]) it is the whole catalog,
    each member once, the members of the built-in palette first, in the
    built-in order.  With a limit it is the first [promptBlockTypeLimit]
    entries of that list. *)
Theorem palette_is_the_catalog (promptBlockTypeLimit : Z) (catalog : list string) :
  List.NoDup catalog ->
  List.NoDup (selectPaletteForPrompt promptBlockTypeLimit catalog)
  /\ (forall id,
        In id (selectPaletteForPrompt promptBlockTypeLimit catalog) -> In id catalog)
  /\ (promptBlockTypeLimit <= 0 ->
      (forall id, In id catalog ->
                  In id (selectPaletteForPrompt promptBlockTypeLimit catalog))
      /\ exists extra,
           selectPaletteForPrompt promptBlockTypeLimit catalog
           = List.filter (catalogHas catalog) DEFAULT_ALLOWED_BLOCK_TYPES ++ extra)
  /\ (0 < promptBlockTypeLimit ->
      selectPaletteForPrompt promptBlockTypeLimit catalog
      = firstn (Z.to_nat promptBlockTypeLimit) (selectPaletteForPrompt 0 catalog)
      /\ List.length (selectPaletteForPrompt promptBlockTypeLimit catalog)
         = Nat.min (Z.to_nat promptBlockTypeLimit) (List.length catalog)).
Proof.
  intros Hnd. destruct (palette_unlimited catalog Hnd) as (Hn & Hmem & Hlen).
  pose proof (selectPalette_preferred_first catalog) as Hfirst.
  pose proof (selectPalette_unlimited promptBlockTypeLimit catalog) as Hun.
  pose proof (selectPalette_limited promptBlockTypeLimit catalog) as Hlim.
  remember (selectPaletteForPrompt 0 catalog) as whole eqn:Hwhole.
  remember (selectPaletteForPrompt promptBlockTypeLimit catalog) as palette
    eqn:Hpalette.
  clear Hwhole Hpalette.
  destruct (Z.leb_spec promptBlockTypeLimit 0) as [Hle|Hgt].
  - rewrite (Hun Hle). split; [exact Hn|].
    split; [intros id Hid; exact (proj1 (Hmem id) Hid)|].
    split; [|lia]. intros _.
    split; [intros id Hid; exact (proj2 (Hmem id) Hid)|exact Hfirst].
  - rewrite (Hlim Hgt). split; [|split; [|split; [lia|]]].
    + rewrite <- (firstn_skipn (Z.to_nat promptBlockTypeLimit)) in Hn.
      now apply List.NoDup_app_remove_r in Hn.
    + intros id Hid. apply (proj1 (Hmem id)).
      rewrite <- (firstn_skipn (Z.to_nat promptBlockTypeLimit)).
      apply in_or_app. left. exact Hid.
    + intros _. split; [reflexivity|]. now rewrite length_firstn, Hlen.
Qed.

(** The built-in palette, limited to three entries. *)
Lemma palette_is_the_catalog_witness :
  selectPaletteForPrompt 3 DEFAULT_ALLOWED_BLOCK_TYPES
  = ["minecraft:stone"; "minecraft:cobblestone"; "minecraft:stone_bricks"].
Proof.
  destruct (palette_is_the_catalog 3 DEFAULT_ALLOWED_BLOCK_TYPES default_palette_NoDup)
    as (_ & _ & _ & Hlimit).
  destruct (Hlimit ltac:(lia)) as [-> _]. reflexivity.
Defined.

(** * The session manager *)

(** ** Maps in insertion order *)

Section JsMapFacts.

Context {V : Type}.
Implicit Types entries : list (string * V).

Lemma JsMap_get_In key entries v :
  JsMap.get key entries = Some v -> In (key, v) entries.
Proof.
  induction entries as [|[k w] rest IH]; simpl; [discriminate|].
  destruct (String.eqb k key) eqn:E.
  - apply String.eqb_eq in E. intros H. injection H as ->. subst. now left.
  - intros H. right. now apply IH.
Qed.

Lemma JsMap_In_get key entries v :
  JsMap.wellFormed entries -> In (key, v) entries -> JsMap.get key entries = Some v.
Proof.
  unfold JsMap.wellFormed.
  induction entries as [|[k w] rest IH]; simpl; intros Hnd Hin; [contradiction|].
  inversion Hnd as [|? ? Hk Hrest]; subst.
  destruct Hin as [Heq|Hin].
  - injection Heq as -> ->. now rewrite String.eqb_refl.
  - destruct (String.eqb k key) eqn:E; [|now apply IH].
    apply String.eqb_eq in E. subst k. exfalso. apply Hk.
    change key with (fst (key, v)). now apply in_map.
Qed.

Lemma JsMap_get_set_eq key v entries :
  JsMap.get key (JsMap.set key v entries) = Some v.
Proof.
  induction entries as [|[k w] rest IH]; simpl.
  - now rewrite String.eqb_refl.
  - destruct (String.eqb k key) eqn:E; simpl; rewrite E; [reflexivity|exact IH].
Qed.

Lemma JsMap_get_set_ne key other v entries :
  key <> other ->
  JsMap.get other (JsMap.set key v entries) = JsMap.get other entries.
Proof.
  intros Hne. induction entries as [|[k w] rest IH]; simpl.
  - apply String.eqb_neq in Hne. now rewrite Hne.
  - destruct (String.eqb k key) eqn:E; simpl.
    + apply String.eqb_eq in E. subst k.
      apply String.eqb_neq in Hne. now rewrite Hne.
    + now rewrite IH.
Qed.

Lemma JsMap_get_delete_ne key other entries :
  key <> other ->
  JsMap.get other (JsMap.delete key entries) = JsMap.get other entries.
Proof.
  intros Hne. induction entries as [|[k w] rest IH]; simpl; [reflexivity|].
  destruct (String.eqb k key) eqn:E; simpl.
  - apply String.eqb_eq in E. subst k.
    apply String.eqb_neq in Hne. now rewrite Hne.
  - now rewrite IH.
Qed.

Lemma JsMap_set_keys key v entries :
  List.map fst (JsMap.set key v entries)
  = if existsb (String.eqb key) (List.map fst entries) then List.map fst entries
    else List.map fst entries ++ [key].
Proof.
  induction entries as [|[k w] rest IH]; simpl; [reflexivity|].
  rewrite (String.eqb_sym key k).
  destruct (String.eqb k key) eqn:E; simpl; [reflexivity|].
  rewrite IH. now destruct (existsb (String.eqb key) (List.map fst rest)).
Qed.

Lemma JsMap_set_wellFormed key v entries :
  JsMap.wellFormed entries -> JsMap.wellFormed (JsMap.set key v entries).
Proof.
  unfold JsMap.wellFormed. intros Hnd. rewrite JsMap_set_keys.
  destruct (existsb (String.eqb key) (List.map fst entries)) eqn:E; [exact Hnd|].
  apply List.NoDup_app; [exact Hnd|repeat constructor; intros []|].
  intros k Hk [<-|[]]. apply existsb_eqb_In in Hk. congruence.
Qed.

Lemma JsMap_set_size key v entries :
  JsMap.size (JsMap.set key v entries)
  = if existsb (String.eqb key) (List.map fst entries) then JsMap.size entries
    else JsMap.size entries + 1.
Proof.
  unfold JsMap.size.
  rewrite <- (length_map fst (JsMap.set key v entries)), JsMap_set_keys.
  destruct (existsb (String.eqb key) (List.map fst entries));
    rewrite ?length_app, length_map; simpl; lia.
Qed.

Lemma JsMap_set_In key v entries k w :
  In (k, w) (JsMap.set key v entries) ->
  (k = key /\ w = v) \/ In (k, w) entries.
Proof.
  induction entries as [|[k0 w0] rest IH]; simpl.
  - intros [H|[]]. injection H as <- <-. now left.
  - destruct (String.eqb k0 key) eqn:E; simpl.
    + apply String.eqb_eq in E. subst k0. intros [H|H].
      * injection H as <- <-. now left.
      * right. now right.
    + intros [H|H]; [right; now left|].
      destruct (IH H) as [Hl|Hin]; [now left|right; now right].
Qed.

Lemma JsMap_delete_In key entries k w :
  In (k, w) (JsMap.delete key entries) -> In (k, w) entries.
Proof.
  induction entries as [|[k0 w0] rest IH]; simpl; [trivial|].
  destruct (String.eqb k0 key); simpl; [now right|].
  intros [H|H]; [now left|right; now apply IH].
Qed.

Lemma JsMap_delete_keys key entries :
  JsMap.wellFormed entries ->
  JsMap.wellFormed (JsMap.delete key entries)
  /\ (forall k, In k (List.map fst (JsMap.delete key entries))
                -> In k (List.map fst entries)).
Proof.
  unfold JsMap.wellFormed.
  induction entries as [|[k0 w0] rest IH]; simpl; intros Hnd; [now split|].
  inversion Hnd as [|? ? Hk Hrest]; subst.
  destruct (String.eqb k0 key); simpl.
  - split; [exact Hrest|]. intros k H. now right.
  - destruct (IH Hrest) as [Hn Hsub]. split.
    + constructor; [|exact Hn]. intros H. apply Hk. now apply Hsub.
    + intros k [H|H]; [now left|right; now apply Hsub].
Qed.

Lemma JsMap_delete_size key entries v :
  In (key, v) entries ->
  JsMap.size (JsMap.delete key entries) = JsMap.size entries - 1.
Proof.
  unfold JsMap.size.
  induction entries as [|[k0 w0] rest IH]; simpl; [contradiction|].
  destruct (String.eqb k0 key) eqn:E; simpl.
  - intros _. lia.
  - intros [H|H].
    + injection H as -> ->. rewrite String.eqb_refl in E. discriminate.
    + specialize (IH H). destruct rest; simpl in *; [contradiction|]. lia.
Qed.

End JsMapFacts.

(** ** Sessions *)

Section SessionFacts.

Variable Chat : Type.
Variable sessionTimeout : Z.
Variable manualBlockLimit : Z.

Implicit Types sessions : Session.Sessions Chat.
Implicit Types entries : list (string * Session.ManualBlockEntry).

Lemma sessions_lookup_insert sessions name (session : Session.PlayerSession Chat) :
  (<[name := session]> sessions) !! name = Some session.
Proof. apply (lookup_insert_eq (M := gmap string)). Qed.

Lemma sessions_lookup_insert_ne sessions name other
    (session : Session.PlayerSession Chat) :
  name <> other -> (<[name := session]> sessions) !! other = sessions !! other.
Proof. apply (lookup_insert_ne (M := gmap string)). Qed.

Lemma sessions_lookup_delete sessions name :
  (base.delete name sessions) !! name = None.
Proof. apply (lookup_delete_eq (M := gmap string)). Qed.

Lemma sessions_lookup_delete_ne sessions name other :
  name <> other -> (base.delete name sessions) !! other = sessions !! other.
Proof. apply (lookup_delete_ne (M := gmap string)). Qed.

(** A session just created is found, with no builds and no manual edits,
    until it expires: [getSession] returns it (its activity time renewed)
    when at most [sessionTimeout] has passed since the creation, and deletes
    it and returns [null] otherwise.  Creating a session replaces the
    player's previous one; the sessions of other players are not touched. *)
Theorem created_session_lives_until_timeout (created now now' : Z)
    (playerName : string) (position : Session.PlayerPosition) (handle : Chat)
    (prompt : string) sessions :
  let fresh (activity : Z) :=
    {| Session.chat := handle; Session.systemPrompt := prompt;
       Session.origin := position; Session.builds := [];
       Session.manualBlocks := []; Session.lastActivity := activity |} in
  let state := fst (Session.createSession Chat created playerName position handle
                      prompt sessions) in
  let found := Session.getSession Chat sessionTimeout now now' playerName state in
  snd (Session.createSession Chat created playerName position handle prompt sessions)
  = fresh created
  /\ snd found = (if sessionTimeout <? now - created then None
                  else Some (fresh now'))
  /\ fst found !! playerName = snd found
  /\ (forall other, other <> playerName -> fst found !! other = sessions !! other).
Proof.
  cbv zeta. unfold Session.createSession, Session.getSession. cbn [fst snd].
  rewrite sessions_lookup_insert. unfold Session.expired. cbn [Session.lastActivity].
  split; [reflexivity|].
  destruct (sessionTimeout <? now - created); cbn [fst snd].
  - split; [reflexivity|]. split; [apply sessions_lookup_delete|].
    intros other Hne.
    rewrite sessions_lookup_delete_ne, sessions_lookup_insert_ne,
      sessions_lookup_delete_ne by congruence.
    reflexivity.
  - split; [reflexivity|]. split; [apply sessions_lookup_insert|].
    intros other Hne.
    rewrite !sessions_lookup_insert_ne, sessions_lookup_delete_ne by congruence.
    reflexivity.
Qed.

Lemma cleanExpired_lookup (now : Z) sessions (name : string) :
  Session.cleanExpired Chat sessionTimeout now sessions !! name
  = match sessions !! name with
    | Some session =>
        if Session.expired Chat sessionTimeout now session then None else Some session
    | None => None
    end.
Proof.
  unfold Session.cleanExpired, Session.Sessions in *. rewrite map_lookup_filter.
  destruct (sessions !! name) as [session|]; [|reflexivity]. simpl.
  destruct (Session.expired Chat sessionTimeout now session) eqn:E.
  - rewrite option_guard_False; [reflexivity|]. simpl. discriminate.
  - rewrite option_guard_True; reflexivity.
Qed.

(** [cleanExpired] deletes the sessions that are expired at its clock
    reading and keeps the others as they are.  It takes nothing from what
    [getSession] answers at that time: the answer for any player is the same
    with and without the cleaning.  Cleaning twice at one time is cleaning
    once. *)
Theorem cleanExpired_only_drops_expired (now now' : Z) sessions :
  (forall name,
      Session.cleanExpired Chat sessionTimeout now sessions !! name
      = match sessions !! name with
        | Some session =>
            if Session.expired Chat sessionTimeout now session then None
            else Some session
        | None => None
        end)
  /\ (forall name,
        snd (Session.getSession Chat sessionTimeout now now' name
               (Session.cleanExpired Chat sessionTimeout now sessions))
        = snd (Session.getSession Chat sessionTimeout now now' name sessions))
  /\ Session.cleanExpired Chat sessionTimeout now
       (Session.cleanExpired Chat sessionTimeout now sessions)
     = Session.cleanExpired Chat sessionTimeout now sessions.
Proof.
  split; [apply cleanExpired_lookup|]. split.
  - intros name. unfold Session.getSession. rewrite cleanExpired_lookup.
    destruct (sessions !! name) as [session|]; [|reflexivity].
    destruct (Session.expired Chat sessionTimeout now session) eqn:E;
      [reflexivity|]. now rewrite E.
  - apply (map_eq (M := gmap string)). intros name. rewrite !cleanExpired_lookup.
    destruct (sessions !! name) as [session|]; [|reflexivity].
    destruct (Session.expired Chat sessionTimeout now session) eqn:E;
      [reflexivity|]. now rewrite E.
Qed.

(** *** Manual edits *)

Lemma oldestEntry_app entries1 entries2 best :
  Session.oldestEntry (entries1 ++ entries2) best
  = Session.oldestEntry entries2 (Session.oldestEntry entries1 best).
Proof.
  revert best. induction entries1 as [|[k v] rest IH]; intros best; [reflexivity|].
  simpl. apply IH.
Qed.

(** The entry the loop settles on is in the list, or is the one it started
    with, and no entry is older. *)
Lemma oldestEntry_least entries :
  forall best,
    match Session.oldestEntry entries best with
    | Some (k, t) =>
        (best = Some (k, t)
         \/ exists v, In (k, v) entries /\ Session.timestamp v = t)
        /\ (forall k' v', In (k', v') entries -> t <= Session.timestamp v')
        /\ (forall kb tb, best = Some (kb, tb) -> t <= tb)
    | None => entries = [] /\ best = None
    end.
Proof.
  induction entries as [|[k v] rest IH]; intros best.
  { simpl. destruct best as [[kb tb]|]; [|now split].
    split; [now left|]. split; [intros ? ? []|].
    intros ? ? H. injection H as <- <-. lia. }
  cbn [Session.oldestEntry].
  set (next := match best with
               | None => Some (k, Session.timestamp v)
               | Some (_, oldestTs) =>
                   if Session.timestamp v <? oldestTs
                   then Some (k, Session.timestamp v) else best
               end).
  assert (Hnext : exists kn tn,
             next = Some (kn, tn)
             /\ (best = Some (kn, tn) \/ (kn = k /\ tn = Session.timestamp v))
             /\ tn <= Session.timestamp v
             /\ (forall kb tb, best = Some (kb, tb) -> tn <= tb)).
  { unfold next. destruct best as [[kb tb]|].
    - destruct (Session.timestamp v <? tb) eqn:E.
      + apply Z.ltb_lt in E. exists k, (Session.timestamp v).
        repeat split; [now right|lia|].
        intros ? ? H. injection H as <- <-. lia.
      + apply Z.ltb_ge in E. exists kb, tb.
        repeat split; [now left|lia|].
        intros ? ? H. injection H as <- <-. lia.
    - exists k, (Session.timestamp v). repeat split; [now right|lia|discriminate]. }
  destruct Hnext as (kn & tn & Hn & Hfrom & Hle & Hbest).
  clearbody next. subst next. specialize (IH (Some (kn, tn))).
  destruct (Session.oldestEntry rest (Some (kn, tn))) as [[k0 t0]|];
    [|destruct IH as [_ IH]; discriminate IH].
  destruct IH as (Hin & Hall & Hstart).
  specialize (Hstart kn tn eq_refl).
  split; [|split].
  - destruct Hin as [Heq|(v0 & Hv0 & Ht0)].
    + injection Heq as <- <-. destruct Hfrom as [Hb|[-> ->]]; [now left|].
      right. exists v. split; [now left|reflexivity].
    + right. exists v0. split; [now right|exact Ht0].
  - intros k' v' [H|H]; [injection H as <- <-; lia|exact (Hall k' v' H)].
  - intros kb tb Hb. specialize (Hbest kb tb Hb). lia.
Qed.

Lemma manualBlockKey_nonempty (position : Session.PlayerPosition) (wx wy wz : Z) :
  Session.manualBlockKey position wx wy wz <> "".
Proof.
  unfold Session.manualBlockKey.
  destruct (integerToString (wx - Session.x position)); discriminate.
Qed.

Lemma evictOldest_within entries :
  JsMap.wellFormed entries ->
  (forall k v, In (k, v) entries -> k <> "") ->
  JsMap.size entries <= Z.max manualBlockLimit 0 + 1 ->
  editsWithinLimit manualBlockLimit (Session.evictOldest manualBlockLimit entries).
Proof.
  intros Hwf Hkeys Hsize. unfold Session.evictOldest.
  destruct (manualBlockLimit <? JsMap.size entries) eqn:Hover.
  - apply Z.ltb_lt in Hover.
    pose proof (oldestEntry_least entries None) as Hleast.
    destruct (Session.oldestEntry entries None) as [[k0 t0]|].
    + destruct Hleast as ([Hb|(v0 & Hin & _)] & _); [discriminate Hb|].
      pose proof (Hkeys k0 v0 Hin) as Hne. apply String.eqb_neq in Hne.
      rewrite Hne. split; [apply (JsMap_delete_keys k0 entries Hwf)|]. split.
      * intros k v H. apply (Hkeys k v). now apply JsMap_delete_In in H.
      * rewrite (JsMap_delete_size k0 entries v0 Hin). lia.
    + destruct Hleast as [-> _].
      split; [constructor|]. split; [intros ? ? []|].
      unfold JsMap.size. cbn [List.length]. lia.
  - apply Z.ltb_ge in Hover. split; [exact Hwf|]. split; [exact Hkeys|]. lia.
Qed.

(** The manual edits of a session stay within the limit.  A session starts
    without manual edits, and when the edits of a session are within
    [manualBlockLimit] before [recordManualBlock] (no key twice, none empty),
    they are within it afterwards.  The call returns [false] and changes
    nothing when the player has no session; otherwise it returns [true],
    sets the activity time and leaves the rest of the session and the other
    sessions alone. *)
Theorem manual_edits_stay_within_limit (now now' : Z) (playerName : string)
    (worldX worldY worldZ : Z) (act : Session.ManualAction) (type : string) sessions :
  let result := Session.recordManualBlock Chat manualBlockLimit now now' playerName
                  worldX worldY worldZ act type sessions in
  (forall created position handle prompt others,
      editsWithinLimit manualBlockLimit
        (Session.manualBlocks Chat
           (snd (Session.createSession Chat created playerName position handle prompt
                   others))))
  /\ (sessions !! playerName = None -> result = (sessions, false))
  /\ (forall session,
        sessions !! playerName = Some session ->
        editsWithinLimit manualBlockLimit (Session.manualBlocks Chat session) ->
        exists session',
          snd result = true
          /\ fst result !! playerName = Some session'
          /\ editsWithinLimit manualBlockLimit (Session.manualBlocks Chat session')
          /\ Session.lastActivity Chat session' = now'
          /\ Session.origin Chat session' = Session.origin Chat session
          /\ Session.builds Chat session' = Session.builds Chat session
          /\ (forall other, other <> playerName ->
                            fst result !! other = sessions !! other)).
Proof.
  cbv zeta. split; [|split].
  - intros. cbn [Session.createSession snd Session.manualBlocks].
    split; [constructor|]. split; [intros ? ? []|].
    unfold JsMap.size. cbn [List.length]. lia.
  - intros Hnone. unfold Session.recordManualBlock. now rewrite Hnone.
  - intros session Hsome (Hwf & Hkeys & Hsize).
    unfold Session.recordManualBlock. rewrite Hsome. cbv zeta. cbn [fst snd].
    eexists. split; [reflexivity|]. split; [apply sessions_lookup_insert|].
    cbn [Session.manualBlocks Session.lastActivity Session.origin Session.builds].
    split; [|split; [reflexivity|split; [reflexivity|split; [reflexivity|]]]].
    + apply evictOldest_within.
      * now apply JsMap_set_wellFormed.
      * intros k v H. apply JsMap_set_In in H as [[-> _]|H];
          [apply manualBlockKey_nonempty|now apply (Hkeys k v)].
      * rewrite JsMap_set_size. destruct (existsb _ _); lia.
    + intros other Hne. apply sessions_lookup_insert_ne. congruence.
Qed.

Lemma JsMap_set_absent {V} (key : string) (v : V) (l : list (string * V)) :
  existsb (String.eqb key) (List.map fst l) = false ->
  JsMap.set key v l = l ++ [(key, v)].
Proof.
  induction l as [|[k w] rest IH]; simpl; [reflexivity|].
  rewrite (String.eqb_sym key k). destruct (String.eqb k key); simpl; [discriminate|].
  intros H. now rewrite IH.
Qed.

Lemma JsMap_set_In_ne {V} (key : string) (v : V) (l : list (string * V)) k w :
  k <> key -> In (k, w) l -> In (k, w) (JsMap.set key v l).
Proof.
  intros Hne. induction l as [|[k0 w0] rest IH]; [intros []|]. simpl.
  destruct (String.eqb k0 key) eqn:E; simpl.
  - apply String.eqb_eq in E. intros [H|H]; [|now right].
    injection H as Hk Hw. congruence.
  - intros [H|H]; [now left|right; now apply IH].
Qed.

Lemma JsMap_unique {V} (l : list (string * V)) k v v' :
  JsMap.wellFormed l -> In (k, v) l -> In (k, v') l -> v = v'.
Proof.
  intros Hwf H H'. apply (JsMap_In_get k l v Hwf) in H.
  apply (JsMap_In_get k l v' Hwf) in H'. congruence.
Qed.

(** What [recordManualBlock] evicts, if anything, is not the edit it records,
    and is an oldest entry.  Under a limit of at least one, when no entry of
    the session is younger than the clock reading, the edit recorded is found
    under its key afterwards (replacing an earlier edit at that position);
    any other entry is either still there, or it was evicted and no entry
    that is left is older than it. *)
Theorem recorded_edit_is_kept (now now' : Z) (playerName : string)
    (worldX worldY worldZ : Z) (act : Session.ManualAction) (type : string) sessions
    (session : Session.PlayerSession Chat) :
  sessions !! playerName = Some session ->
  editsWithinLimit manualBlockLimit (Session.manualBlocks Chat session) ->
  1 <= manualBlockLimit ->
  (forall k v, In (k, v) (Session.manualBlocks Chat session) ->
               Session.timestamp v <= now) ->
  let key := Session.manualBlockKey (Session.origin Chat session)
               worldX worldY worldZ in
  exists session',
    fst (Session.recordManualBlock Chat manualBlockLimit now now' playerName
           worldX worldY worldZ act type sessions) !! playerName
    = Some session'
    /\ JsMap.get key (Session.manualBlocks Chat session')
       = Some {| Session.action := act; Session.blockType := type;
                 Session.timestamp := now |}
    /\ (forall k v,
          In (k, v) (Session.manualBlocks Chat session) -> k <> key ->
          JsMap.get k (Session.manualBlocks Chat session') = Some v
          \/ (forall k' v', In (k', v') (Session.manualBlocks Chat session') ->
                            Session.timestamp v <= Session.timestamp v')).
Proof.
  intros Hsome (Hwf & Hkeys & Hsize) Hlimit Hclock. cbv zeta.
  unfold Session.recordManualBlock. rewrite Hsome. cbv zeta. cbn [fst].
  eexists. split; [apply sessions_lookup_insert|].
  cbn [Session.manualBlocks].
  set (key := Session.manualBlockKey (Session.origin Chat session)
                worldX worldY worldZ).
  set (edit := {| Session.action := act; Session.blockType := type;
                  Session.timestamp := now |}).
  set (old := Session.manualBlocks Chat session) in *.
  pose proof (JsMap_set_wellFormed key edit old Hwf) as Hwf'.
  pose proof (JsMap_set_size key edit old) as Hsize'.
  unfold Session.evictOldest.
  destruct (manualBlockLimit <? JsMap.size (JsMap.set key edit old)) eqn:Hover.
  - apply Z.ltb_lt in Hover.
    destruct (existsb (String.eqb key) (List.map fst old)) eqn:Habsent; [lia|].
    pose proof (JsMap_set_absent key edit old Habsent) as Hset.
    pose proof (oldestEntry_least old None) as Hleast.
    pose proof (oldestEntry_least (JsMap.set key edit old) None) as Hleast'.
    rewrite Hset, oldestEntry_app in Hleast' |- *.
    destruct (Session.oldestEntry old None) as [[k0 t0]|];
      [|destruct Hleast as [Hnil _]; rewrite Hnil in *; unfold JsMap.size in *;
        simpl in *; lia].
    destruct Hleast as ([Hb|(v0 & Hin0 & Ht0)] & _ & _); [discriminate Hb|].
    cbn [Session.oldestEntry Session.timestamp edit] in Hleast' |- *.
    replace (now <? t0) with false in Hleast' |- *
      by (symmetry; apply Z.ltb_ge; rewrite <- Ht0; now apply (Hclock k0 v0)).
    pose proof (Hkeys k0 v0 Hin0) as Hne0. apply String.eqb_neq in Hne0.
    rewrite Hne0.
    assert (Hk0 : k0 <> key).
    { intros ->. assert (Hin : In key (List.map fst old))
        by (change key with (fst (key, v0)); now apply in_map).
      apply existsb_eqb_In in Hin. congruence. }
    destruct Hleast' as (_ & Hall & _). rewrite <- Hset in *. split.
    + rewrite JsMap_get_delete_ne by exact Hk0. apply JsMap_get_set_eq.
    + intros k v Hin Hne. destruct (String.eqb k k0) eqn:Ek.
      * apply String.eqb_eq in Ek. subst k. right. intros k' v' Hin'.
        rewrite (JsMap_unique old k0 v v0 Hwf Hin Hin0), Ht0.
        apply (Hall k' v'). now apply JsMap_delete_In in Hin'.
      * apply String.eqb_neq in Ek. left.
        rewrite JsMap_get_delete_ne by congruence.
        rewrite JsMap_get_set_ne by congruence.
        now apply JsMap_In_get.
  - split; [apply JsMap_get_set_eq|].
    intros k v Hin Hne. left. rewrite JsMap_get_set_ne by congruence.
    now apply JsMap_In_get.
Qed.

End SessionFacts.

(** A session of one minute, asked for after ten seconds. *)
Lemma created_session_lives_until_timeout_witness :
  snd (Session.getSession unit 60000 10000 10001 "alex"
         (fst (Session.createSession unit 0 "alex"
                 {| Session.x := 0; Session.y := 64; Session.z := 0;
                    Session.dimension := 0 |} tt "prompt" ∅)))
  = Some {| Session.chat := tt; Session.systemPrompt := "prompt";
            Session.origin := {| Session.x := 0; Session.y := 64; Session.z := 0;
                                 Session.dimension := 0 |};
            Session.builds := []; Session.manualBlocks := [];
            Session.lastActivity := 10001 |}.
Proof.
  exact (proj1 (proj2 (created_session_lives_until_timeout unit 60000 0 10000 10001
                         "alex" {| Session.x := 0; Session.y := 64; Session.z := 0;
                                   Session.dimension := 0 |} tt "prompt" ∅))).
Defined.

(** A first edit, two blocks north-east of the origin. *)
Lemma recorded_edit_is_kept_witness :
  exists session',
    fst (Session.recordManualBlock unit 1 5 6 "alex" 1 64 (-2) Session.Place
           "minecraft:stone" (<["alex" := exampleSession]> ∅)) !! "alex"
    = Some session'
    /\ JsMap.get "1,0,-2" (Session.manualBlocks unit session')
       = Some {| Session.action := Session.Place;
                 Session.blockType := "minecraft:stone"; Session.timestamp := 5 |}.
Proof.
  destruct (recorded_edit_is_kept unit 1 5 6 "alex" 1 64 (-2) Session.Place
              "minecraft:stone" (<["alex" := exampleSession]> ∅) exampleSession)
    as (session' & Hfound & Hkept & _).
  - reflexivity.
  - split; [constructor|]. split; [intros ? ? []|]. unfold JsMap.size. simpl. lia.
  - lia.
  - intros ? ? [].
  - exists session'. split; [exact Hfound|exact Hkept].
Defined.

(** * The command sender *)

(** ** Chunks *)

Lemma jsSlice_window {A} (i size : Z) (l : list A) :
  0 <= i -> 0 < size -> i < Z.of_nat (List.length l) ->
  jsSlice i (i + size) l = firstn (Z.to_nat size) (skipn (Z.to_nat i) l).
Proof.
  intros Hi Hs Hlen. unfold jsSlice. cbv zeta.
  replace (i <? 0) with false by (symmetry; apply Z.ltb_ge; lia).
  replace (i + size <? 0) with false by (symmetry; apply Z.ltb_ge; lia).
  rewrite (Z.min_l i) by lia.
  destruct (Z.min_spec (i + size) (Z.of_nat (List.length l))) as [[Hlt ->]|[Hge ->]].
  - f_equal. lia.
  - rewrite !firstn_all2; [reflexivity| |]; rewrite length_skipn; lia.
Qed.

Lemma chunkLoop_positive {A} (size : Z) (l : list A) :
  0 < size ->
  forall (fuel k : nat),
    Z.max 0 (Z.of_nat (List.length l) - Z.of_nat k * size) < Z.of_nat fuel ->
    exists chunks,
      chunkLoop fuel size l (Z.of_nat k * size) = Some chunks
      /\ List.concat (List.map snd chunks) = skipn (Z.to_nat (Z.of_nat k * size)) l
      /\ List.map fst chunks
         = List.map (fun j => Z.of_nat j * size) (List.seq k (List.length chunks))
      /\ Forall (fun c => snd c <> [] /\ Z.of_nat (List.length (snd c)) <= size) chunks
      /\ Z.of_nat (List.length chunks)
         = Z.max 0 (- ((Z.of_nat k * size - Z.of_nat (List.length l)) / size)).
Proof.
  intros Hsize. induction fuel as [|fuel IH]; intros k Hfuel.
  { exfalso. lia. }
  cbn [chunkLoop].
  destruct (Z.of_nat k * size <? Z.of_nat (List.length l)) eqn:Hin.
  - apply Z.ltb_lt in Hin.
    replace (Z.of_nat k * size + size) with (Z.of_nat (S k) * size) by lia.
    destruct (IH (S k)) as (rest & -> & Hcat & Hidx & Hall & Hcount); [lia|].
    eexists. split; [reflexivity|].
    replace (Z.of_nat (S k) * size) with (Z.of_nat k * size + size) in * by lia.
    rewrite (jsSlice_window (Z.of_nat k * size) size l) by lia.
    cbn [List.map snd fst List.concat List.length List.seq]. split; [|split; [|split]].
    + rewrite Hcat.
      replace (Z.to_nat (Z.of_nat k * size + size))
        with (Z.to_nat size + Z.to_nat (Z.of_nat k * size))%nat by lia.
      rewrite <- skipn_skipn. apply firstn_skipn.
    + f_equal. exact Hidx.
    + constructor; [|exact Hall]. cbn [snd]. split.
      * intros Hnil. apply (f_equal (@List.length A)) in Hnil.
        rewrite length_firstn, length_skipn in Hnil. simpl in Hnil. lia.
      * rewrite length_firstn. lia.
    + rewrite Nat2Z.inj_succ, Hcount.
      replace (Z.of_nat k * size + size - Z.of_nat (List.length l))
        with (Z.of_nat k * size - Z.of_nat (List.length l) + 1 * size) by lia.
      rewrite Z.div_add by lia.
      assert ((Z.of_nat k * size - Z.of_nat (List.length l)) / size < 0)
        by (apply Z.div_lt_upper_bound; lia).
      lia.
  - apply Z.ltb_ge in Hin. exists []. split; [reflexivity|].
    cbn [List.map List.concat List.length List.seq]. split; [|split; [|split]].
    + symmetry. apply skipn_all2. lia.
    + reflexivity.
    + constructor.
    + assert (0 <= (Z.of_nat k * size - Z.of_nat (List.length l)) / size)
        by (apply Z.div_pos; lia).
      lia.
Qed.

Lemma chunkLoop_whole {A} (size : Z) (l : list A) :
  0 < size ->
  exists chunks,
    chunkLoop (S (List.length l)) size l 0 = Some chunks
    /\ List.concat (List.map snd chunks) = l
    /\ List.map fst chunks
       = List.map (fun j => Z.of_nat j * size) (List.seq 0 (List.length chunks))
    /\ Forall (fun c => snd c <> [] /\ Z.of_nat (List.length (snd c)) <= size) chunks
    /\ Z.of_nat (List.length chunks) = - ((- Z.of_nat (List.length l)) / size).
Proof.
  intros Hsize.
  destruct (chunkLoop_positive size l Hsize (S (List.length l)) 0)
    as (chunks & Hrun & Hcat & Hidx & Hall & Hcount); [lia|].
  change (Z.of_nat 0 * size) with 0 in *. exists chunks.
  split; [exact Hrun|]. split; [exact Hcat|]. split; [exact Hidx|].
  split; [exact Hall|]. rewrite Hcount.
  replace (0 - Z.of_nat (List.length l)) with (- Z.of_nat (List.length l)) by lia.
  assert ((- Z.of_nat (List.length l)) / size <= 0).
  { apply Z.lt_succ_r, Z.div_lt_upper_bound; lia. }
  lia.
Qed.




(** ** Chat responses *)

Lemma string_of_list_ascii_app (a b : list ascii) :
  string_of_list_ascii (a ++ b)
  = (string_of_list_ascii a ++ string_of_list_ascii b)%string.
Proof. induction a as [|c a IH]; simpl; [reflexivity|]. now rewrite IH. Qed.

Lemma string_of_list_ascii_length (l : list ascii) :
  String.length (string_of_list_ascii l) = List.length l.
Proof. induction l as [|c l IH]; simpl; [reflexivity|]. now rewrite IH. Qed.

Lemma list_ascii_of_string_length (s : string) :
  List.length (list_ascii_of_string s) = String.length s.
Proof. induction s as [|c s IH]; simpl; [reflexivity|]. now rewrite IH. Qed.

Lemma append_empty (s : string) : (s ++ "")%string = s.
Proof.
  induction s as [|c s IH]; [reflexivity|].
  change (String c (s ++ "")%string = String c s). now f_equal.
Qed.

Lemma join_pieces (pieces : list (list ascii)) :
  JsString.join "" (List.map string_of_list_ascii pieces)
  = string_of_list_ascii (List.concat pieces).
Proof.
  induction pieces as [|p rest IH]; [reflexivity|].
  cbn [List.map List.concat]. rewrite string_of_list_ascii_app, <- IH.
  destruct rest as [|q rest]; cbn [List.map JsString.join].
  - now rewrite append_empty.
  - reflexivity.
Qed.

Lemma combine_seq_snd {A} (l : list A) (start : nat) :
  List.map snd (List.combine (List.seq start (List.length l)) l) = l.
Proof.
  revert start. induction l as [|a l IH]; intros start; [reflexivity|].
  simpl. now rewrite IH.
Qed.

Lemma combine_seq_fst {A} (l : list A) (start : nat) :
  List.map fst (List.combine (List.seq start (List.length l)) l)
  = List.seq start (List.length l).
Proof.
  revert start. induction l as [|a l IH]; intros start; [reflexivity|].
  simpl. now rewrite IH.
Qed.

(** A chat response is sent whole.  [sendChatResponse] ends, and the
    messages of its payloads, put together in order, are the response text
    (the message, cut when it is longer than the maximum).  A text of at
    most 600 code units goes out as one payload without chunk fields; a
    longer one as at least two payloads, none empty or longer than 600,
    numbered from 0 and each carrying their number. *)
Theorem chat_chunks_cover_text (maxResponseLen : Z) (player text : string)
    (kind : Sender.ResponseType) (count : option Z) :
  exists payloads,
    Sender.sendChatResponse maxResponseLen player text kind count = Some payloads
    /\ JsString.join "" (List.map Sender.message payloads)
       = Sender.responseText maxResponseLen text
    /\ Forall (fun p =>
                 Z.of_nat (String.length (Sender.message p)) <= Sender.CHUNK_RAW_LIMIT
                 /\ Sender.playerName p = player /\ Sender.type p = kind
                 /\ Sender.blockCount p = count) payloads
    /\ (Z.of_nat (String.length (Sender.responseText maxResponseLen text))
        <= Sender.CHUNK_RAW_LIMIT ->
        payloads
        = [{| Sender.playerName := player;
              Sender.message := Sender.responseText maxResponseLen text;
              Sender.type := kind; Sender.chatChunk := None;
              Sender.chatTotalChunks := None; Sender.blockCount := count |}])
    /\ (Sender.CHUNK_RAW_LIMIT
        < Z.of_nat (String.length (Sender.responseText maxResponseLen text)) ->
        (2 <= List.length payloads)%nat
        /\ List.map Sender.chatChunk payloads
           = List.map (fun j => Some (Z.of_nat j)) (List.seq 0 (List.length payloads))
        /\ Forall (fun p =>
                     Sender.message p <> ""
                     /\ Sender.chatTotalChunks p
                        = Some (Z.of_nat (List.length payloads))) payloads).
Proof.
  unfold Sender.sendChatResponse. cbv zeta.
  set (sent := Sender.responseText maxResponseLen text).
  destruct (Z.of_nat (String.length sent) <=? Sender.CHUNK_RAW_LIMIT) eqn:Hshort.
  - apply Z.leb_le in Hshort. eexists. split; [reflexivity|].
    cbn [List.map Sender.message JsString.join]. split; [reflexivity|]. split.
    + repeat constructor. exact Hshort.
    + split; [reflexivity|]. lia.
  - apply Z.leb_gt in Hshort.
    destruct (chunkLoop_whole Sender.CHUNK_RAW_LIMIT (list_ascii_of_string sent)
                ltac:(reflexivity))
      as (chunks & Hrun & Hcat & Hidx & Hall & Hcount).
    rewrite list_ascii_of_string_length in Hrun, Hcount. rewrite Hrun.
    eexists. split; [reflexivity|].
    rewrite length_map, length_combine, length_seq, Nat.min_id.
    rewrite !List.map_map. cbn [Sender.message Sender.chatChunk].
    split; [|split; [|split; [lia|]]].
    + rewrite <- (List.map_map (fun c => snd (snd c)) string_of_list_ascii).
      rewrite <- (List.map_map snd snd), combine_seq_snd, join_pieces, Hcat.
      apply string_of_list_ascii_of_string.
    + apply List.Forall_forall. intros p Hp.
      apply in_map_iff in Hp as ([j c] & <- & Hc).
      cbn [Sender.message Sender.playerName Sender.type Sender.blockCount snd].
      apply in_combine_r in Hc. rewrite List.Forall_forall in Hall.
      destruct (Hall c Hc) as [_ Hle].
      rewrite string_of_list_ascii_length. now repeat split.
    + intros _. split; [|split].
      * assert (Sender.CHUNK_RAW_LIMIT
                < Z.of_nat (List.length chunks) * Sender.CHUNK_RAW_LIMIT).
        { rewrite Hcount.
          pose proof (Z.div_mod (- Z.of_nat (String.length sent))
                        Sender.CHUNK_RAW_LIMIT ltac:(discriminate)) as Hdm.
          pose proof (Z.mod_pos_bound (- Z.of_nat (String.length sent))
                        Sender.CHUNK_RAW_LIMIT ltac:(reflexivity)) as Hmod.
          unfold Sender.CHUNK_RAW_LIMIT in *. lia. }
        unfold Sender.CHUNK_RAW_LIMIT in *. lia.
      * rewrite <- (List.map_map fst (fun j => Some (Z.of_nat j))).
        now rewrite combine_seq_fst.
      * apply List.Forall_forall. intros p Hp.
        apply in_map_iff in Hp as ([j c] & <- & Hc).
        cbn [Sender.message Sender.chatTotalChunks snd]. split; [|reflexivity].
        apply in_combine_r in Hc. rewrite List.Forall_forall in Hall.
        destruct (Hall c Hc) as [Hne _]. intros Hempty. apply Hne.
        apply (f_equal String.length) in Hempty.
        rewrite string_of_list_ascii_length in Hempty.
        now destruct (snd c).
Qed.

(** * The chat channel, end to end *)

Section ChatChannel.

Variable player : string.
Variable kind : Sender.ResponseType.
Variable count : option Z.

Lemma filter_nonempty_filled (done : list string) (k : nat) :
  Forall (fun c => c <> "") done ->
  List.length (List.filter (fun c => negb (String.eqb c ""))
                 (done ++ repeat "" k))
  = List.length done.
Proof.
  intros Hdone. rewrite List.filter_app, length_app.
  replace (List.filter (fun c => negb (String.eqb c "")) (repeat "" k))
    with (@nil string) by (induction k; simpl; congruence).
  simpl. rewrite Nat.add_0_r. f_equal.
  induction Hdone as [|c done Hc _ IH]; [reflexivity|]. simpl.
  apply String.eqb_neq in Hc. rewrite Hc. simpl. now rewrite IH.
Qed.

Lemma assignAt_next (done : list string) (m : string) (k : nat) :
  Receiver.assignAt (Z.of_nat (List.length done)) m (done ++ repeat "" (S k))
  = (done ++ [m]) ++ repeat "" k.
Proof.
  unfold Receiver.assignAt.
  replace (Z.of_nat (List.length done) <? 0) with false
    by (symmetry; apply Z.ltb_ge; lia).
  cbv zeta. rewrite Nat2Z.id.
  replace (List.length done <? List.length (done ++ repeat "" (S k)))%nat with true
    by (symmetry; apply Nat.ltb_lt; rewrite length_app, repeat_length; lia).
  rewrite firstn_app, Nat.sub_diag, firstn_all, firstn_O, app_nil_r.
  rewrite skipn_app, skipn_all2 by lia.
  replace (S (List.length done) - List.length done)%nat with 1%nat by lia.
  simpl. now rewrite <- app_assoc.
Qed.

(** The payloads of a response cut into the pieces [pieces], from the
    piece number [first] on. *)
Lemma receive_later_chunks (n : nat) (rest : list string) :
  forall (done : list string) (buffers : gmap string Receiver.ResponseBuffer),
    done <> [] -> rest <> [] ->
    n = (List.length done + List.length rest)%nat ->
    Forall (fun c => c <> "") done -> Forall (fun c => c <> "") rest ->
    buffers !! player
    = Some {| Receiver.chunks := done ++ repeat "" (List.length rest);
              Receiver.total := Z.of_nat n; Receiver.type := kind;
              Receiver.blockCount := count |} ->
    Receiver.receiveAll
      (List.map (fun c => {| Sender.playerName := player; Sender.message := snd c;
                             Sender.type := kind;
                             Sender.chatChunk := Some (Z.of_nat (fst c));
                             Sender.chatTotalChunks := Some (Z.of_nat n);
                             Sender.blockCount := count |})
         (List.combine (List.seq (List.length done) (List.length rest)) rest))
      buffers
    = (base.delete player buffers,
       [{| Receiver.playerName := player;
           Receiver.message := JsString.join "" (done ++ rest);
           Receiver.responseType := kind;
           Receiver.responseBlockCount := count |}]).
Proof.
  induction rest as [|m rest IH]; intros done buffers Hdone Hrest Hn Hd Hr Hbuf;
    [congruence|].
  apply List.Forall_cons_iff in Hr as [Hm Hr']. cbn [List.length] in Hbuf, Hn.
  cbn [List.length List.seq List.combine List.map Receiver.receiveAll fst snd].
  unfold Receiver.receiveChatResponse.
  cbn [Sender.chatTotalChunks Sender.chatChunk Sender.playerName Sender.message
       Sender.type Sender.blockCount default from_option]. unfold id.
  replace (Z.of_nat n <=? 1) with false
    by (symmetry; apply Z.leb_gt; destruct done; [congruence|simpl in Hn; lia]).
  cbv zeta. rewrite Hbuf.
  replace (Z.of_nat (List.length done) =? 0) with false
    by (symmetry; apply Z.eqb_neq; destruct done; [congruence|simpl; lia]).
  cbn [Receiver.chunks Receiver.total Receiver.type Receiver.blockCount].
  rewrite assignAt_next.
  rewrite filter_nonempty_filled
    by (apply Forall_app; split; [exact Hd|now constructor]).
  rewrite length_app. cbn [List.length].
  destruct rest as [|m' rest'].
  - cbn [List.length] in Hn.
    replace (Z.of_nat n <=? Z.of_nat (List.length done + 1)) with true
      by (symmetry; apply Z.leb_le; lia).
    cbn [repeat Receiver.receiveAll List.combine List.map List.seq List.length].
    now rewrite app_nil_r.
  - cbn [List.length] in Hn.
    replace (Z.of_nat n <=? Z.of_nat (List.length done + 1)) with false
      by (symmetry; apply Z.leb_gt; lia).
    set (buffers' := <[player := _]> buffers).
    specialize (IH (done ++ [m]) buffers').
    rewrite length_app in IH. cbn [List.length] in IH.
    replace (List.length done + 1)%nat with (S (List.length done)) in IH by lia.
    cbn [List.length]. rewrite IH.
    + unfold buffers'. rewrite (delete_insert_eq (M := gmap string)).
      now rewrite <- app_assoc.
    + now destruct done.
    + discriminate.
    + lia.
    + apply Forall_app. split; [exact Hd|now constructor].
    + exact Hr'.
    + unfold buffers'. rewrite (lookup_insert_eq (M := gmap string)).
      reflexivity.
Qed.

Lemma combine_map_r {A B C} (h : B -> C) (l1 : list A) (l2 : list B) :
  List.combine l1 (List.map h l2)
  = List.map (fun c => (fst c, h (snd c))) (List.combine l1 l2).
Proof.
  revert l2. induction l1 as [|a l1 IH]; intros [|b l2]; simpl; try reflexivity.
  now rewrite IH.
Qed.

(** The payloads of a response in at least two pieces, received in order. *)
Lemma receive_chunked (pieces : list string)
    (buffers : gmap string Receiver.ResponseBuffer) :
  (2 <= List.length pieces)%nat ->
  Forall (fun c => c <> "") pieces ->
  Receiver.receiveAll
    (List.map (fun c => {| Sender.playerName := player; Sender.message := snd c;
                           Sender.type := kind;
                           Sender.chatChunk := Some (Z.of_nat (fst c));
                           Sender.chatTotalChunks :=
                             Some (Z.of_nat (List.length pieces));
                           Sender.blockCount := count |})
       (List.combine (List.seq 0 (List.length pieces)) pieces))
    buffers
  = (base.delete player buffers,
     [{| Receiver.playerName := player;
         Receiver.message := JsString.join "" pieces;
         Receiver.responseType := kind;
         Receiver.responseBlockCount := count |}]).
Proof.
  intros Hlen Hall. destruct pieces as [|m rest]; [simpl in Hlen; lia|].
  destruct rest as [|m' rest]; [simpl in Hlen; lia|].
  apply List.Forall_cons_iff in Hall as [Hm Hrest].
  set (n := List.length (m :: m' :: rest)).
  assert (Hn : n = S (S (List.length rest))) by reflexivity.
  change (List.seq 0 n) with (0%nat :: List.seq 1 (List.length (m' :: rest))).
  cbn [List.combine List.map Receiver.receiveAll fst snd].
  unfold Receiver.receiveChatResponse.
  cbn [Sender.chatTotalChunks Sender.chatChunk Sender.playerName Sender.message
       Sender.type Sender.blockCount default from_option]. unfold id.
  replace (Z.of_nat n <=? 1) with false by (symmetry; apply Z.leb_gt; lia).
  cbv zeta. change (Z.of_nat 0 =? 0) with true.
  match goal with
  | |- context [match buffers !! player with
                | Some existing => @?a existing
                | None => ?b
                end] =>
      replace (match buffers !! player with
               | Some existing => a existing
               | None => b
               end) with b by (now destruct (buffers !! player))
  end.
  cbn [Receiver.chunks Receiver.total Receiver.type Receiver.blockCount].
  rewrite Nat2Z.id, Hn.
  change (Z.of_nat 0) with (Z.of_nat (List.length (@nil string))).
  change (repeat "" (S (S (List.length rest))))
    with ([] ++ repeat "" (S (S (List.length rest)))).
  rewrite assignAt_next.
  rewrite filter_nonempty_filled by (now repeat constructor).
  cbn [app List.length].
  replace (Z.of_nat (S (S (List.length rest))) <=? Z.of_nat 1) with false
    by (symmetry; apply Z.leb_gt; lia).
  rewrite <- Hn.
  rewrite (receive_later_chunks n (m' :: rest) [m]).
  - now rewrite (delete_insert_eq (M := gmap string)).
  - discriminate.
  - discriminate.
  - reflexivity.
  - now repeat constructor.
  - exact Hrest.
  - rewrite (lookup_insert_eq (M := gmap string)). rewrite Hn. reflexivity.
Qed.

End ChatChannel.

(** The chat channel loses nothing.  Whatever response the server sends
    with [sendChatResponse], short or long, and whatever the behaviour pack
    has buffered before, the payloads received in order make the pack call
    [handleChatResponse] exactly once, after the last payload, with the whole
    response text, the type and the block count that were sent; no partial
    text is ever handed over, and no buffer is left for the player when the
    response came in chunks. *)
Theorem chat_response_round_trip (maxResponseLen : Z) (player text : string)
    (kind : Sender.ResponseType) (count : option Z)
    (buffers : gmap string Receiver.ResponseBuffer) :
  exists payloads,
    Sender.sendChatResponse maxResponseLen player text kind count = Some payloads
    /\ Receiver.receiveAll payloads buffers
       = (if Z.of_nat (String.length (Sender.responseText maxResponseLen text))
             <=? Sender.CHUNK_RAW_LIMIT
          then buffers else base.delete player buffers,
          [{| Receiver.playerName := player;
              Receiver.message := Sender.responseText maxResponseLen text;
              Receiver.responseType := kind;
              Receiver.responseBlockCount := count |}]).
Proof.
  unfold Sender.sendChatResponse. cbv zeta.
  set (sent := Sender.responseText maxResponseLen text).
  destruct (Z.of_nat (String.length sent) <=? Sender.CHUNK_RAW_LIMIT) eqn:Hshort.
  - eexists. split; reflexivity.
  - apply Z.leb_gt in Hshort.
    destruct (chunkLoop_whole Sender.CHUNK_RAW_LIMIT (list_ascii_of_string sent)
                ltac:(reflexivity))
      as (chunks & Hrun & Hcat & _ & Hall & Hcount).
    rewrite list_ascii_of_string_length in Hrun, Hcount. rewrite Hrun.
    eexists. split; [reflexivity|].
    set (pieces := List.map (fun c => string_of_list_ascii (snd c)) chunks).
    assert (Hlen : List.length pieces = List.length chunks)
      by (unfold pieces; apply length_map).
    assert (Hpayloads :
      List.map
        (fun c => {| Sender.playerName := player;
                     Sender.message := string_of_list_ascii (snd (snd c));
                     Sender.type := kind;
                     Sender.chatChunk := Some (Z.of_nat (fst c));
                     Sender.chatTotalChunks := Some (Z.of_nat (List.length chunks));
                     Sender.blockCount := count |})
        (List.combine (List.seq 0 (List.length chunks)) chunks)
      = List.map
          (fun c => {| Sender.playerName := player; Sender.message := snd c;
                       Sender.type := kind;
                       Sender.chatChunk := Some (Z.of_nat (fst c));
                       Sender.chatTotalChunks := Some (Z.of_nat (List.length pieces));
                       Sender.blockCount := count |})
          (List.combine (List.seq 0 (List.length pieces)) pieces)).
    { rewrite Hlen. unfold pieces. rewrite combine_map_r, List.map_map.
      reflexivity. }
    rewrite Hpayloads, receive_chunked.
    + f_equal. unfold pieces.
      rewrite <- (List.map_map snd string_of_list_ascii), join_pieces, Hcat.
      now rewrite string_of_list_ascii_of_string.
    + rewrite Hlen.
      assert (Sender.CHUNK_RAW_LIMIT
              < Z.of_nat (List.length chunks) * Sender.CHUNK_RAW_LIMIT).
      { rewrite Hcount.
        pose proof (Z.div_mod (- Z.of_nat (String.length sent))
                      Sender.CHUNK_RAW_LIMIT ltac:(discriminate)) as Hdm.
        pose proof (Z.mod_pos_bound (- Z.of_nat (String.length sent))
                      Sender.CHUNK_RAW_LIMIT ltac:(reflexivity)) as Hmod.
        unfold Sender.CHUNK_RAW_LIMIT in *. lia. }
      unfold Sender.CHUNK_RAW_LIMIT in *. lia.
    + unfold pieces. apply List.Forall_forall. intros piece Hp.
      apply in_map_iff in Hp as (c & <- & Hc).
      rewrite List.Forall_forall in Hall. destruct (Hall c Hc) as [Hne _].
      intros Hempty. apply Hne. apply (f_equal String.length) in Hempty.
      rewrite string_of_list_ascii_length in Hempty. now destruct (snd c).
Qed.

(** ** Field names *)

(** The [field] argument of the evaluating functions only labels their
    errors: whether they succeed, and with what value, does not depend on
    it. *)
Theorem field_names_only_label_errors (numberToString : JsNumber -> string)
    (raw : option Json) (expr : string) (scope : Scope) (field1 field2 : string) :
  (forall n, evaluateIntegerExpression numberToString expr scope field1 = Ok n
             <-> evaluateIntegerExpression numberToString expr scope field2 = Ok n)
  /\ (forall n, evalIntExpr numberToString raw scope field1 = Ok n
                <-> evalIntExpr numberToString raw scope field2 = Ok n)
  /\ (forall v, evalCallArgValue numberToString raw scope field1 = Ok v
                <-> evalCallArgValue numberToString raw scope field2 = Ok v).
Proof.
  split; [|split].
  - intros n. split; apply evaluate_field_irrelevant.
  - intros n. split; apply evalIntExpr_field_irrelevant.
  - assert (Hone : forall f1 f2 v,
               evalCallArgValue numberToString raw scope f1 = Ok v ->
               evalCallArgValue numberToString raw scope f2 = Ok v).
    { intros f1 f2 v. unfold evalCallArgValue.
      destruct raw as [[| |q|s| |]|]; try discriminate.
      { destruct (truncFinite q); [trivial|discriminate]. }
      cbv zeta. destruct (String.eqb (JsString.trim s) ""); [discriminate|].
      destruct (if JsString.isIdentifier (JsString.trim s)
                then scopeGet scope (JsString.trim s) else None); [trivial|].
      destruct (evaluateIntegerExpression numberToString (JsString.trim s) scope f1)
        as [n|e1] eqn:H1.
      - now rewrite (evaluate_field_irrelevant _ _ _ f1 f2 _ H1).
      - destruct (evaluateIntegerExpression numberToString (JsString.trim s) scope f2)
          as [n|e2] eqn:H2; [|trivial].
        rewrite (evaluate_field_irrelevant _ _ _ f2 f1 _ H2) in H1. discriminate. }
    intros v. split; apply Hone.
Qed.

(** * The buffer of manual edits *)

Lemma lastn_short {A} (n : nat) (l : list A) :
  (List.length l <= n)%nat -> lastn n l = l.
Proof.
  intros H. unfold lastn.
  now replace (List.length l - n)%nat with 0%nat by lia.
Qed.

Lemma lastn_length {A} (n : nat) (l : list A) :
  List.length (lastn n l) = Nat.min n (List.length l).
Proof. unfold lastn. rewrite length_skipn. lia. Qed.

Lemma lastn_snoc {A} (n : nat) (l : list A) (a : A) :
  lastn (S n) (l ++ [a]) = lastn n l ++ [a].
Proof.
  unfold lastn. rewrite length_app. simpl.
  replace (List.length l + 1 - S n)%nat with (List.length l - n)%nat by lia.
  rewrite skipn_app.
  replace (List.length l - n - List.length l)%nat with 0%nat by lia.
  reflexivity.
Qed.

Lemma lastn_lastn_snoc {A} (n : nat) (l : list A) (a : A) :
  lastn (S n) (lastn (S n) l ++ [a])
  = lastn (S n) (l ++ [a]).
Proof.
  rewrite !lastn_snoc. f_equal. unfold lastn.
  rewrite length_skipn, skipn_skipn. f_equal. lia.
Qed.

Lemma pushEdit_lastn (edit : EditBuffer.ManualEdit) (buffer : list EditBuffer.ManualEdit) :
  (List.length buffer <= Z.to_nat EditBuffer.MAX_EDIT_BUFFER)%nat ->
  EditBuffer.pushEdit edit buffer
  = lastn (Z.to_nat EditBuffer.MAX_EDIT_BUFFER) (buffer ++ [edit]).
Proof.
  intros Hlen. unfold EditBuffer.pushEdit.
  change (Z.to_nat EditBuffer.MAX_EDIT_BUFFER) with (S 199) in *.
  rewrite lastn_snoc.
  destruct (EditBuffer.MAX_EDIT_BUFFER <=? Z.of_nat (List.length buffer)) eqn:Hfull.
  - apply Z.leb_le in Hfull. unfold EditBuffer.MAX_EDIT_BUFFER in Hfull.
    f_equal. unfold lastn.
    replace (List.length buffer - 199)%nat with 1%nat by lia.
    now destruct buffer.
  - apply Z.leb_gt in Hfull. unfold EditBuffer.MAX_EDIT_BUFFER in Hfull.
    now rewrite lastn_short by lia.
Qed.

(** The buffer holds the latest edits.  Pushing edits one after the other
    into a buffer of at most [MAX_EDIT_BUFFER] (200) edits leaves the last
    200 of all of them, oldest first; in particular the buffer never holds
    more than 200 edits, and the edit pushed last is its last element. *)
Theorem edit_buffer_keeps_latest (edits buffer : list EditBuffer.ManualEdit) :
  (List.length buffer <= Z.to_nat EditBuffer.MAX_EDIT_BUFFER)%nat ->
  fold_left (fun b edit => EditBuffer.pushEdit edit b) edits buffer
  = lastn (Z.to_nat EditBuffer.MAX_EDIT_BUFFER) (buffer ++ edits)
  /\ (List.length (fold_left (fun b edit => EditBuffer.pushEdit edit b) edits buffer)
      <= Z.to_nat EditBuffer.MAX_EDIT_BUFFER)%nat.
Proof.
  intros Hlen.
  assert (Heq : fold_left (fun b edit => EditBuffer.pushEdit edit b) edits buffer
                = lastn (Z.to_nat EditBuffer.MAX_EDIT_BUFFER)
                    (buffer ++ edits)).
  { induction edits as [|edit edits IH] using rev_ind.
    - simpl. rewrite app_nil_r. symmetry. now apply lastn_short.
    - rewrite fold_left_app. cbn [fold_left]. rewrite IH.
      rewrite pushEdit_lastn by (rewrite lastn_length; lia).
      change (Z.to_nat EditBuffer.MAX_EDIT_BUFFER) with (S 199).
      now rewrite lastn_lastn_snoc, app_assoc. }
  split; [exact Heq|]. rewrite Heq, lastn_length. lia.
Qed.

(** Two edits pushed into an empty buffer. *)
Lemma edit_buffer_keeps_latest_witness :
  fold_left (fun b edit => EditBuffer.pushEdit edit b)
    [{| EditBuffer.player := "alex"; EditBuffer.action := "place";
        EditBuffer.x := 1; EditBuffer.y := 64; EditBuffer.z := 0;
        EditBuffer.blockType := "minecraft:stone" |};
     {| EditBuffer.player := "alex"; EditBuffer.action := "break";
        EditBuffer.x := 1; EditBuffer.y := 64; EditBuffer.z := 0;
        EditBuffer.blockType := "minecraft:stone" |}] []
  = [{| EditBuffer.player := "alex"; EditBuffer.action := "place";
        EditBuffer.x := 1; EditBuffer.y := 64; EditBuffer.z := 0;
        EditBuffer.blockType := "minecraft:stone" |};
     {| EditBuffer.player := "alex"; EditBuffer.action := "break";
        EditBuffer.x := 1; EditBuffer.y := 64; EditBuffer.z := 0;
        EditBuffer.blockType := "minecraft:stone" |}].
Proof.
  refine (proj1 (edit_buffer_keeps_latest _ [] _)). simpl. lia.
Defined.

Lemma removeAt_parts {A} (i : nat) (l : list A) (a : A) :
  nth_error l i = Some a ->
  firstn i (EditBuffer.removeAt i l) = firstn i l
  /\ skipn i (EditBuffer.removeAt i l) = skipn (S i) l
  /\ skipn i l = a :: skipn (S i) l.
Proof.
  intros Hnth. assert (Hi : (i < List.length l)%nat)
    by (apply nth_error_Some; congruence).
  unfold EditBuffer.removeAt.
  assert (Hlen : List.length (firstn i l) = i) by (rewrite length_firstn; lia).
  split; [|split].
  - rewrite firstn_app, Hlen, Nat.sub_diag, firstn_O, app_nil_r.
    rewrite firstn_firstn. f_equal. lia.
  - rewrite skipn_app, Hlen, Nat.sub_diag. cbn [skipn].
    rewrite skipn_all2 by lia. reflexivity.
  - revert i Hnth Hi Hlen. induction l as [|b l IH]; intros [|i] Hnth Hi Hlen;
      simpl in *; try discriminate; try lia.
    + now injection Hnth as ->.
    + apply IH; [exact Hnth|lia|rewrite length_firstn; lia].
Qed.

Lemma collectLoop_spec (playerName : string) (count : nat) :
  forall buffer edits,
    (count <= List.length buffer)%nat ->
    EditBuffer.collectLoop count playerName buffer edits
    = (List.filter (fun e => negb (String.eqb (EditBuffer.player e) playerName))
         (firstn count buffer) ++ skipn count buffer,
       edits
       ++ List.rev (List.filter (fun e => String.eqb (EditBuffer.player e) playerName)
                      (firstn count buffer))).
Proof.
  induction count as [|i IH]; intros buffer edits Hlen.
  { simpl. now rewrite app_nil_r. }
  cbn [EditBuffer.collectLoop].
  destruct (nth_error buffer i) as [edit|] eqn:Hnth;
    [|apply nth_error_None in Hnth; lia].
  destruct (removeAt_parts i buffer edit Hnth) as (Hfirst & Hskip & Hsplit).
  assert (Hhead : firstn (S i) buffer = firstn i buffer ++ [edit]).
  { rewrite <- (firstn_skipn i buffer) at 1. rewrite Hsplit.
    rewrite firstn_app, length_firstn.
    replace (S i - Nat.min i (List.length buffer))%nat with 1%nat by lia.
    rewrite firstn_all2 by (rewrite length_firstn; lia). reflexivity. }
  rewrite Hhead, !List.filter_app. cbn [List.filter].
  destruct (String.eqb (EditBuffer.player edit) playerName) eqn:Hp; cbn [negb].
  - rewrite IH.
    + rewrite Hfirst, Hskip, !app_nil_r, rev_app_distr. cbn [List.rev app].
      now rewrite <- app_assoc.
    + unfold EditBuffer.removeAt. rewrite length_app, length_firstn, length_skipn. lia.
  - rewrite IH by lia. rewrite Hsplit, !app_nil_r, <- app_assoc. reflexivity.
Qed.

(** [ai:get_edits] hands over a player's edits, and only once.  The edits
    sent are those of the player in the buffer, in the order they were
    recorded; the buffer is left with the edits of the other players, in
    their order; asking again at once gives nothing. *)
Theorem takeEdits_hands_over_in_order (playerName : string)
    (buffer : list EditBuffer.ManualEdit) :
  EditBuffer.takeEdits playerName buffer
  = (List.filter (fun e => negb (String.eqb (EditBuffer.player e) playerName)) buffer,
     List.filter (fun e => String.eqb (EditBuffer.player e) playerName) buffer)
  /\ snd (EditBuffer.takeEdits playerName
            (fst (EditBuffer.takeEdits playerName buffer))) = [].
Proof.
  assert (Htake : forall l,
             EditBuffer.takeEdits playerName l
             = (List.filter (fun e => negb (String.eqb (EditBuffer.player e) playerName)) l,
                List.filter (fun e => String.eqb (EditBuffer.player e) playerName) l)).
  { intros l. unfold EditBuffer.takeEdits.
    rewrite collectLoop_spec by lia.
    rewrite firstn_all, skipn_all, app_nil_r. cbn [app].
    now rewrite rev_involutive. }
  split; [apply Htake|]. rewrite !Htake. cbn [fst snd].
  induction buffer as [|e buffer IH]; [reflexivity|]. cbn [List.filter].
  destruct (String.eqb (EditBuffer.player e) playerName) eqn:Hp; cbn [negb];
    [exact IH|]. cbn [List.filter]. now rewrite Hp.
Qed.

(** * The chat history of the menu *)

Lemma lastn_lastn {A} (n m : nat) (l : list A) :
  (n <= m)%nat -> lastn n (lastn m l) = lastn n l.
Proof.
  intros H. unfold lastn. rewrite length_skipn, skipn_skipn. f_equal. lia.
Qed.

Lemma shiftWhileLong_lastn (history : list ChatHistory.ChatMessage) :
  ChatHistory.shiftWhileLong history = lastn 16 history.
Proof.
  induction history as [|msg rest IH]; [reflexivity|].
  cbn [ChatHistory.shiftWhileLong].
  destruct (ChatHistory.MAX_CHAT_DISPLAY * 2 <? Z.of_nat (List.length (msg :: rest)))
    eqn:Hlong.
  - apply Z.ltb_lt in Hlong. unfold ChatHistory.MAX_CHAT_DISPLAY in Hlong.
    cbn [List.length] in Hlong. rewrite IH. unfold lastn. cbn [List.length].
    replace (S (List.length rest) - 16)%nat with (S (List.length rest - 16)) by lia.
    reflexivity.
  - apply Z.ltb_ge in Hlong. unfold ChatHistory.MAX_CHAT_DISPLAY in Hlong.
    symmetry. apply lastn_short. lia.
Qed.

Lemma jsSlice_last {A} (n : nat) (l : list A) :
  jsSlice (- Z.of_nat (S n)) (Z.of_nat (List.length l)) l = lastn (S n) l.
Proof.
  unfold jsSlice, lastn.
  replace (- Z.of_nat (S n) <? 0) with true by (symmetry; apply Z.ltb_lt; lia).
  replace (Z.of_nat (List.length l) <? 0) with false
    by (symmetry; apply Z.ltb_ge; lia).
  rewrite Z.min_id.
  replace (Z.to_nat (Z.max (Z.of_nat (List.length l) + - Z.of_nat (S n)) 0))
    with (List.length l - S n)%nat by lia.
  apply firstn_all2. rewrite length_skipn. lia.
Qed.

Lemma addChatMessage_lookup (playerName who : string) (r : ChatHistory.Role)
    (t : string) (chatHistories : ChatHistory.Histories) :
  ChatHistory.addChatMessage who r t chatHistories !! playerName
  = if String.eqb who playerName
    then Some (lastn 16 (ChatHistory.getChatHistory who chatHistories
                         ++ [{| ChatHistory.role := r; ChatHistory.text := t |}]))
    else chatHistories !! playerName.
Proof.
  unfold ChatHistory.addChatMessage, ChatHistory.getChatHistory.
  destruct (String.eqb who playerName) eqn:Hwho.
  - apply String.eqb_eq in Hwho. subst who. rewrite shiftWhileLong_lastn.
    etransitivity; [apply lookup_insert_eq|].
    now destruct (chatHistories !! playerName).
  - apply String.eqb_neq in Hwho. now apply lookup_insert_ne.
Qed.

Lemma replay_history (playerName : string)
    (log : list (string * ChatHistory.ChatMessage)) :
  ChatHistory.replay log !! playerName
  = match ChatHistory.messagesOf playerName log with
    | [] => None
    | messages => Some (lastn 16 messages)
    end.
Proof.
  unfold ChatHistory.replay, ChatHistory.messagesOf.
  induction log as [|[who [r t]] log IH] using rev_ind; [reflexivity|].
  rewrite fold_left_app, List.filter_app, List.map_app.
  cbn [fold_left List.filter fst snd ChatHistory.role ChatHistory.text].
  rewrite addChatMessage_lookup.
  destruct (String.eqb who playerName) eqn:Hwho.
  - apply String.eqb_eq in Hwho. subst who.
    unfold ChatHistory.getChatHistory. rewrite IH. cbn [List.map].
    destruct (List.map snd _) as [|m ms] eqn:Hmine.
    + reflexivity.
    + cbn [default from_option]. unfold id.
      change 16%nat with (S 15). rewrite lastn_lastn_snoc.
      destruct ((m :: ms) ++ _) eqn:Hcat; [discriminate|reflexivity].
  - rewrite IH. cbn [List.map]. now rewrite app_nil_r.
Qed.

(** The menu shows the latest messages of the player.  After any sequence
    of [addChatMessage] calls from the empty map, a player's stored history
    is the last 16 of their messages, and [formatChatHistory] shows the last
    8 of them, one line each in the order they were added; the placeholder
    text appears exactly for a player without messages.  Messages of other
    players never show. *)
Theorem chat_menu_shows_latest_messages (playerName : string)
    (log : list (string * ChatHistory.ChatMessage)) :
  ChatHistory.getChatHistory playerName (ChatHistory.replay log)
  = lastn 16 (ChatHistory.messagesOf playerName log)
  /\ ChatHistory.formatChatHistory playerName (ChatHistory.replay log)
     = match ChatHistory.messagesOf playerName log with
       | [] => "No conversation yet. Send a message to start!"
       | _ => JsString.join (String "010"%char "")
                (List.map ChatHistory.formatMessage
                   (lastn 8 (ChatHistory.messagesOf playerName log)))
       end.
Proof.
  set (messages := ChatHistory.messagesOf playerName log).
  assert (Hget : ChatHistory.getChatHistory playerName (ChatHistory.replay log)
                 = lastn 16 messages).
  { unfold ChatHistory.getChatHistory. rewrite replay_history.
    fold messages. now destruct messages. }
  split; [exact Hget|].
  unfold ChatHistory.formatChatHistory. rewrite Hget.
  destruct messages as [|m ms]; [reflexivity|].
  set (all := m :: ms).
  assert (Hlen : List.length (lastn 16 all) <> 0%nat).
  { rewrite lastn_length. subst all. cbn [List.length]. lia. }
  replace (Z.of_nat (List.length (lastn 16 all)) =? 0) with false
    by (symmetry; apply Z.eqb_neq; lia).
  change (- ChatHistory.MAX_CHAT_DISPLAY) with (- Z.of_nat (S 7)).
  rewrite jsSlice_last. change (S 7) with 8%nat.
  now rewrite lastn_lastn by lia.
Qed.
